(** * dsl-log-viewer: the event pipeline of [LogPlayback.tsx]

    A shallow embedding of the log parser ([parseLog]), the ANSI to BBCode
    translator ([ansiToBBCode]), the fight accumulator ([addRoundToActors],
    [addRoundToTotals], [flushFightSummary]) and the playback effect of
    [src/components/LogPlayback.tsx], with the properties the design
    document states about them.  The embedding follows the current
    revision of the component, the one with [fmt1] and the per-source
    lines; the earlier revisions differ in the deduplication of [parseLog]
    and in the basis of [addRoundToTotals].

    Modelling conventions.
    - A JavaScript string is a [string]; the scans of lines and escape
      sequences treat the characters they do not name uniformly, so the
      width of a code unit does not matter to them.  White space is the
      exception: [CodeUnits] reads actor names as code units, with all
      of the class [\s].
    - A JavaScript number holding a damage amount or an elapsed time is an
      exact rational [Q]: floating-point rounding and overflow are left
      out.  Hit and miss counters and millisecond timestamps are integers
      [Z].
    - A field the code reads defensively ([x || 0], [x ?? 0], [x?.length])
      is an [option]; [None] is [undefined] or [null].
    - [JSON.parse] and the parsing of dates are a parameter of the
      parser.  In [Parse] and in the playback a [Date] is a valid
      instant, held as its [getTime()] in milliseconds; [RawParse] is the
      parser on every record, with the Invalid Date and the exceptions
      that leave [parseLog].
    - [term.current?.writeln(...)] is modelled by returning the written
      lines, in order, next to the new state of the refs.

    After the properties of the design document come further properties
    of the same code and of the code around it: the plain-text copy
    ([copyPlainText]), the whole-log viewer ([showWholeLog]), the clock
    and its buttons, and sequences of runs of the playback effect. *)

From Stdlib Require Import ZArith QArith NArith List String Ascii Bool Lia.
From Stdlib Require Import Qround Permutation Sorted DecimalString.
From Stdlib Require Import Lqa.
Import ListNotations.

Local Open Scope list_scope.

(* ================================================================== *)
(** * Strings *)
(* ================================================================== *)

Module Str.

(** [line.charAt(0)] of a suffix: [None] stands for the empty string that
    [charAt] returns past the end. *)
Definition head (s : string) : option ascii :=
  match s with
  | EmptyString => None
  | String c _ => Some c
  end.

(** JavaScript truthiness of a string. *)
Definition truthy (s : string) : bool :=
  match s with
  | EmptyString => false
  | String _ _ => true
  end.

(** [s.split(sep)] for a one-character separator. *)
Fixpoint split (sep : ascii) (s : string) : list string :=
  match s with
  | EmptyString => [EmptyString]
  | String c t =>
      if Ascii.eqb c sep then EmptyString :: split sep t
      else match split sep t with
           | h :: r => String c h :: r
           | [] => [String c EmptyString]
           end
  end.

Definition isDigit (c : ascii) : bool :=
  let n := nat_of_ascii c in (48 <=? n)%nat && (n <=? 57)%nat.

(** [Number(s)] on a string of decimal digits, exactly (JavaScript rounds
    above 2^53, far from any colour code); the empty string gives [0]. *)
Definition Number (s : string) : N :=
  (fix go (s : string) (acc : N) : N :=
     match s with
     | EmptyString => acc
     | String c t => go t (acc * 10 + N.of_nat (nat_of_ascii c - 48))%N
     end) s 0%N.

(** [String(n)] for a natural number. *)
Definition ofN (n : N) : string := NilZero.string_of_uint (N.to_uint n).

(** [String(z)] for an integer. *)
Definition ofZ (z : Z) : string := NilZero.string_of_int (Z.to_int z).

(** The white space of [\s] and of [trim] among the first 256 code
    points: tab, line feed, vertical tab, form feed, carriage return,
    space and no-break space. *)
Definition isSpace (c : ascii) : bool :=
  let n := nat_of_ascii c in
  ((9 <=? n)%nat && (n <=? 13)%nat) || (n =? 32)%nat || (n =? 160)%nat.

(** [!line.trim()]: the line holds nothing but white space. *)
Fixpoint isBlank (s : string) : bool :=
  match s with
  | EmptyString => true
  | String c t => isSpace c && isBlank t
  end.

End Str.

(* ================================================================== *)
(** * ANSI to BBCode ([ansiToBBCode]) *)
(* ================================================================== *)

Module Ansi.

Definition ESC : ascii := "027"%char.

(** The character class [[0-9;]] of the regular expression. *)
Definition isParamChar (c : ascii) : bool :=
  Str.isDigit c || Ascii.eqb c ";".

(** Greedy [[0-9;]*]: the longest run of parameter characters and what
    follows it. *)
Fixpoint spanParams (s : string) : string * string :=
  match s with
  | EmptyString => (EmptyString, EmptyString)
  | String c t =>
      if isParamChar c
      then let (p, r) := spanParams t in (String c p, r)
      else (EmptyString, s)
  end.

(** Anchored match of [/\x1b\[([0-9;]+)m/] at the start of [s]: the
    capture group [m[1]] and the text after the match.  The character
    [m] is not in the class, so the greedy run is the only candidate. *)
Definition matchSgr (s : string) : option (string * string) :=
  match s with
  | String c1 (String c2 t) =>
      if Ascii.eqb c1 ESC && Ascii.eqb c2 "["
      then match spanParams t with
           | (String p ps, String c3 rest) =>
               if Ascii.eqb c3 "m" then Some (String p ps, rest) else None
           | _ => None
           end
      else None
  | _ => None
  end.

(** [esc.exec(line)] seen from [lastIndex]: the leftmost match in the
    remaining text [s], as ([line.slice(last, m.index)], [m[1]], text from
    the new [lastIndex]); [None] when the regular expression finds
    nothing. *)
Fixpoint exec (s : string) : option (string * string * string) :=
  match matchSgr s with
  | Some (ps, rest) => Some (EmptyString, ps, rest)
  | None =>
      match s with
      | EmptyString => None
      | String c t =>
          match exec t with
          | Some (pre, ps, rest) => Some (String c pre, ps, rest)
          | None => None
          end
      end
  end.

(** [ansiColorNames]. *)
Definition ansiColorNames (c : N) : option string :=
  match c with
  | 30 => Some "BLACK" | 31 => Some "RED" | 32 => Some "GREEN"
  | 33 => Some "YELLOW" | 34 => Some "BLUE" | 35 => Some "MAGENTA"
  | 36 => Some "CYAN" | 37 => Some "WHITE"
  | 90 => Some "BROWN" | 91 => Some "ORANGE" | 92 => Some "LIME GREEN"
  | 93 => Some "YELLOW" | 94 => Some "BLUE" | 95 => Some "MAGENTA"
  | 96 => Some "CYAN" | 97 => Some "WHITE"
  | 38 => Some "PURPLE"
  | _ => None
  end%N%string.

(** The value [pick] returns: a colour code or a ready-made name. *)
Inductive Picked :=
| PickNum (c : N)
| PickStr (s : string).

(** [codes.findIndex((c, idx) => p(c, idx))]. *)
Fixpoint findIndexFrom {A} (p : A -> nat -> bool) (idx : nat) (l : list A)
  : option nat :=
  match l with
  | [] => None
  | c :: t => if p c idx then Some idx else findIndexFrom p (S idx) t
  end.

Definition isSomeN (o : option N) (n : N) : bool :=
  match o with
  | Some m => N.eqb m n
  | None => false
  end.

(** The closure [pick]: a bright code first, then a basic code, then the
    indexed form [38;5;x]. *)
Definition pick (codes : list N) : option Picked :=
  match find (fun c => (90 <=? c) && (c <=? 97))%N codes with
  | Some bright => Some (PickNum bright)
  | None =>
      match find (fun c => (30 <=? c) && (c <=? 37))%N codes with
      | Some basic => Some (PickNum basic)
      | None =>
          match findIndexFrom
                  (fun c idx => (c =? 38)%N
                                && isSomeN (nth_error codes (idx + 1)) 5)
                  0 codes with
          | Some i =>
              match nth_error codes (i + 2) with
              | Some x =>
                  if (x =? 61)%N then Some (PickStr "PURPLE")
                  else Some (PickStr ("XTERM-" ++ Str.ofN x))
              | None => Some (PickStr "XTERM-undefined")
              end
          | None => None
          end
      end
  end.

(** A piece appended to [out] by one [out += ...]. *)
Inductive Chunk :=
| CText (s : string)     (* a slice of the line *)
| COpen (name : string)  (* [COLOR=name] *)
| CClose.                (* [/COLOR] *)

Definition renderChunk (c : Chunk) : string :=
  match c with
  | CText s => s
  | COpen name => "[COLOR=" ++ name ++ "]"
  | CClose => "[/COLOR]"
  end%string.

Definition render (l : list Chunk) : string :=
  fold_right (fun c acc => (renderChunk c ++ acc)%string) EmptyString l.

(** Truthiness of [open : string | null]. *)
Definition isOpen (open : option string) : bool :=
  match open with
  | Some s => Str.truthy s
  | None => false
  end.

Definition isBracket (c : option ascii) : bool :=
  match c with
  | Some c => Ascii.eqb c "]"
  | None => false
  end.

(** The body of the [while] loop after its first line: what one matched
    escape with parameters [codes], followed in the line by [nextChar],
    appends to [out] and does to [open]. *)
Definition escStep (open : option string) (codes : list N)
    (nextChar : option ascii) : list Chunk * option string :=
  let '(out1, open1) :=
    if existsb (N.eqb 0) codes && isOpen open
    then ([CClose], None) else ([], open) in
  match pick codes with
  | None => (out1, open1)
  | Some col =>
      let name := match col with
                  | PickNum c => ansiColorNames c
                  | PickStr s => Some s
                  end in
      match name with
      | None => (out1, open1)
      | Some name =>
          if Str.truthy name then
            if isBracket nextChar then (out1, open1)
            else (out1 ++ (if isOpen open1 then [CClose] else [])
                       ++ [COpen name],
                  Some name)
          else (out1, open1)
      end
  end.

(** [m[1].split(";").map(Number)]. *)
Definition codesOf (params : string) : list N :=
  map Str.Number (Str.split ";" params).

(** The [while] loop and the two statements after it, on the text [rest]
    that starts at [last].  Every match consumes at least four characters,
    so [fuel] above the length of [rest] is never used up. *)
Fixpoint ansiLoop (fuel : nat) (rest : string) (open : option string)
  : list Chunk :=
  match fuel with
  | O => []
  | S fuel' =>
      match exec rest with
      | Some (pre, params, rest') =>
          let '(emitted, open') :=
            escStep open (codesOf params) (Str.head rest') in
          CText pre :: emitted ++ ansiLoop fuel' rest' open'
      | None =>
          CText rest :: (if isOpen open then [CClose] else [])
      end
  end.

Definition ansiChunks (line : string) : list Chunk :=
  ansiLoop (S (String.length line)) line None.

Definition ansiToBBCode (line : string) : string :=
  render (ansiChunks line).

(** ** Vocabulary of the statements *)

(** The source text of an SGR escape with parameter text [params]. *)
Definition sgrText (params : string) : string :=
  String ESC (String "[" (params ++ "m"))%string.

Fixpoint allParamChars (s : string) : bool :=
  match s with
  | EmptyString => true
  | String c t => isParamChar c && allParamChars t
  end.

(** What the translator recognises as an escape sequence: [ESC [], one or
    more digits or semicolons, [m]. *)
Definition validParams (params : string) : Prop :=
  params <> EmptyString /\ allParamChars params = true.

(** [s] contains no escape sequence. *)
Definition escFree (s : string) : Prop :=
  forall a params b, validParams params ->
    s <> (a ++ sgrText params ++ b)%string.

(** A line cut into plain text and escape sequences. *)
Inductive Seg :=
| SText (s : string)
| SEsc (params : string).

Definition segText (g : Seg) : string :=
  match g with
  | SText s => s
  | SEsc params => sgrText params
  end.

Definition unlex (segs : list Seg) : string :=
  fold_right (fun g acc => (segText g ++ acc)%string) EmptyString segs.

Definition segTexts (segs : list Seg) : list string :=
  flat_map (fun g => match g with SText s => [s] | SEsc _ => [] end) segs.

Definition segOk (g : Seg) : Prop :=
  match g with
  | SText s => escFree s
  | SEsc params => validParams params
  end.

Definition chunkTexts (l : list Chunk) : list string :=
  flat_map (fun c => match c with CText s => [s] | _ => [] end) l.

Definition opens (l : list Chunk) : nat :=
  List.length (filter (fun c => match c with COpen _ => true | _ => false end) l).

Definition closes (l : list Chunk) : nat :=
  List.length (filter (fun c => match c with CClose => true | _ => false end) l).


(** The design document read literally: an escape followed
    by a closing bracket appends nothing and leaves [open] alone. *)
Definition suppressedEntirely (open : option string) (codes : list N) : Prop :=
  escStep open codes (Some "]"%char) = ([], open).

(** Nesting depth after reading chunks from depth [d]; [None] when a
    close tag arrives with nothing open. *)
Fixpoint walk (d : nat) (l : list Chunk) : option nat :=
  match l with
  | [] => Some d
  | CText _ :: l => walk d l
  | COpen _ :: l => walk (S d) l
  | CClose :: l => match d with
                   | O => None
                   | S d' => walk d' l
                   end
  end.

Definition depth (open : option string) : nat :=
  if isOpen open then 1 else 0.

(** ** Sample lines *)

(** [ESC[31mA ESC[32mB ESC[0mC]. *)
Definition nestedSample : string :=
  (sgrText "31" ++ "A " ++ sgrText "32" ++ "B " ++ sgrText "0" ++ "C")%string.

(** [ESC[31m]]. *)
Definition bracketSample : string := (sgrText "31" ++ "]")%string.

(** The payload of the [dsl-message] record shown in the README. *)
Definition readmeSample : string :=
  (sgrText "0" ++ "[ IMPLEMENTOR ] " ++ sgrText "0;31" ++ "[ "
   ++ sgrText "1;30" ++ "Chaos " ++ sgrText "0;31" ++ "]"
   ++ sgrText "0" ++ " Scorn. " ++ sgrText "0")%string.

(** [ESC[mText]: the reset escape written without a parameter. *)
Definition bareResetSample : string := String ESC "[mText".

(** [ESC[KText]: the control sequence that erases to the end of the line. *)
Definition eraseLineSample : string := String ESC "[KText".

End Ansi.

(* ================================================================== *)
(** * Data model *)
(* ================================================================== *)

Module Log.

(** [DamageEvent]; the fields [raw], [target] and [verbKey] are never
    read. *)
Record DamageEvent := {
  source : option string;
  amount : option Q       (* 0 => miss *)
}.

(** [DamageActorRow]; [totalAsTarget] and [countAsTarget] are never read. *)
Record DamageActorRow := {
  actor : option string;
  totalAsSource : option Q;
  countAsSource : option Z
}.

(** [DamagePayload]; [byTarget] is never read. *)
Record DamagePayload := {
  totalDamage : option Q;
  hits : option Z;
  misses : option Z;
  events : option (list DamageEvent);
  bySource : option (list DamageActorRow)
}.

(** [LogEntry], by its [type] tag: a ["dsl-message"] entry always carries
    the [message] that [parseLog] gave it, a ["damage"] entry the
    [payload] of its record, if the record had one. *)
Inductive LogEntry :=
| DslMessage (ts : Z) (message : string)
| Damage (ts : Z) (payload : option DamagePayload).

(** [e.ts.getTime()]. *)
Definition getTime (e : LogEntry) : Z :=
  match e with
  | DslMessage ts _ => ts
  | Damage ts _ => ts
  end.

End Log.

(* ================================================================== *)
(** * [Array.prototype.sort] *)
(* ================================================================== *)

Module JsSort.

Section Sort.
Context {A : Type}.

(** [after x y] is [compareFn(x, y) > 0]: [x] must come after [y]. *)
Variable after : A -> A -> bool.

(** [x] is put in front of a list it preceded in the array, and moves
    right only past the elements it must come after. *)
Fixpoint insert (x : A) (l : list A) : list A :=
  match l with
  | [] => [x]
  | y :: l' => if after x y then y :: insert x l' else x :: y :: l'
  end.

(** [Array.prototype.sort] orders by the comparator and is stable; for a
    consistent comparator that leaves one result, which insertion
    computes. *)
Definition sort (l : list A) : list A := fold_right insert [] l.

End Sort.

End JsSort.

(* ================================================================== *)
(** * The log parser ([parseLog]) *)
(* ================================================================== *)

Module Parse.

Import Log.

(** This module is the parser on well-formed records: what [JSON.parse]
    returns is never [null], every timestamp is a date and the payload of
    a narrative record is a string or missing, so that the parser returns
    a timeline of entries with their instants.  [RawParse] below is the
    parser on every record. *)

(** What the parser reads off the object [JSON.parse] returns: the [type]
    discriminator, the instant [new Date(obj.timestamp)] and [obj.payload]
    at the type the branch uses it at. *)
Inductive JsObj :=
| ObjDslMessage (timestamp : Z) (payload : option string)
| ObjDamage (timestamp : Z) (payload : option DamagePayload)
| ObjOther.

Definition isLF (c : ascii) : bool := Ascii.eqb c "010".
Definition isCR (c : ascii) : bool := Ascii.eqb c "013".

Definition consHead (c : ascii) (l : list string) : list string :=
  match l with
  | h :: r => String c h :: r
  | [] => [String c EmptyString]
  end.

(** [text.split(/\r?\n/)]. *)
Fixpoint splitLines (s : string) : list string :=
  match s with
  | EmptyString => [EmptyString]
  | String c t =>
      if isLF c then EmptyString :: splitLines t
      else match t with
           | String c2 t2 =>
               if isCR c && isLF c2 then EmptyString :: splitLines t2
               else consHead c (splitLines t)
           | EmptyString => [String c EmptyString]
           end
  end.

(** The comparator [(a, b) => a.ts.getTime() - b.ts.getTime()]. *)
Definition byTime (a b : LogEntry) : bool := (getTime a - getTime b >? 0)%Z.

(** The signature [`${e.ts.toISOString()}|${e.type}|${e.message}`] of a
    [dsl-message] entry.  The ISO text of an instant has no bar in it and
    differs for different instants, so two signatures are the same string
    exactly when instant and message agree: the pair stands for the
    string. *)
Definition Key : Type := Z * string.

Definition keyEqb (k1 k2 : Key) : bool :=
  Z.eqb (fst k1) (fst k2) && String.eqb (snd k1) (snd k2).

(** [seen.has(key)]. *)
Definition has (seen : list Key) (key : Key) : bool :=
  existsb (keyEqb key) seen.

(** The deduplication loop: [seen] is the set, the result is [out]. *)
Fixpoint dedupe (seen : list Key) (raw : list LogEntry) : list LogEntry :=
  match raw with
  | [] => []
  | e :: rest =>
      match e with
      | DslMessage ts message =>
          let key := (ts, message) in
          if has seen key then dedupe seen rest
          else e :: dedupe (key :: seen) rest
      | Damage _ _ => e :: dedupe seen rest
      end
  end.

(** Everything [parseLog] does after the lines are read. *)
Definition timelineOf (raw : list LogEntry) : list LogEntry :=
  dedupe [] (JsSort.sort byTime raw).

Section Parser.

(** [JSON.parse], together with the reading of [obj.type],
    [obj.timestamp] and [obj.payload]; [None] when it throws. *)
Variable JSON_parse : string -> option JsObj.

(** One turn of the loop over the lines: what it pushes on [raw]. *)
Definition readLine (line : string) : list LogEntry :=
  if Str.isBlank line then []
  else match JSON_parse line with
       | None => []
       | Some (ObjDslMessage timestamp payload) =>
           [DslMessage timestamp
              (match payload with Some s => s | None => EmptyString end)]
       | Some (ObjDamage timestamp payload) => [Damage timestamp payload]
       | Some ObjOther => []
       end.

Definition readLines (text : string) : list LogEntry :=
  flat_map readLine (splitLines text).

Definition parseLog (text : string) : list LogEntry :=
  timelineOf (readLines text).

End Parser.

(** ** The earlier revision of the deduplication

    Before the change that the comment on [parseLog] records, the pass
    also dropped a damage entry whose instant and rollups
    ([totalDamage], [hits], [misses]) had been seen.  A rollup that is
    [null] and one that is [undefined] are both [None] here, while the
    signature printed them apart: that revision dropped no more damage
    entries than this pass does. *)

Definition optQ_eqb (a b : option Q) : bool :=
  match a, b with
  | Some x, Some y => Qeq_bool x y
  | None, None => true
  | _, _ => false
  end.

Definition optZ_eqb (a b : option Z) : bool :=
  match a, b with
  | Some x, Some y => Z.eqb x y
  | None, None => true
  | _, _ => false
  end.

Definition RoundKey : Type := Z * (option Q * option Z * option Z).

Definition roundKeyOf (ts : Z) (payload : option DamagePayload) : RoundKey :=
  match payload with
  | Some p => (ts, (totalDamage p, hits p, misses p))
  | None => (ts, (None, None, None))
  end.

Definition roundKeyEqb (k1 k2 : RoundKey) : bool :=
  let '(t1, (d1, h1, m1)) := k1 in
  let '(t2, (d2, h2, m2)) := k2 in
  Z.eqb t1 t2 && optQ_eqb d1 d2 && optZ_eqb h1 h2 && optZ_eqb m1 m2.

Fixpoint dedupeEarlier (seen : list Key) (seenRounds : list RoundKey)
    (raw : list LogEntry) : list LogEntry :=
  match raw with
  | [] => []
  | e :: rest =>
      match e with
      | DslMessage ts message =>
          if has seen (ts, message) then dedupeEarlier seen seenRounds rest
          else e :: dedupeEarlier ((ts, message) :: seen) seenRounds rest
      | Damage ts payload =>
          let key := roundKeyOf ts payload in
          if existsb (roundKeyEqb key) seenRounds
          then dedupeEarlier seen seenRounds rest
          else e :: dedupeEarlier seen (key :: seenRounds) rest
      end
  end.

(** ** Vocabulary of the statements *)

Definition stampedAt (t : Z) (e : LogEntry) : bool := Z.eqb (getTime e) t.

Definition messageKeys (l : list LogEntry) : list Key :=
  flat_map (fun e => match e with
                     | DslMessage ts message => [(ts, message)]
                     | Damage _ _ => []
                     end) l.

Definition isDamage (e : LogEntry) : bool :=
  match e with
  | Damage _ _ => true
  | DslMessage _ _ => false
  end.

Definition damageRounds (l : list LogEntry) : list LogEntry :=
  filter isDamage l.

(** [l1] is [l2] with some entries left out. *)
Inductive subseq : list LogEntry -> list LogEntry -> Prop :=
| subseq_nil : subseq [] []
| subseq_keep (e : LogEntry) (l1 l2 : list LogEntry) :
    subseq l1 l2 -> subseq (e :: l1) (e :: l2)
| subseq_drop (e : LogEntry) (l1 l2 : list LogEntry) :
    subseq l1 l2 -> subseq l1 (e :: l2).

Definition timeLe (a b : LogEntry) : Prop := (getTime a <= getTime b)%Z.



Definition sampleRound : LogEntry :=
  Damage 1000
    (Some {| totalDamage := Some 12%Q; hits := Some 2%Z; misses := Some 0%Z;
             events := None; bySource := None |}).

End Parse.

(* ================================================================== *)
(** * The log parser on every record *)
(* ================================================================== *)

(** [Parse] above is the parser on records that are well formed.  This
    module is the parser on all that the lines of a file can hold: it
    has the exceptions that leave [parseLog] (the [TypeError] of
    [obj.type] on [null], the [TypeError] of an object with no primitive
    value where a date or a string is made of it, the [RangeError] of
    [toISOString] on an Invalid Date) and the entries whose date is an
    Invalid Date.  On well-formed records the two agree
    ([parseLog_well_formed] below). *)

Module RawParse.

Import Log.

(** The exceptions that leave [parseLog]. *)
Inductive Thrown :=
| TypeError    (* [obj.type] of [null]; an object that has no primitive
                  value where a date or a string is made of it *)
| RangeError.  (* [toISOString] of an Invalid Date *)

Inductive Outcome (A : Type) :=
| Returned (a : A)
| Threw (e : Thrown).

Arguments Returned {A} a.
Arguments Threw {A} e.

(** [new Date(obj.timestamp)].  A string, a number, a boolean, [null],
    a missing field, an array or an object with a primitive value gives
    a date, whose time is [None] when it is an Invalid Date.  An object
    whose own [toString] or [valueOf] leave it without a primitive
    value makes [new Date] throw a [TypeError]. *)
Inductive Timestamp :=
| DateOf (time : option Z)
| NoPrimitive.

(** [obj.payload] of a narrative record, by what the parser does with
    it: [??] tells [null] and a missing field from the rest, and the
    signature of the entry makes a string of it.  A payload that is no
    string is kept in the entry as it is; it stands here by the string
    that is made of it, and [NoString] is the object of which none is
    made: the template literal throws a [TypeError]. *)
Inductive Payload :=
| Nullish
| Printed (s : string)
| NoString.

(** What the parser reads off the value [JSON.parse] returns.  [null]
    is the one value of JSON on which reading [obj.type] throws. *)
Inductive JsValue :=
| ValNull
| ValDslMessage (timestamp : Timestamp) (payload : Payload)
| ValDamage (timestamp : Timestamp) (payload : option DamagePayload)
| ValOther.

(** An entry as [parseLog] makes it: [ts] may be an Invalid Date, and
    [message] is the string made of the message, [None] when none is
    made of it. *)
Inductive RawEntry :=
| RawMessage (ts : option Z) (message : option string)
| RawDamage (ts : option Z) (payload : option DamagePayload).

(** [obj.payload ?? <empty string>]. *)
Definition messageOf (payload : Payload) : option string :=
  match payload with
  | Nullish => Some EmptyString
  | Printed s => Some s
  | NoString => None
  end.

(** [e.ts.getTime()]; [None] is [NaN]. *)
Definition getTime (e : RawEntry) : option Z :=
  match e with
  | RawMessage ts _ => ts
  | RawDamage ts _ => ts
  end.

(** The comparator [(a, b) => a.ts.getTime() - b.ts.getTime()], as the
    sort reads it: a difference that is [NaN] counts as [0].  With an
    Invalid Date among the entries the comparator is not consistent and
    the order that the sort leaves is up to the engine; [JsSort.sort]
    then gives one of the orders it may leave. *)
Definition byTime (a b : RawEntry) : bool :=
  match getTime a, getTime b with
  | Some x, Some y => (x - y >? 0)%Z
  | _, _ => false
  end.

(** The deduplication loop.  The signature of a narrative entry is the
    template literal [`${e.ts.toISOString()}|${e.type}|${e.message}`]:
    [toISOString] throws on an Invalid Date, and after it the message
    that has no string throws. *)
Fixpoint dedupe (seen : list Parse.Key) (raw : list RawEntry)
  : Outcome (list RawEntry) :=
  match raw with
  | [] => Returned []
  | e :: rest =>
      match e with
      | RawMessage None _ => Threw RangeError
      | RawMessage (Some _) None => Threw TypeError
      | RawMessage (Some ts) (Some message) =>
          if Parse.has seen (ts, message) then dedupe seen rest
          else match dedupe ((ts, message) :: seen) rest with
               | Returned out => Returned (e :: out)
               | Threw x => Threw x
               end
      | RawDamage _ _ =>
          match dedupe seen rest with
          | Returned out => Returned (e :: out)
          | Threw x => Threw x
          end
      end
  end.

(** Everything [parseLog] does after the lines are read. *)
Definition timelineOf (raw : list RawEntry) : Outcome (list RawEntry) :=
  dedupe [] (JsSort.sort byTime raw).

Section Parser.

(** [JSON.parse], together with the reading of [obj.type],
    [obj.timestamp] and [obj.payload]; [None] when it throws, which the
    loop catches. *)
Variable JSON_parse : string -> option JsValue.

(** One turn of the loop over the lines.  [obj.type] is read outside
    the [try], and so are the dates made. *)
Definition readLine (line : string) : Outcome (list RawEntry) :=
  if Str.isBlank line then Returned []
  else match JSON_parse line with
       | None => Returned []
       | Some ValNull => Threw TypeError
       | Some (ValDslMessage NoPrimitive _) => Threw TypeError
       | Some (ValDslMessage (DateOf ts) payload) =>
           Returned [RawMessage ts (messageOf payload)]
       | Some (ValDamage NoPrimitive _) => Threw TypeError
       | Some (ValDamage (DateOf ts) payload) =>
           Returned [RawDamage ts payload]
       | Some ValOther => Returned []
       end.

(** The loop over the lines: it ends at the first line that throws. *)
Fixpoint readAll (lines : list string) : Outcome (list RawEntry) :=
  match lines with
  | [] => Returned []
  | line :: rest =>
      match readLine line with
      | Threw x => Threw x
      | Returned pushed =>
          match readAll rest with
          | Returned more => Returned (pushed ++ more)
          | Threw x => Threw x
          end
      end
  end.

Definition readLines (text : string) : Outcome (list RawEntry) :=
  readAll (Parse.splitLines text).

Definition parseLog (text : string) : Outcome (list RawEntry) :=
  match readLines text with
  | Returned raw => timelineOf raw
  | Threw x => Threw x
  end.

(** A line that is not blank and on whose value the loop over the
    lines throws: [null], or a narrative or damage record whose
    timestamp has no primitive value. *)
Definition unreadable (line : string) : Prop :=
  Str.isBlank line = false
  /\ (JSON_parse line = Some ValNull
      \/ (exists payload,
             JSON_parse line = Some (ValDslMessage NoPrimitive payload))
      \/ (exists payload,
             JSON_parse line = Some (ValDamage NoPrimitive payload))).

(** A line that is not blank and whose record makes the entry [e]. *)
Definition gives (line : string) (e : RawEntry) : Prop :=
  Str.isBlank line = false
  /\ ((exists ts payload,
          JSON_parse line = Some (ValDslMessage (DateOf ts) payload)
          /\ e = RawMessage ts (messageOf payload))
      \/ (exists ts payload,
             JSON_parse line = Some (ValDamage (DateOf ts) payload)
             /\ e = RawDamage ts payload)).

End Parser.

(** ** Well-formed records *)

(** An entry of [Parse] as an entry of this module, and back. *)
Definition ofEntry (e : LogEntry) : RawEntry :=
  match e with
  | DslMessage ts message => RawMessage (Some ts) (Some message)
  | Damage ts payload => RawDamage (Some ts) payload
  end.

Definition ofPayload (payload : option string) : Payload :=
  match payload with
  | Some s => Printed s
  | None => Nullish
  end.

Definition ofObj (obj : Parse.JsObj) : JsValue :=
  match obj with
  | Parse.ObjDslMessage ts payload =>
      ValDslMessage (DateOf (Some ts)) (ofPayload payload)
  | Parse.ObjDamage ts payload => ValDamage (DateOf (Some ts)) payload
  | Parse.ObjOther => ValOther
  end.

Definition ofParser (parse : string -> option Parse.JsObj) (line : string)
  : option JsValue :=
  option_map ofObj (parse line).

(** The entry with its instant and the string of its message, when its
    date is a date and its message has a string. *)
Definition instant (e : RawEntry) : option LogEntry :=
  match e with
  | RawMessage (Some ts) (Some message) => Some (DslMessage ts message)
  | RawDamage (Some ts) payload => Some (Damage ts payload)
  | _ => None
  end.

(** The entries with their instants, when every entry has one. *)
Fixpoint instants (raw : list RawEntry) : option (list LogEntry) :=
  match raw with
  | [] => Some []
  | e :: rest =>
      match instant e, instants rest with
      | Some x, Some xs => Some (x :: xs)
      | _, _ => None
      end
  end.

(** ** Vocabulary of the statements *)

(** [a.ts <= b.ts] on the numbers [getTime] returns: false with [NaN]. *)
Definition timeLe (a b : RawEntry) : Prop :=
  match getTime a, getTime b with
  | Some x, Some y => (x <= y)%Z
  | _, _ => False
  end.

(** A narrative entry whose date is an Invalid Date. *)
Definition undatedMessage (e : RawEntry) : bool :=
  match e with
  | RawMessage None _ => true
  | _ => false
  end.

(** An entry whose date is a date. *)
Definition dated (e : RawEntry) : bool :=
  match getTime e with
  | Some _ => true
  | None => false
  end.

(** A narrative entry with a date whose message has no string. *)
Definition unprintedMessage (e : RawEntry) : bool :=
  match e with
  | RawMessage (Some _) None => true
  | _ => false
  end.

(** ** Sample lines *)

Definition quote : string := String "034" EmptyString.

Definition lineFeed : string := String "010" EmptyString.

(** A damage record, as a line of JSON, with the given text for its
    timestamp. *)
Definition damageLine (timestamp : string) : string :=
  ("{" ++ quote ++ "type" ++ quote ++ ":" ++ quote ++ "damage" ++ quote
   ++ "," ++ quote ++ "timestamp" ++ quote ++ ":" ++ quote ++ timestamp
   ++ quote ++ "," ++ quote ++ "payload" ++ quote ++ ":{" ++ quote
   ++ "totalDamage" ++ quote ++ ":12," ++ quote ++ "hits" ++ quote ++ ":2,"
   ++ quote ++ "misses" ++ quote ++ ":0}}")%string.

(** A narrative record, as a line of JSON. *)
Definition messageLine (timestamp : string) : string :=
  ("{" ++ quote ++ "type" ++ quote ++ ":" ++ quote ++ "dsl-message" ++ quote
   ++ "," ++ quote ++ "timestamp" ++ quote ++ ":" ++ quote ++ timestamp
   ++ quote ++ "," ++ quote ++ "payload" ++ quote ++ ":" ++ quote
   ++ "You hit." ++ quote ++ "}")%string.

(** A narrative record whose payload is an object with no primitive
    value: its own [toString] is a number. *)
Definition unprintedLine (timestamp : string) : string :=
  ("{" ++ quote ++ "type" ++ quote ++ ":" ++ quote ++ "dsl-message" ++ quote
   ++ "," ++ quote ++ "timestamp" ++ quote ++ ":" ++ quote ++ timestamp
   ++ quote ++ "," ++ quote ++ "payload" ++ quote ++ ":{" ++ quote
   ++ "toString" ++ quote ++ ":1}}")%string.

(** A damage record whose timestamp is such an object. *)
Definition undatableLine : string :=
  ("{" ++ quote ++ "type" ++ quote ++ ":" ++ quote ++ "damage" ++ quote
   ++ "," ++ quote ++ "timestamp" ++ quote ++ ":{" ++ quote ++ "toString"
   ++ quote ++ ":1}}")%string.

(** One second after the epoch, and a text that is no date. *)
Definition oneSecond : string := "1970-01-01T00:00:01.000Z".
Definition noDate : string := "soon".

Definition samplePayload : DamagePayload :=
  {| totalDamage := Some 12%Q; hits := Some 2%Z; misses := Some 0%Z;
     events := None; bySource := None |}.

(** [JSON.parse] and the reading of the fields on the lines of the
    samples; the samples hold no other line. *)
Definition sampleParse (line : string) : option JsValue :=
  if String.eqb line (damageLine oneSecond)
  then Some (ValDamage (DateOf (Some 1000%Z)) (Some samplePayload))
  else if String.eqb line (damageLine noDate)
  then Some (ValDamage (DateOf None) (Some samplePayload))
  else if String.eqb line (messageLine oneSecond)
  then Some (ValDslMessage (DateOf (Some 1000%Z)) (Printed "You hit."))
  else if String.eqb line (messageLine noDate)
  then Some (ValDslMessage (DateOf None) (Printed "You hit."))
  else if String.eqb line (unprintedLine oneSecond)
  then Some (ValDslMessage (DateOf (Some 1000%Z)) NoString)
  else if String.eqb line (unprintedLine noDate)
  then Some (ValDslMessage (DateOf None) NoString)
  else if String.eqb line undatableLine
  then Some (ValDamage NoPrimitive None)
  else if String.eqb line "null"
  then Some ValNull
  else None.

(** A file of two well-formed records. *)
Definition datedText : string :=
  (damageLine oneSecond ++ lineFeed ++ messageLine oneSecond)%string.

(** A file whose first damage record has no date. *)
Definition undatedText : string :=
  (damageLine noDate ++ lineFeed ++ damageLine oneSecond)%string.

End RawParse.

(* ================================================================== *)
(** * The fight accumulator *)
(* ================================================================== *)

Module Fight.

Import Log.

Definition FIVE_MIN_MS : Z := 5 * 60 * 1000.

(** ** JavaScript operators on optional fields *)

(** [x || 0] on a number. *)
Definition orZeroQ (o : option Q) : Q :=
  match o with Some x => x | None => 0 end.

Definition orZeroZ (o : option Z) : Z :=
  match o with Some x => x | None => 0%Z end.

(** [s || <empty string>] on a string. *)
Definition orEmpty (o : option string) : string :=
  match o with Some s => s | None => EmptyString end.

(** [!!(l && l.length)], which is also the truth of [l?.length]. *)
Definition hasItems {A} (o : option (list A)) : bool :=
  match o with Some (_ :: _) => true | _ => false end.

Definition itemsOf {A} (o : option (list A)) : list A :=
  match o with Some l => l | None => [] end.

(** [x < y] on numbers. *)
Definition Qltb (x y : Q) : bool := negb (Qle_bool y x).

(** ** [normalizeActor] *)

Fixpoint skipSpaces (s : string) : string :=
  match s with
  | EmptyString => EmptyString
  | String c t => if Str.isSpace c then skipSpaces t else s
  end.

(** [[^\]]*]] at the start of [s]: the text after the first closing
    bracket, if there is one. *)
Fixpoint afterBracket (s : string) : option string :=
  match s with
  | EmptyString => None
  | String c t => if Ascii.eqb c "]" then Some t else afterBracket t
  end.

(** [name.replace(/^\s*\[[^\]]*]\s*/, <empty string>)]: the first leading
    bracketed prefix is stripped, if present. *)
Definition normalizeActor (name : string) : string :=
  match skipSpaces name with
  | String c t =>
      if Ascii.eqb c "[" then
        match afterBracket t with
        | Some r => skipSpaces r
        | None => name
        end
      else name
  | EmptyString => name
  end.

(** ** [fmt1] *)

(** [Math.round(n * 10)]: the number of tenths, halves rounded up. *)
Definition tenths (n : Q) : Z := Qfloor (n * 10 + (1 # 2)).

(** [fmt1]: one decimal, a trailing [.0] dropped. *)
Definition fmt1 (n : Q) : string :=
  let t := tenths n in
  if (t mod 10 =? 0)%Z then Str.ofZ (t / 10)
  else ((if (t <? 0)%Z then "-" else EmptyString)
        ++ Str.ofZ (Z.abs t / 10) ++ "." ++ Str.ofZ (Z.abs t mod 10))%string.

(** ** The accumulator *)

(** [PerActor], also the shape of [totalsRef.current]. *)
Record PerActor := {
  damage : Q;
  hits : Z;
  misses : Z
}.

Definition zero : PerActor := {| damage := 0; hits := 0; misses := 0 |}.

(** A [Map<string, PerActor>]: the keys in insertion order. *)
Definition ActorMap : Type := list (string * PerActor).

(** [map.get(name)]. *)
Fixpoint mapGet (map : ActorMap) (name : string) : option PerActor :=
  match map with
  | [] => None
  | (k, v) :: rest => if String.eqb k name then Some v else mapGet rest name
  end.

(** [map.set(name, cur)]: an existing key keeps its place. *)
Fixpoint mapSet (map : ActorMap) (name : string) (cur : PerActor) : ActorMap :=
  match map with
  | [] => [(name, cur)]
  | (k, v) :: rest =>
      if String.eqb k name then (k, cur) :: rest
      else (k, v) :: mapSet rest name cur
  end.

(** [map.get(name) ?? { damage: 0, hits: 0, misses: 0 }]. *)
Definition getOrZero (map : ActorMap) (name : string) : PerActor :=
  match mapGet map name with Some v => v | None => zero end.

(** [ev.amount > 0], also [(ev.amount ?? 0) > 0]. *)
Definition isHit (ev : DamageEvent) : bool :=
  match amount ev with Some a => Qltb 0 a | None => false end.

(** [(ev.amount ?? 0) === 0]. *)
Definition isMiss (ev : DamageEvent) : bool :=
  match amount ev with Some a => Qeq_bool a 0 | None => true end.

Definition sourceName (ev : DamageEvent) : string :=
  normalizeActor (orEmpty (source ev)).

Definition actorName (row : DamageActorRow) : string :=
  normalizeActor (orEmpty (actor row)).

(** The body of the loop over [p.bySource]. *)
Definition addRow (map : ActorMap) (row : DamageActorRow) : ActorMap :=
  let name := actorName row in
  let cur := getOrZero map name in
  mapSet map name
    {| damage := damage cur + orZeroQ (totalAsSource row);
       hits := hits cur + orZeroZ (countAsSource row);
       misses := misses cur |}.

(** The body of the loop over [p.events] that counts the hits. *)
Definition addHit (map : ActorMap) (ev : DamageEvent) : ActorMap :=
  let name := sourceName ev in
  let cur := getOrZero map name in
  mapSet map name
    (if isHit ev
     then {| damage := damage cur + orZeroQ (amount ev);
             hits := hits cur + 1;
             misses := misses cur |}
     else cur).

(** The body of the loop over [p.events] that counts the misses. *)
Definition addMiss (map : ActorMap) (ev : DamageEvent) : ActorMap :=
  if isMiss ev then
    let name := sourceName ev in
    let cur := getOrZero map name in
    mapSet map name
      {| damage := damage cur; hits := hits cur; misses := misses cur + 1 |}
  else map.

(** [addRoundToActors], on the map of [byActorRef]. *)
Definition addRoundToActors (p : DamagePayload) (map : ActorMap) : ActorMap :=
  let map1 :=
    if hasItems (bySource p) then fold_left addRow (itemsOf (bySource p)) map
    else if hasItems (events p) then fold_left addHit (itemsOf (events p)) map
    else map in
  if hasItems (events p) then fold_left addMiss (itemsOf (events p)) map1
  else map1.

(** The body of the loop over [p.events] in [addRoundToTotals]. *)
Definition addHitTotal (t : PerActor) (ev : DamageEvent) : PerActor :=
  if isHit ev
  then {| damage := damage t + orZeroQ (amount ev);
          hits := hits t + 1;
          misses := misses t |}
  else t.

(** [addRoundToTotals], on the object of [totalsRef]. *)
Definition addRoundToTotals (p : DamagePayload) (t : PerActor) : PerActor :=
  let t1 :=
    if hasItems (bySource p) then
      {| damage := damage t
                   + fold_left (fun s r => s + orZeroQ (totalAsSource r))
                       (itemsOf (bySource p)) 0;
         hits := hits t
                 + fold_left (fun s r => (s + orZeroZ (countAsSource r))%Z)
                     (itemsOf (bySource p)) 0%Z;
         misses := misses t |}
    else if hasItems (events p) then
      fold_left addHitTotal (itemsOf (events p)) t
    else
      {| damage := damage t + orZeroQ (totalDamage p);
         hits := hits t + orZeroZ (Log.hits p);
         misses := misses t |} in
  if hasItems (events p) then
    {| damage := damage t1; hits := hits t1;
       misses := misses t1
                 + Z.of_nat (List.length (filter isMiss (itemsOf (events p)))) |}
  else
    match Log.misses p with
    | Some m => {| damage := damage t1; hits := hits t1;
                   misses := misses t1 + m |}
    | None => t1
    end.

(** [addRoundToTotals] of the earlier revision, which took the round's
    own rollups whatever its rows and events said. *)
Definition addRoundToTotalsEarlier (p : DamagePayload) (t : PerActor)
  : PerActor :=
  {| damage := damage t + orZeroQ (totalDamage p);
     hits := hits t + orZeroZ (Log.hits p);
     misses := misses t
               + match Log.misses p with
                 | Some m => m
                 | None => Z.of_nat (List.length
                                       (filter isMiss (itemsOf (events p))))
                 end |}.

(** The body of the loop over [p.events] in [buildRoundPerSourceLines]. *)
Definition addEventLine (hasBySource : bool) (per : ActorMap)
    (ev : DamageEvent) : ActorMap :=
  let name := sourceName ev in
  let cur := getOrZero per name in
  let cur1 :=
    if negb hasBySource && isHit ev
    then {| damage := damage cur + orZeroQ (amount ev);
            hits := hits cur + 1;
            misses := misses cur |}
    else cur in
  let cur2 :=
    if isMiss ev
    then {| damage := damage cur1; hits := hits cur1;
            misses := misses cur1 + 1 |}
    else cur1 in
  mapSet per name cur2.

(** The map [per] that [buildRoundPerSourceLines] builds. *)
Definition roundPerSource (p : DamagePayload) : ActorMap :=
  let hasBySource := hasItems (bySource p) in
  let per1 :=
    if hasBySource then fold_left addRow (itemsOf (bySource p)) [] else [] in
  if hasItems (events p)
  then fold_left (addEventLine hasBySource) (itemsOf (events p)) per1
  else per1.

(** The comparator of the per-round lines:
    [b[1].damage - a[1].damage || b[1].hits - a[1].hits]. *)
Definition byDamageThenHits (a b : string * PerActor) : bool :=
  if Qeq_bool (damage (snd b) - damage (snd a)) 0
  then (hits (snd b) - hits (snd a) >? 0)%Z
  else Qltb 0 (damage (snd b) - damage (snd a)).

(** The comparator of the summary lines: [b[1].damage - a[1].damage]. *)
Definition byDamage (a b : string * PerActor) : bool :=
  Qltb 0 (damage (snd b) - damage (snd a)).

(** [buildRoundPerSourceLines]: the actor and figures of each line. *)
Definition buildRoundPerSourceLines (p : DamagePayload)
  : list (string * PerActor) :=
  JsSort.sort byDamageThenHits (roundPerSource p).

(** ** Vocabulary of the statements *)

Definition sumQ (l : list Q) : Q := fold_right Qplus 0 l.
Definition sumZ (l : list Z) : Z := fold_right Z.add 0%Z l.
Definition count {A} (f : A -> bool) (l : list A) : Z :=
  Z.of_nat (List.length (filter f l)).

(** Componentwise equality and sum of figures. *)
Definition aggEq (a b : PerActor) : Prop :=
  damage a == damage b /\ hits a = hits b /\ misses a = misses b.

Definition aggPlus (a b : PerActor) : PerActor :=
  {| damage := damage a + damage b;
     hits := hits a + hits b;
     misses := misses a + misses b |}.

Definition sumAgg (l : list PerActor) : PerActor := fold_right aggPlus zero l.

(** The sum of the damages held in the map. *)
Definition sumDamage (map : ActorMap) : Q :=
  sumQ (List.map (fun kv => damage (snd kv)) map).

(** Sums over [bySource] rows and over events. *)
Definition rowsDamage (rows : list DamageActorRow) : Q :=
  sumQ (map (fun r => orZeroQ (totalAsSource r)) rows).

Definition rowsHits (rows : list DamageActorRow) : Z :=
  sumZ (map (fun r => orZeroZ (countAsSource r)) rows).

Definition eventsDamage (evs : list DamageEvent) : Q :=
  sumQ (map (fun ev => orZeroQ (amount ev)) (filter isHit evs)).

Definition eventsHits (evs : list DamageEvent) : Z := count isHit evs.

Definition eventsMisses (evs : list DamageEvent) : Z := count isMiss evs.

(** The figures of a round by the precedence of the design document,
    over the rows and events given: [bySource] when the round has rows,
    else the events that hit; misses from the events. *)
Definition derived (p : DamagePayload) (rows : list DamageActorRow)
    (evs : list DamageEvent) : PerActor :=
  {| damage := if hasItems (bySource p) then rowsDamage rows
               else eventsDamage evs;
     hits := if hasItems (bySource p) then rowsHits rows
             else eventsHits evs;
     misses := eventsMisses evs |}.

(** The figures of one actor: the precedence over the actor's own rows
    and events. *)
Definition actorFigures (p : DamagePayload) (name : string) : PerActor :=
  derived p
    (filter (fun r => String.eqb (actorName r) name) (itemsOf (bySource p)))
    (filter (fun ev => String.eqb (sourceName ev) name) (itemsOf (events p))).

(** The miss count of a round: the events that missed when there are
    events, else the round's own [misses]. *)
Definition roundMisses (p : DamagePayload) : Z :=
  if hasItems (events p) then eventsMisses (itemsOf (events p))
  else orZeroZ (Log.misses p).

(** The totals of a round as the design document words them. *)
Definition statedTotals (p : DamagePayload) : PerActor :=
  {| damage := damage (derived p (itemsOf (bySource p)) (itemsOf (events p)));
     hits := hits (derived p (itemsOf (bySource p)) (itemsOf (events p)));
     misses := roundMisses p |}.

(** The totals of a round as [addRoundToTotals] takes them: as worded
    when the round has rows or events, else the round's own
    [totalDamage] and [hits]. *)
Definition roundTotals (p : DamagePayload) : PerActor :=
  if hasItems (bySource p) || hasItems (events p) then statedTotals p
  else {| damage := orZeroQ (totalDamage p);
          hits := orZeroZ (Log.hits p);
          misses := roundMisses p |}.

(** What one row or one event adds to the figures of its actor. *)
Definition rowShare (r : DamageActorRow) : PerActor :=
  {| damage := orZeroQ (totalAsSource r);
     hits := orZeroZ (countAsSource r);
     misses := 0 |}.

Definition hitShare (ev : DamageEvent) : PerActor :=
  if isHit ev
  then {| damage := orZeroQ (amount ev); hits := 1; misses := 0 |}
  else zero.

Definition missShare (ev : DamageEvent) : PerActor :=
  if isMiss ev then {| damage := 0; hits := 0; misses := 1 |} else zero.

Definition lineShare (hasBySource : bool) (ev : DamageEvent) : PerActor :=
  aggPlus (if hasBySource then zero else hitShare ev) (missShare ev).

(** A round whose totals rest on the same rows or events as its
    per-actor figures: it has rows or events, or reports no damage of its
    own. *)
Definition attributable (p : DamagePayload) : bool :=
  hasItems (bySource p) || hasItems (events p)
  || Qeq_bool (orZeroQ (totalDamage p)) 0.

(** A round that has only its own rollups. *)
Definition rollupRound : DamagePayload :=
  {| totalDamage := Some 10; Log.hits := Some 2%Z; Log.misses := Some 0%Z;
     events := None; bySource := None |}.

(** A round whose rollup differs from its rows. *)
Definition mismatchedRound : DamagePayload :=
  {| totalDamage := Some 99; Log.hits := Some 9%Z; Log.misses := Some 0%Z;
     events := None;
     bySource := Some [ {| actor := Some "[Clan] Rogar"%string;
                           totalAsSource := Some 10;
                           countAsSource := Some 1%Z |} ] |}.

End Fight.

(* ================================================================== *)
(** * Actor names as code units *)
(* ================================================================== *)

(** [Fight.normalizeActor] reads a name as a [string], whose characters
    are the code units below 256.  Here the name is the sequence of its
    UTF-16 code units, whatever they are, and the white space is all of
    the class [\s]. *)

Module CodeUnits.

Definition Text : Type := list N.

Definition ofString (s : string) : Text :=
  List.map N_of_ascii (list_ascii_of_string s).

(** The class [\s] of a regular expression without the [u] flag: the
    white space and the line terminators of the language, which are tab
    to carriage return, space, no-break space, U+1680, U+2000 to U+200A,
    U+2028, U+2029, U+202F, U+205F, U+3000 and U+FEFF. *)
Definition isSpace (u : N) : bool :=
  (((9 <=? u) && (u <=? 13)) || (u =? 32) || (u =? 160) || (u =? 5760)
   || ((8192 <=? u) && (u <=? 8202)) || (u =? 8232) || (u =? 8233)
   || (u =? 8239) || (u =? 8287) || (u =? 12288) || (u =? 65279))%N.

Definition openBracket : N := 91%N.
Definition closeBracket : N := 93%N.

Fixpoint skipSpaces (s : Text) : Text :=
  match s with
  | [] => []
  | u :: t => if isSpace u then skipSpaces t else s
  end.

(** [[^\]]*]] at the start of [s]: the text after the first closing
    bracket, if there is one. *)
Fixpoint afterBracket (s : Text) : option Text :=
  match s with
  | [] => None
  | u :: t => if (u =? closeBracket)%N then Some t else afterBracket t
  end.

(** [name.replace(/^\s*\[[^\]]*]\s*/, <empty string>)]. *)
Definition normalizeActor (name : Text) : Text :=
  match skipSpaces name with
  | u :: t =>
      if (u =? openBracket)%N then
        match afterBracket t with
        | Some r => skipSpaces r
        | None => name
        end
      else name
  | [] => name
  end.

(** ** Vocabulary of the statements *)

(** The text holds no closing bracket. *)
Definition noClosing (s : Text) : bool :=
  forallb (fun u => negb (u =? closeBracket)%N) s.

(** The text does not start with white space. *)
Definition startsFlush (s : Text) : bool :=
  match s with
  | [] => true
  | u :: _ => negb (isSpace u)
  end.

(** An em space, U+2003. *)
Definition emSpace : N := 8195%N.

End CodeUnits.

(* ================================================================== *)
(** * The playback effect *)
(* ================================================================== *)

Module Playback.

Import Log.
Import Fight.

(** A line handed to [term.current?.writeln], by the template that
    builds it and the values the template prints; the damage figures of
    the row and summary lines are printed through [fmt1]. *)
Inductive Line :=
| LText (text : string)
    (* a narrative line *)
| LRoundHeader (total : option Q) (hits misses : option Z)
    (* Damage Round: total=.., hits=.., misses=.. *)
| LBySource
    (* By source: *)
| LRoundRow (actor : string) (agg : PerActor)
    (* actor: fmt1(damage) dmg, hits hits, misses misses *)
| LSummaryHeader (t : PerActor)
    (* Fight summary: totalDamage=fmt1(damage), hits=.., misses=.. *)
| LSummaryRow (actor : string) (agg : PerActor)
    (* actor: fmt1(damage) dmg, hits hits, misses misses *)
| LBlank.

(** The refs of the component that the effect reads and writes. *)
Record State := {
  lastIndex : nat;                  (* lastIndexRef *)
  lastDamageTs : option Z;          (* lastDamageTsRef *)
  nextFlushDeadline : option Z;     (* nextFlushDeadlineRef *)
  fightFlushedByTimer : bool;       (* fightFlushedByTimerRef *)
  byActor : ActorMap;               (* byActorRef *)
  totals : PerActor;                (* totalsRef *)
  flushedFinal : bool               (* flushedFinalRef *)
}.

(** The refs after the reset that follows a new [entries]. *)
Definition initial : State :=
  {| lastIndex := 0; lastDamageTs := None; nextFlushDeadline := None;
     fightFlushedByTimer := false; byActor := []; totals := zero;
     flushedFinal := false |}.

(** [map.size > 0 || t.damage > 0 || t.hits > 0 || t.misses > 0]: the
    test that guards every call of [flushFightSummary]. *)
Definition fightOpen (st : State) : bool :=
  negb (Nat.eqb (List.length (byActor st)) 0)
  || Qltb 0 (damage (totals st))
  || (0 <? hits (totals st))%Z
  || (0 <? misses (totals st))%Z.

(** [map.size === 0 && t.damage === 0 && t.hits === 0 && t.misses === 0]:
    the test on which [flushFightSummary] returns at once. *)
Definition fightEmpty (st : State) : bool :=
  Nat.eqb (List.length (byActor st)) 0
  && Qeq_bool (damage (totals st)) 0
  && (hits (totals st) =? 0)%Z
  && (misses (totals st) =? 0)%Z.

(** The lines of one summary. *)
Definition summaryLines (st : State) : list Line :=
  LSummaryHeader (totals st)
  :: map (fun row => LSummaryRow (fst row) (snd row))
       (JsSort.sort byDamage (byActor st))
  ++ [LBlank].

(** [flushFightSummary]. *)
Definition flushFightSummary (st : State) : State * list Line :=
  if fightEmpty st then (st, [])
  else
    ({| lastIndex := lastIndex st;
        lastDamageTs := None;
        nextFlushDeadline := None;
        fightFlushedByTimer := true;
        byActor := [];
        totals := zero;
        flushedFinal := flushedFinal st |},
     summaryLines st).

(** The gap test in front of a damage round. *)
Definition gapReached (st : State) (curTs : Z) : bool :=
  match lastDamageTs st with
  | Some last => (curTs - last >=? FIVE_MIN_MS)%Z
  | None => false
  end.

(** The header and the per-source lines of a round. *)
Definition roundLines (p : DamagePayload) : list Line :=
  LRoundHeader (totalDamage p) (Log.hits p) (Log.misses p)
  :: match buildRoundPerSourceLines p with
     | [] => []
     | lines => LBySource :: map (fun l => LRoundRow (fst l) (snd l)) lines
     end.

(** The body of the loop over the newly visible entries. *)
Definition processEntry (entry : LogEntry) (st : State) : State * list Line :=
  match entry with
  | DslMessage _ message =>
      (st, [LText (if (0 <? String.length message)%nat then message else " ")])
  | Damage curTs (Some p) =>
      let '(st1, flushed) :=
        if gapReached st curTs && fightOpen st
        then flushFightSummary st else (st, []) in
      ({| lastIndex := lastIndex st1;
          lastDamageTs := Some curTs;
          nextFlushDeadline := Some (curTs + FIVE_MIN_MS)%Z;
          fightFlushedByTimer := false;
          byActor := addRoundToActors p (byActor st1);
          totals := addRoundToTotals p (totals st1);
          flushedFinal := flushedFinal st1 |},
       flushed ++ roundLines p ++ [LBlank; LBlank])
  | Damage _ None => (st, [])
  end.

(** [for (let i = from; i < from + count; i++)] over [entries[i]]; the
    effect only runs it with [from + count <= entries.length]. *)
Fixpoint emitLoop (entries : list LogEntry) (count i : nat) (st : State)
  : State * list Line :=
  match count with
  | O => (st, [])
  | S count' =>
      match nth_error entries i with
      | Some entry =>
          let '(st1, out1) := processEntry entry st in
          let '(st2, out2) := emitLoop entries count' (S i) st1 in
          (st2, out1 ++ out2)
      | None => (st, [])
      end
  end.

(** [base + time * 1000], [time] in seconds. *)
Definition cutoffOf (entries : list LogEntry) (time : Q) : Q :=
  match entries with
  | [] => 0
  | first :: _ => inject_Z (getTime first) + time * 1000
  end.

(** [entries.findIndex((e) => e.ts.getTime() > cutoff)], with the
    fallback to [entries.length] that makes it [end]. *)
Fixpoint visibleEnd (entries : list LogEntry) (cutoff : Q) : nat :=
  match entries with
  | [] => 0
  | e :: rest =>
      if Qltb cutoff (inject_Z (getTime e)) then 0
      else S (visibleEnd rest cutoff)
  end.

Definition setLastIndex (st : State) (i : nat) : State :=
  {| lastIndex := i;
     lastDamageTs := lastDamageTs st;
     nextFlushDeadline := nextFlushDeadline st;
     fightFlushedByTimer := fightFlushedByTimer st;
     byActor := byActor st;
     totals := totals st;
     flushedFinal := flushedFinal st |}.

Definition setFlushedFinal (st : State) (b : bool) : State :=
  {| lastIndex := lastIndex st;
     lastDamageTs := lastDamageTs st;
     nextFlushDeadline := nextFlushDeadline st;
     fightFlushedByTimer := fightFlushedByTimer st;
     byActor := byActor st;
     totals := totals st;
     flushedFinal := b |}.

(** Step 1 of the effect: the loop, then [lastIndexRef.current = end]. *)
Definition emitNew (entries : list LogEntry) (endIdx : nat) (st : State)
  : State * list Line :=
  let '(st1, out) :=
    emitLoop entries (endIdx - lastIndex st) (lastIndex st) st in
  (setLastIndex st1 endIdx, out).

(** Step 2: the time-based flush. *)
Definition timerFlush (cutoff : Q) (st : State) : State * list Line :=
  match nextFlushDeadline st with
  | Some deadline =>
      if Qle_bool (inject_Z deadline) cutoff
         && negb (fightFlushedByTimer st)
         && fightOpen st
      then flushFightSummary st
      else (st, [])
  | None => (st, [])
  end.

(** Step 3: the end-of-log flush and the upkeep of [flushedFinalRef]. *)
Definition finalFlush (entries : list LogEntry) (endIdx : nat) (st : State)
  : State * list Line :=
  if Nat.eqb endIdx (List.length entries) then
    if negb (flushedFinal st) then
      let '(st1, out) :=
        if fightOpen st then flushFightSummary st else (st, []) in
      (setFlushedFinal st1 true, out)
    else (st, [])
  else (setFlushedFinal st false, []).

(** Steps 2 and 3, which follow the loop. *)
Definition afterLoop (entries : list LogEntry) (cutoff : Q) (endIdx : nat)
    (st : State) : State * list Line :=
  let '(st1, out1) := timerFlush cutoff st in
  let '(st2, out2) := finalFlush entries endIdx st1 in
  (st2, out1 ++ out2).

(** The playback effect, run by React whenever [time] or [entries]
    changes. *)
Definition playbackEffect (entries : list LogEntry) (time : Q) (st : State)
  : State * list Line :=
  match entries with
  | [] => (st, [])
  | _ :: _ =>
      let cutoff := cutoffOf entries time in
      let endIdx := visibleEnd entries cutoff in
      let '(st1, out1) := emitNew entries endIdx st in
      let '(st2, out2) := afterLoop entries cutoff endIdx st1 in
      (st2, out1 ++ out2)
  end.

(** ** Vocabulary of the statements *)

(** The loop body run over a list of entries, one after the other. *)
Fixpoint processAll (entries : list LogEntry) (st : State)
  : State * list Line :=
  match entries with
  | [] => (st, [])
  | entry :: rest =>
      let '(st1, out1) := processEntry entry st in
      let '(st2, out2) := processAll rest st1 in
      (st2, out1 ++ out2)
  end.

(** [entries.slice(from, to)]. *)
Definition slice (entries : list LogEntry) (from to : nat) : list LogEntry :=
  firstn (to - from) (skipn from entries).

Definition isSummaryHeader (l : Line) : bool :=
  match l with LSummaryHeader _ => true | _ => false end.

Definition isRoundHeader (l : Line) : bool :=
  match l with LRoundHeader _ _ _ => true | _ => false end.

(** The number of fight summaries among the lines. *)
Definition summaries (out : list Line) : nat :=
  List.length (filter isSummaryHeader out).

(** The number of damage rounds among the lines. *)
Definition roundHeaders (out : list Line) : nat :=
  List.length (filter isRoundHeader out).

(** The lines start with a fight summary. *)
Definition flushedFirst (out : list Line) : bool :=
  match out with
  | l :: _ => isSummaryHeader l
  | [] => false
  end.

(** The total damages and the per-actor damages that summary lines
    report. *)
Definition headerDamages (out : list Line) : list Q :=
  flat_map (fun l => match l with
                     | LSummaryHeader t => [damage t]
                     | _ => []
                     end) out.

Definition rowDamages (out : list Line) : list Q :=
  flat_map (fun l => match l with
                     | LSummaryRow _ agg => [damage agg]
                     | _ => []
                     end) out.

(** A damage entry that carries a payload. *)
Definition isRound (e : LogEntry) : bool :=
  match e with
  | Damage _ (Some _) => true
  | _ => false
  end.

(** Damage rounds, as instant and payload, and their entries. *)
Definition Round : Type := Z * DamagePayload.

Definition roundEntries (rounds : list Round) : list LogEntry :=
  map (fun r => Damage (fst r) (Some (snd r))) rounds.

(** No round comes five minutes or more after the round before it;
    [last] is the instant of the round before the first one, if any. *)
Fixpoint gapFreeFrom (last : option Z) (rounds : list Round) : Prop :=
  match rounds with
  | [] => True
  | r :: rest =>
      match last with
      | Some prev => (fst r - prev < FIVE_MIN_MS)%Z
      | None => True
      end /\ gapFreeFrom (Some (fst r)) rest
  end.

Definition gapFree (rounds : list Round) : Prop := gapFreeFrom None rounds.

(** The refs once a round has been accumulated at [curTs]. *)
Definition accumulated (p : DamagePayload) (curTs : Z) (st : State) : State :=
  {| lastIndex := lastIndex st;
     lastDamageTs := Some curTs;
     nextFlushDeadline := Some (curTs + FIVE_MIN_MS)%Z;
     fightFlushedByTimer := false;
     byActor := addRoundToActors p (byActor st);
     totals := addRoundToTotals p (totals st);
     flushedFinal := flushedFinal st |}.

(** The refs once the fight has been flushed. *)
Definition cleared (st : State) : State :=
  {| lastIndex := lastIndex st;
     lastDamageTs := None;
     nextFlushDeadline := None;
     fightFlushedByTimer := true;
     byActor := [];
     totals := zero;
     flushedFinal := flushedFinal st |}.

(** ** Sample logs *)

Definition swing (who : string) (dmg : Q) : DamagePayload :=
  {| totalDamage := Some dmg; Log.hits := Some 1%Z; Log.misses := Some 0%Z;
     events := Some [ {| source := Some who; amount := Some dmg |} ];
     bySource := None |}.

(** Three rounds within two seconds. *)
Definition threeRounds : list LogEntry :=
  [ Damage 0 (Some (swing "Rogar" 5));
    Damage 1000 (Some (swing "[Clan] Rogar" 7));
    Damage 2000 (Some (swing "Mira" 3)) ].

(** A line of text, then one round. *)
Definition textThenRound : list LogEntry :=
  [ DslMessage 0 "You attack."; Damage 5000 (Some (swing "Rogar" 5)) ].

(** Two rounds of one fight, one second apart. *)
Definition twoRounds : list Round :=
  [ (0%Z, swing "Rogar" 5); (1000%Z, swing "Mira" 3) ].

(** A state with one round accumulated at instant [0]. *)
Definition oneRoundIn : State :=
  fst (processEntry (Damage 0 (Some (swing "Rogar" 5))) initial).

End Playback.

(* ================================================================== *)
(** * The exports and the whole-log viewer *)
(* ================================================================== *)

Module Exports.

Import Log.
Import Fight.
Import Playback.

(** The class [[A-Za-z]]. *)
Definition isLetter (c : ascii) : bool :=
  let n := nat_of_ascii c in
  ((65 <=? n)%nat && (n <=? 90)%nat) || ((97 <=? n)%nat && (n <=? 122)%nat).

(** Anchored match of the pattern [ansi] of [copyPlainText],
    [/\x1b\[[0-9;]*[A-Za-z]/], at the start of [s]: the text after the
    match.  No letter is in the class of the parameters, so the greedy
    run is the only candidate. *)
Definition matchCsi (s : string) : option string :=
  match s with
  | String c1 (String c2 t) =>
      if Ascii.eqb c1 Ansi.ESC && Ascii.eqb c2 "["
      then match snd (Ansi.spanParams t) with
           | String c3 rest => if isLetter c3 then Some rest else None
           | EmptyString => None
           end
      else None
  | _ => None
  end.

(** [s.replace(ansi, <empty string>)] on the text [s]: every match is
    left out, the scan going on after it.  A turn consumes at least one
    character, so [fuel] above the length of [s] is never used up. *)
Fixpoint stripLoop (fuel : nat) (s : string) : string :=
  match fuel with
  | O => EmptyString
  | S fuel' =>
      match matchCsi s with
      | Some rest => stripLoop fuel' rest
      | None =>
          match s with
          | EmptyString => EmptyString
          | String c t => String c (stripLoop fuel' t)
          end
      end
  end.

Definition stripAnsi (s : string) : string :=
  stripLoop (S (String.length s)) s.

(** The chunks [copyPlainText] pushes for one entry. *)
Definition plainChunks (e : LogEntry) : list Line :=
  match e with
  | DslMessage _ message =>
      let text := stripAnsi message in
      [LText (if Str.truthy text then text else " ")]
  | Damage _ (Some p) => roundLines p ++ [LBlank; LBlank]
  | Damage _ None => []
  end.

(** The chunks of [copyPlainText], which it joins with line feeds; for a
    log without entries it returns before it copies anything. *)
Definition copyPlainText (entries : list LogEntry) : list Line :=
  flat_map plainChunks entries.

(** The lines [showWholeLog] writes for one entry. *)
Definition wholeLogLines (e : LogEntry) : list Line :=
  match e with
  | DslMessage _ message =>
      [LText (if String.eqb message EmptyString then " " else message)]
  | Damage _ (Some p) => roundLines p ++ [LBlank; LBlank]
  | Damage _ None => []
  end.

(** The lines [showWholeLog] writes to the terminal of the popup, when
    the log has entries and the popup opens. *)
Definition showWholeLog (entries : list LogEntry) : list Line :=
  flat_map wholeLogLines entries.

End Exports.

(* ================================================================== *)
(** * The playback clock *)
(* ================================================================== *)

Module Clock.

Import Log.

Definition tickTimer : Q := 42.

(** [Math.min] and [Math.max] on numbers. *)
Definition min (x y : Q) : Q := if Qle_bool x y then x else y.
Definition max (x y : Q) : Q := if Qle_bool x y then y else x.

(** The update of the interval: [Math.min(t + (now - last) / 1000,
    duration)], [elapsed] being the seconds since the last tick. *)
Definition tick (duration elapsed t : Q) : Q := min (t + elapsed) duration.

(** The update of the back button: [Math.max(0, t - tickTimer)]. *)
Definition back (t : Q) : Q := max 0 (t - tickTimer).

(** The update of the forward button:
    [Math.min(duration, t + tickTimer)]. *)
Definition forward (duration t : Q) : Q := min duration (t + tickTimer).

(** One thing the user or the interval does to [time]. *)
Inductive Move :=
| Tick (elapsed : Q)
| Back
| Forward.

Definition move (duration : Q) (m : Move) (t : Q) : Q :=
  match m with
  | Tick elapsed => tick duration elapsed t
  | Back => back t
  | Forward => forward duration t
  end.

End Clock.

(* ================================================================== *)
(** * Further vocabulary *)
(* ================================================================== *)

Module Notions.

Import Log.
Import Fight.
Import Playback.

(** ** Markup *)

(** From depth [d], the chunks never open a colour inside an open one
    and never close one that is not open. *)
Fixpoint shallow (d : nat) (l : list Ansi.Chunk) : bool :=
  match l with
  | [] => true
  | Ansi.CText _ :: l => shallow d l
  | Ansi.COpen _ :: l => match d with
                         | O => shallow 1 l
                         | S _ => false
                         end
  | Ansi.CClose :: l => match d with
                        | O => false
                        | S d' => shallow d' l
                        end
  end.

(** [s] has a match of the pattern of [copyPlainText] somewhere. *)
Fixpoint hasCsi (s : string) : bool :=
  match Exports.matchCsi s with
  | Some _ => true
  | None =>
      match s with
      | EmptyString => false
      | String _ t => hasCsi t
      end
  end.

(** The pieces of text put together. *)
Definition joinTexts (l : list string) : string :=
  fold_right String.append EmptyString l.

(** ** Text and lines *)

(** [text] with every carriage return that stands before a line feed
    left out. *)
Fixpoint unixEnds (text : string) : string :=
  match text with
  | EmptyString => EmptyString
  | String c t =>
      match t with
      | String c2 _ =>
          if Parse.isCR c && Parse.isLF c2 then unixEnds t
          else String c (unixEnds t)
      | EmptyString => String c EmptyString
      end
  end.

(** The lines put together again, a line feed between them. *)
Definition joinLines (lines : list string) : string :=
  String.concat (String "010" EmptyString) lines.

Fixpoint countLF (s : string) : nat :=
  match s with
  | EmptyString => 0
  | String c t => (if Parse.isLF c then 1 else 0) + countLF t
  end.

(** The line holds no line feed. *)
Fixpoint noLF (s : string) : bool :=
  match s with
  | EmptyString => true
  | String c t => negb (Parse.isLF c) && noLF t
  end.

(** An entry whose message, if it is a narrative entry, holds no
    control sequence. *)
Definition plainMessage (e : LogEntry) : bool :=
  match e with
  | DslMessage _ message => negb (hasCsi message)
  | Damage _ _ => true
  end.

(** The narrative entries. *)
Definition narrative (l : list LogEntry) : list LogEntry :=
  filter (fun e => negb (Parse.isDamage e)) l.

(** ** The clock *)

(** The interval never measures a negative time. *)
Definition validMove (m : Clock.Move) : Prop :=
  match m with
  | Clock.Tick elapsed => 0 <= elapsed
  | _ => True
  end.

(** [time] after the moves, one after the other. *)
Definition timeAfter (duration : Q) (moves : list Clock.Move) (t : Q) : Q :=
  fold_left (fun t m => Clock.move duration m t) moves t.

(** The entry is not after the cutoff. *)
Definition reached (cutoff : Q) (e : LogEntry) : bool :=
  Qle_bool (inject_Z (getTime e)) cutoff.

(** ** Names and rows *)

(** The actor and figures of the per-source rows among the lines, and
    of the rows of fight summaries. *)
Definition roundRows (out : list Line) : ActorMap :=
  flat_map (fun l => match l with
                     | LRoundRow actor agg => [(actor, agg)]
                     | _ => []
                     end) out.

Definition summaryRows (out : list Line) : ActorMap :=
  flat_map (fun l => match l with
                     | LSummaryRow actor agg => [(actor, agg)]
                     | _ => []
                     end) out.

(** Row [a] may stand before row [b] in a summary: it has at least the
    damage of [b]. *)
Definition outranks (a b : string * PerActor) : Prop :=
  damage (snd b) <= damage (snd a).

(** Row [a] may stand before row [b] under a round: it has more damage,
    or the same damage and at least the hits of [b]. *)
Definition outranksInRound (a b : string * PerActor) : Prop :=
  damage (snd b) < damage (snd a)
  \/ (damage (snd b) == damage (snd a) /\ (hits (snd b) <= hits (snd a))%Z).

(** Rows with damage [d]; rows with damage [d] and [h] hits. *)
Definition hasDamage (d : Q) (r : string * PerActor) : bool :=
  Qeq_bool (damage (snd r)) d.

Definition hasDamageAndHits (d : Q) (h : Z) (r : string * PerActor) : bool :=
  Qeq_bool (damage (snd r)) d && (hits (snd r) =? h)%Z.

(** ** What the playback writes *)

(** The lines with every fight summary (its header, its rows and the
    blank line that closes it) left out; [inSummary] says that a summary
    is being skipped. *)
Fixpoint withoutSummaries (inSummary : bool) (out : list Line) : list Line :=
  match out with
  | [] => []
  | l :: rest =>
      if inSummary then
        match l with
        | LBlank => withoutSummaries false rest
        | _ => withoutSummaries true rest
        end
      else
        match l with
        | LSummaryHeader _ => withoutSummaries true rest
        | _ => l :: withoutSummaries false rest
        end
  end.

(** The effect run once for each value that [time] takes, in turn, and
    all that the runs write. *)
Fixpoint playbackRun (entries : list LogEntry) (times : list Q) (st : State)
  : State * list Line :=
  match times with
  | [] => (st, [])
  | time :: later =>
      let '(st1, out1) := playbackEffect entries time st in
      let '(st2, out2) := playbackRun entries later st1 in
      (st2, out1 ++ out2)
  end.

(** The damage rounds among the entries, as instant and payload. *)
Definition roundsOf (entries : list LogEntry) : list Round :=
  flat_map (fun e => match e with
                     | Damage ts (Some p) => [(ts, p)]
                     | _ => []
                     end) entries.

(** The totals that the fight summaries among the lines report. *)
Definition summaryHeaders (out : list Line) : list PerActor :=
  flat_map (fun l => match l with
                     | LSummaryHeader t => [t]
                     | _ => []
                     end) out.

(** The index [end] of the effect at [time]. *)
Definition endAt (entries : list LogEntry) (time : Q) : nat :=
  visibleEnd entries (cutoffOf entries time).

(** ** The refs between runs *)

(** The deadline is five minutes after the last round, and both are
    [null] together. *)
Definition timersAgree (st : State) : Prop :=
  nextFlushDeadline st
  = option_map (fun last => (last + FIVE_MIN_MS)%Z) (lastDamageTs st).

(** A fight that is open has a last round and has not been flushed. *)
Definition openFightArmed (st : State) : Prop :=
  fightOpen st = true ->
  fightFlushedByTimer st = false /\ lastDamageTs st <> None.

Definition steady (st : State) : Prop :=
  timersAgree st /\ openFightArmed st /\ NoDup (List.map fst (byActor st)).

(** The figures held in the map, added up. *)
Definition sumFigures (map : ActorMap) : PerActor :=
  sumAgg (List.map snd map).

(** The per-actor figures add up to the totals. *)
Definition balanced (st : State) : Prop :=
  aggEq (sumFigures (byActor st)) (totals st).

(** The payloads of the damage rounds of a log. *)
Definition payloads (entries : list LogEntry) : list DamagePayload :=
  flat_map (fun e => match e with
                     | Damage _ (Some p) => [p]
                     | _ => []
                     end) entries.

(** A round all of whose figures rest on its rows and events: it lists
    rows or events or reports neither damage nor hits of its own, and it
    lists events or reports no misses of its own. *)
Definition fullyAttributable (p : DamagePayload) : bool :=
  (hasItems (bySource p) || hasItems (events p)
   || (Qeq_bool (orZeroQ (totalDamage p)) 0 && (orZeroZ (Log.hits p) =? 0)%Z))
  && (hasItems (events p) || (orZeroZ (Log.misses p) =? 0)%Z).

(** A round none of whose figures is negative. *)
Definition nonNegative (p : DamagePayload) : bool :=
  Qle_bool 0 (orZeroQ (totalDamage p))
  && (0 <=? orZeroZ (Log.hits p))%Z
  && (0 <=? orZeroZ (Log.misses p))%Z
  && forallb (fun r => Qle_bool 0 (orZeroQ (totalAsSource r))
                       && (0 <=? orZeroZ (countAsSource r))%Z)
       (itemsOf (bySource p)).

(** None of the totals is negative. *)
Definition totalsNonNegative (st : State) : Prop :=
  0 <= damage (totals st)
  /\ (0 <= hits (totals st))%Z /\ (0 <= misses (totals st))%Z.

(** Once the end of the log has been flushed, nothing is held back and
    the cursor is at the end. *)
Definition settled (entries : list LogEntry) (st : State) : Prop :=
  flushedFinal st = true ->
  fightEmpty st = true /\ lastIndex st = List.length entries.

Definition isSummaryRow (l : Line) : bool :=
  match l with LSummaryRow _ _ => true | _ => false end.

(** Lines in which every fight summary is a header, its rows and a blank
    line, the figures of the rows adding up to those of the header. *)
Inductive balancedOutput : list Line -> Prop :=
| balanced_nil : balancedOutput []
| balanced_line (l : Line) (out : list Line) :
    isSummaryHeader l = false -> isSummaryRow l = false ->
    balancedOutput out -> balancedOutput (l :: out)
| balanced_summary (t : PerActor) (rows : ActorMap) (out : list Line) :
    aggEq (sumFigures rows) t ->
    balancedOutput out ->
    balancedOutput
      (LSummaryHeader t
       :: map (fun row => LSummaryRow (fst row) (snd row)) rows
       ++ LBlank :: out).

(** A log of two fights, the second one six minutes after the first. *)
Definition twoFights : list LogEntry :=
  [ DslMessage 0 "You attack.";
    Damage 1000 (Some (swing "Rogar" 5));
    Damage 2000 (Some (swing "[Clan] Rogar" 7));
    DslMessage 3000 "The goblin dies.";
    Damage 362000 (Some (swing "Mira" 3)) ].

End Notions.

(* ================================================================== *)
(** * Facts about strings *)
(* ================================================================== *)

Module StrFacts.

Lemma append_nil_r (s : string) : (s ++ EmptyString)%string = s.
Proof. induction s as [|c s IH]; simpl; [reflexivity | now rewrite IH]. Qed.

Lemma append_assoc (a b c : string) :
  ((a ++ b) ++ c)%string = (a ++ (b ++ c))%string.
Proof. induction a as [|x a IH]; simpl; [reflexivity | now rewrite IH]. Qed.

Lemma length_append (a b : string) :
  String.length (a ++ b) = (String.length a + String.length b)%nat.
Proof. induction a as [|x a IH]; simpl; [reflexivity | now rewrite IH]. Qed.

End StrFacts.

(* ================================================================== *)
(** * Facts about the translator *)
(* ================================================================== *)

Module AnsiFacts.

Import Ansi.

(** ** The regular expression *)

Lemma spanParams_split (s : string) :
  forall p r, spanParams s = (p, r) ->
    s = (p ++ r)%string /\ allParamChars p = true.
Proof.
  induction s as [|c s IH]; simpl; intros p r H.
  - inversion H; subst; auto.
  - destruct (isParamChar c) eqn:Ec.
    + destruct (spanParams s) as [p' r'] eqn:Es.
      inversion H; subst; clear H.
      destruct (IH _ _ eq_refl) as [-> Hp].
      simpl. rewrite Ec. auto.
    + inversion H; subst; auto.
Qed.

Lemma isParamChar_m : isParamChar "m" = false.
Proof. reflexivity. Qed.

Lemma spanParams_run (p r : string) :
  allParamChars p = true ->
  spanParams (p ++ String "m" r) = (p, String "m" r).
Proof.
  induction p as [|c p IH]; simpl; intros H.
  - reflexivity.
  - apply andb_true_iff in H as [Hc Hp].
    rewrite Hc, (IH Hp). reflexivity.
Qed.

Lemma sgrText_app (params rest : string) :
  (sgrText params ++ rest)%string
  = String ESC (String "[" (params ++ String "m" rest)).
Proof.
  unfold sgrText. simpl. now rewrite StrFacts.append_assoc.
Qed.

Lemma matchSgr_sound (s ps rest : string) :
  matchSgr s = Some (ps, rest) ->
  validParams ps /\ s = (sgrText ps ++ rest)%string.
Proof.
  unfold matchSgr.
  destruct s as [|c1 [|c2 t]]; try discriminate.
  destruct (Ascii.eqb c1 ESC) eqn:E1; try discriminate.
  destruct (Ascii.eqb c2 "[") eqn:E2; try discriminate.
  simpl.
  destruct (spanParams t) as [p r] eqn:Es.
  destruct p as [|p0 p]; try discriminate.
  destruct r as [|c3 r]; try discriminate.
  destruct (Ascii.eqb c3 "m") eqn:E3; try discriminate.
  intros H; inversion H; subst; clear H.
  apply Ascii.eqb_eq in E1, E2, E3. subst.
  destruct (spanParams_split _ _ _ Es) as [-> Hp].
  split.
  - split; [discriminate | exact Hp].
  - now rewrite StrFacts.append_assoc.
Qed.

Lemma matchSgr_complete (ps rest : string) :
  validParams ps -> matchSgr (sgrText ps ++ rest) = Some (ps, rest).
Proof.
  intros [Hne Hp]. rewrite sgrText_app. unfold matchSgr.
  rewrite !Ascii.eqb_refl. simpl.
  rewrite (spanParams_run _ _ Hp).
  destruct ps as [|p0 ps]; [congruence|].
  now rewrite Ascii.eqb_refl.
Qed.

Lemma escFree_nil : escFree EmptyString.
Proof.
  intros a ps b _ H.
  apply (f_equal String.length) in H.
  rewrite !StrFacts.length_append in H. unfold sgrText in H. simpl in H. lia.
Qed.

Lemma escFree_cons (c : ascii) (s : string) :
  (forall ps b, validParams ps -> String c s <> (sgrText ps ++ b)%string) ->
  escFree s -> escFree (String c s).
Proof.
  intros Hhead Htail a ps b Hv H.
  destruct a as [|x a].
  - exact (Hhead ps b Hv H).
  - simpl in H. injection H as _ H'. exact (Htail a ps b Hv H').
Qed.

Lemma exec_eq (s : string) :
  exec s = match matchSgr s with
           | Some (ps, rest) => Some (EmptyString, ps, rest)
           | None =>
               match s with
               | EmptyString => None
               | String c t =>
                   match exec t with
                   | Some (pre, ps, rest) => Some (String c pre, ps, rest)
                   | None => None
                   end
               end
           end.
Proof. destruct s; reflexivity. Qed.

Lemma exec_none (s : string) : exec s = None -> escFree s.
Proof.
  induction s as [|c s IH]; intros H.
  - apply escFree_nil.
  - rewrite exec_eq in H.
    destruct (matchSgr (String c s)) as [[ps r]|] eqn:Em; [discriminate|].
    destruct (exec s) as [[[pre ps] r]|] eqn:Ee; [discriminate|].
    apply escFree_cons; [|now apply IH].
    intros ps b Hv Heq. rewrite Heq, (matchSgr_complete _ _ Hv) in Em.
    discriminate.
Qed.

Lemma exec_some (s pre ps rest : string) :
  exec s = Some (pre, ps, rest) ->
  s = (pre ++ sgrText ps ++ rest)%string /\ validParams ps /\ escFree pre.
Proof.
  revert pre. induction s as [|c s IH]; intros pre H.
  - simpl in H. discriminate.
  - rewrite exec_eq in H.
    destruct (matchSgr (String c s)) as [[ps' r']|] eqn:Em.
    + inversion H; subst; clear H.
      destruct (matchSgr_sound _ _ _ Em) as [Hv ->].
      repeat split; try apply Hv. apply escFree_nil.
    + destruct (exec s) as [[[pre' ps'] r']|] eqn:Ee; [|discriminate].
      inversion H; subst; clear H.
      destruct (IH _ eq_refl) as (Hs & Hv & Hf).
      repeat split; try apply Hv.
      * simpl. f_equal. exact Hs.
      * apply escFree_cons; [|exact Hf].
        intros ps' b Hv' Heq.
        assert (Hm : matchSgr (String c s)
                     = Some (ps', (b ++ sgrText ps ++ rest)%string)).
        { rewrite Hs.
          change (String c (pre' ++ sgrText ps ++ rest))
            with (String c pre' ++ (sgrText ps ++ rest))%string.
          rewrite Heq, StrFacts.append_assoc.
          now apply matchSgr_complete. }
        rewrite Hm in Em. discriminate.
Qed.

Lemma exec_shorter (s pre ps rest : string) :
  exec s = Some (pre, ps, rest) ->
  (String.length rest < String.length s)%nat.
Proof.
  intros H. destruct (exec_some _ _ _ _ H) as (-> & _ & _).
  rewrite !StrFacts.length_append. unfold sgrText. simpl. lia.
Qed.

(** ** One escape *)

Lemma escStep_no_text open codes nc :
  chunkTexts (fst (escStep open codes nc)) = [].
Proof.
  unfold escStep.
  destruct (existsb (N.eqb 0) codes && isOpen open);
    destruct (pick codes) as [[c|s]|]; simpl; try reflexivity.
  - destruct (ansiColorNames c) as [nm|]; simpl; try reflexivity.
    destruct (Str.truthy nm), (isBracket nc); reflexivity.
  - destruct (Str.truthy s), (isBracket nc); reflexivity.
  - destruct (ansiColorNames c) as [nm|]; simpl; try reflexivity.
    destruct (Str.truthy nm), (isBracket nc), (isOpen open); reflexivity.
  - destruct (Str.truthy s), (isBracket nc), (isOpen open); reflexivity.
Qed.

Lemma escStep_walk open codes nc :
  walk (depth open) (fst (escStep open codes nc))
  = Some (depth (snd (escStep open codes nc))).
Proof.
  unfold escStep, depth.
  destruct (existsb (N.eqb 0) codes); simpl.
  - destruct (isOpen open) eqn:Eo; simpl;
      destruct (pick codes) as [[c|s]|]; simpl; rewrite ?Eo; try reflexivity.
    + destruct (ansiColorNames c) as [nm|]; simpl; rewrite ?Eo; try reflexivity.
      destruct (Str.truthy nm) eqn:Et, (isBracket nc);
        simpl; rewrite ?Eo, ?Et; reflexivity.
    + destruct (Str.truthy s) eqn:Et, (isBracket nc);
        simpl; rewrite ?Eo, ?Et; reflexivity.
    + destruct (ansiColorNames c) as [nm|]; simpl; rewrite ?Eo; try reflexivity.
      destruct (Str.truthy nm) eqn:Et, (isBracket nc);
        simpl; rewrite ?Eo, ?Et; reflexivity.
    + destruct (Str.truthy s) eqn:Et, (isBracket nc);
        simpl; rewrite ?Eo, ?Et; reflexivity.
  - destruct (isOpen open) eqn:Eo; simpl;
      destruct (pick codes) as [[c|s]|]; simpl; rewrite ?Eo; try reflexivity.
    + destruct (ansiColorNames c) as [nm|]; simpl; rewrite ?Eo; try reflexivity.
      destruct (Str.truthy nm) eqn:Et, (isBracket nc);
        simpl; rewrite ?Eo, ?Et; reflexivity.
    + destruct (Str.truthy s) eqn:Et, (isBracket nc);
        simpl; rewrite ?Eo, ?Et; reflexivity.
    + destruct (ansiColorNames c) as [nm|]; simpl; rewrite ?Eo; try reflexivity.
      destruct (Str.truthy nm) eqn:Et, (isBracket nc);
        simpl; rewrite ?Eo, ?Et; reflexivity.
    + destruct (Str.truthy s) eqn:Et, (isBracket nc);
        simpl; rewrite ?Eo, ?Et; reflexivity.
Qed.

Lemma escStep_bracket open codes :
  escStep open codes (Some "]"%char)
  = if existsb (N.eqb 0) codes && isOpen open
    then ([CClose], None) else ([], open).
Proof.
  unfold escStep.
  destruct (existsb (N.eqb 0) codes && isOpen open);
    destruct (pick codes) as [[c|s]|]; simpl; try reflexivity;
    try (destruct (ansiColorNames c) as [nm|]; simpl; try reflexivity;
         destruct (Str.truthy nm); reflexivity);
    destruct (Str.truthy s); reflexivity.
Qed.

(** ** Nesting depth *)

Lemma walk_app (l1 l2 : list Chunk) : forall d,
  walk d (l1 ++ l2)
  = match walk d l1 with
    | Some e => walk e l2
    | None => None
    end.
Proof.
  induction l1 as [|c l1 IH]; intros d; simpl; [reflexivity|].
  destruct c; auto. destruct d; auto.
Qed.

Lemma walk_counts (l : list Chunk) : forall d e,
  walk d l = Some e ->
  (d + opens l = e + closes l)%nat
  /\ forall n, (closes (firstn n l) <= d + opens (firstn n l))%nat.
Proof.
  unfold opens, closes.
  induction l as [|c l IH]; intros d e H; simpl in H.
  - inversion H; subst. split; [reflexivity|].
    intros n. rewrite firstn_nil. simpl. lia.
  - destruct c as [s|nm|].
    + destruct (IH _ _ H) as [Ht Hp]. split; [exact Ht|].
      intros [|n]; simpl; [lia | apply Hp].
    + destruct (IH _ _ H) as [Ht Hp]. split; [simpl in *; lia|].
      intros [|n]; simpl; [lia | specialize (Hp n); lia].
    + destruct d as [|d]; [discriminate|].
      destruct (IH _ _ H) as [Ht Hp]. split; [simpl in *; lia|].
      intros [|n]; simpl; [lia | specialize (Hp n); lia].
Qed.

(** ** The loop *)

(** The loop never runs out of fuel: any two amounts above the length of
    the remaining text give the same result. *)
Lemma ansiLoop_fuel (fuel : nat) : forall (fuel' : nat) rest open,
  (String.length rest < fuel)%nat -> (String.length rest < fuel')%nat ->
  ansiLoop fuel rest open = ansiLoop fuel' rest open.
Proof.
  induction fuel as [|fuel IH]; intros [|fuel'] rest open H H'; try lia.
  cbn [ansiLoop].
  destruct (exec rest) as [[[pre params] rest']|] eqn:Ee; [|reflexivity].
  pose proof (exec_shorter _ _ _ _ Ee) as Hs.
  destruct (escStep open (codesOf params) (Str.head rest')) as [em open'].
  f_equal. f_equal. apply IH; lia.
Qed.

Lemma ansiLoop_walk (fuel : nat) : forall rest open,
  (String.length rest < fuel)%nat ->
  walk (depth open) (ansiLoop fuel rest open) = Some 0%nat.
Proof.
  induction fuel as [|fuel IH]; intros rest open Hlen; [lia|].
  simpl.
  destruct (exec rest) as [[[pre params] rest']|] eqn:Ee.
  - pose proof (exec_shorter _ _ _ _ Ee) as Hs.
    pose proof (escStep_walk open (codesOf params) (Str.head rest')) as Hw.
    destruct (escStep open (codesOf params) (Str.head rest')) as [em open'].
    simpl in *. rewrite walk_app, Hw. apply IH. lia.
  - simpl. unfold depth. destruct (isOpen open); reflexivity.
Qed.

Lemma ansiLoop_segments (fuel : nat) : forall rest open,
  (String.length rest < fuel)%nat ->
  exists segs, unlex segs = rest /\ Forall segOk segs
    /\ chunkTexts (ansiLoop fuel rest open) = segTexts segs.
Proof.
  induction fuel as [|fuel IH]; intros rest open Hlen; [lia|].
  simpl.
  destruct (exec rest) as [[[pre params] rest']|] eqn:Ee.
  - pose proof (exec_shorter _ _ _ _ Ee) as Hs.
    destruct (exec_some _ _ _ _ Ee) as (Hr & Hv & Hf).
    pose proof (escStep_no_text open (codesOf params) (Str.head rest')) as Hn.
    destruct (escStep open (codesOf params) (Str.head rest')) as [em open'].
    destruct (IH rest' open') as (segs & Hu & Hok & Ht); [lia|].
    exists (SText pre :: SEsc params :: segs). split; [|split].
    + simpl. now rewrite Hu, Hr.
    + constructor; [exact Hf | constructor; [exact Hv | exact Hok]].
    + simpl in *. unfold chunkTexts in *.
      rewrite flat_map_app, Hn, Ht. reflexivity.
  - exists [SText rest]. split; [|split].
    + simpl. apply StrFacts.append_nil_r.
    + constructor; [|constructor]. now apply exec_none.
    + destruct (isOpen open); reflexivity.
Qed.

(** ** Properties *)

(** C7 (as amended): at an escape sequence that is followed in the line by
    a closing bracket, no colour tag is opened and the open colour is not
    switched; the only thing the escape can still append is the closing
    tag of a reset code [0] in its parameters, which is handled before the
    bracket test.  Without a reset, or with no colour open, the escape
    appends nothing and leaves the open colour as it was; the line
    [ESC[31m]] becomes the single character "]". *)
Theorem C7_bracket_suppresses_color_change :
  (forall (fuel : nat) (rest pre params rest' : string) (open : option string),
      exec rest = Some (pre, params, String "]" rest') ->
      let reset := existsb (N.eqb 0) (codesOf params) && isOpen open in
      ansiLoop (S fuel) rest open
      = CText pre :: (if reset then [CClose] else [])
          ++ ansiLoop fuel (String "]" rest') (if reset then None else open))
  /\ (forall (open : option string) (codes : list N),
         escStep open codes (Some "]"%char)
         = (if existsb (N.eqb 0) codes && isOpen open
            then ([CClose], None) else ([], open))
         /\ opens (fst (escStep open codes (Some "]"%char))) = 0%nat)
  /\ ansiChunks bracketSample = [CText EmptyString; CText "]"]
  /\ ansiToBBCode bracketSample = "]"%string.
Proof.
  split; [|split; [|split; reflexivity]].
  - intros fuel rest pre params rest' open He reset.
    cbn [ansiLoop]. rewrite He. cbn [Str.head].
    rewrite escStep_bracket. fold reset.
    destruct reset; reflexivity.
  - intros open codes. rewrite escStep_bracket.
    split; [reflexivity|].
    destruct (existsb (N.eqb 0) codes && isOpen open); reflexivity.
Qed.

Lemma C7_bracket_suppresses_color_change_witness :
  exec bracketSample = Some (EmptyString, "31"%string, "]"%string)
  /\ ansiLoop 6 bracketSample (Some "GREEN"%string)
     = [CText EmptyString] ++ ansiLoop 5 "]" (Some "GREEN"%string).
Proof.
  split; [reflexivity|].
  exact (proj1 C7_bracket_suppresses_color_change
           5%nat bracketSample EmptyString "31"%string EmptyString
           (Some "GREEN"%string) eq_refl).
Defined.

(** C7 (as stated) fails: in the README's sample line the escape
    [ESC[0;31m] stands right before a closing bracket while BLACK is open,
    and the translator closes that tag there. *)
Lemma C7_counterexample :
  ~ suppressedEntirely (Some "BLACK"%string) (codesOf "0;31")
  /\ ansiToBBCode readmeSample
     = ("[ IMPLEMENTOR ] [COLOR=RED][ [/COLOR][COLOR=BLACK]Chaos [/COLOR]]"
        ++ " Scorn. ")%string.
Proof.
  split; [|reflexivity].
  unfold suppressedEntirely. vm_compute. discriminate.
Qed.

(** C10: the colour tags the translator emits on any line are balanced:
    as many [COLOR=...] tags as [/COLOR] tags, and in every prefix of
    the emitted pieces no more closing than opening tags. *)
Theorem C10_markup_balanced (line : string) :
  opens (ansiChunks line) = closes (ansiChunks line)
  /\ forall n : nat,
       (closes (firstn n (ansiChunks line))
        <= opens (firstn n (ansiChunks line)))%nat.
Proof.
  assert (H : walk 0 (ansiChunks line) = Some 0%nat).
  { apply (ansiLoop_walk _ line None). lia. }
  destruct (walk_counts _ _ _ H) as [Ht Hp].
  split; [lia | exact Hp].
Qed.

End AnsiFacts.

(* ================================================================== *)
(** * Facts about the sort *)
(* ================================================================== *)

Module JsSortFacts.

Section Sort.
Context {A : Type}.
Variable after : A -> A -> bool.

Lemma insert_perm (x : A) (l : list A) : Permutation (x :: l) (JsSort.insert after x l).
Proof.
  induction l as [|y l IH]; simpl; [reflexivity|].
  destruct (after x y); [|reflexivity].
  rewrite perm_swap. now constructor.
Qed.

Lemma sort_perm (l : list A) : Permutation l (JsSort.sort after l).
Proof.
  induction l as [|x l IH]; simpl; [constructor|].
  rewrite <- insert_perm. now constructor.
Qed.

End Sort.

End JsSortFacts.

(* ================================================================== *)
(** * Facts about the parser *)
(* ================================================================== *)

Module ParseFacts.

Import Log.
Import Parse.

(** ** The sort by time *)

Lemma insert_sorted (x : LogEntry) (l : list LogEntry) :
  StronglySorted timeLe l -> StronglySorted timeLe (JsSort.insert byTime x l).
Proof.
  induction 1 as [|y l Hs IH Hall]; simpl.
  - repeat constructor.
  - unfold byTime at 1. destruct (Z.gtb_spec (getTime x - getTime y) 0).
    + constructor; [exact IH|].
      apply Forall_forall. intros z Hz.
      apply (Permutation_in _ (Permutation_sym (JsSortFacts.insert_perm byTime x l)))
        in Hz.
      destruct Hz as [<-|Hz]; [unfold timeLe; lia|].
      exact (proj1 (Forall_forall _ _) Hall z Hz).
    + constructor; [constructor; assumption|].
      constructor; [unfold timeLe; lia|].
      apply Forall_forall. intros z Hz.
      pose proof (proj1 (Forall_forall _ _) Hall z Hz) as Hyz.
      unfold timeLe in *. lia.
Qed.

Lemma sort_sorted (l : list LogEntry) :
  StronglySorted timeLe (JsSort.sort byTime l).
Proof.
  induction l as [|x l IH]; simpl; [constructor | now apply insert_sorted].
Qed.

Lemma insert_stable (t : Z) (x : LogEntry) (l : list LogEntry) :
  filter (stampedAt t) (JsSort.insert byTime x l)
  = filter (stampedAt t) (x :: l).
Proof.
  induction l as [|y l IH]; [reflexivity|].
  cbn [JsSort.insert]. unfold byTime at 1.
  destruct (Z.gtb_spec (getTime x - getTime y) 0) as [Hgt|Hle]; [|reflexivity].
  cbn [filter] in *. rewrite IH. unfold stampedAt.
  destruct (Z.eqb_spec (getTime x) t), (Z.eqb_spec (getTime y) t);
    try reflexivity; lia.
Qed.

Lemma sort_stable (t : Z) (l : list LogEntry) :
  filter (stampedAt t) (JsSort.sort byTime l) = filter (stampedAt t) l.
Proof.
  induction l as [|x l IH]; [reflexivity|].
  cbn [JsSort.sort fold_right]. fold (JsSort.sort byTime l).
  rewrite insert_stable. cbn [filter]. now rewrite IH.
Qed.

(** The two guarantees of [Array.prototype.sort], order and stability,
    leave one result only, so the insertion above stands for the sort of
    any engine. *)

Lemma filter_stamped_nil (t : Z) (l : list LogEntry) :
  Forall (fun e => getTime e <> t) l -> filter (stampedAt t) l = [].
Proof.
  induction 1 as [|e l He _ IH]; [reflexivity|].
  cbn [filter]. unfold stampedAt at 1.
  destruct (Z.eqb_spec (getTime e) t); [contradiction | exact IH].
Qed.

Lemma filter_stamped_head (e : LogEntry) (l : list LogEntry) :
  filter (stampedAt (getTime e)) (e :: l)
  = e :: filter (stampedAt (getTime e)) l.
Proof. cbn [filter]. unfold stampedAt at 1. now rewrite Z.eqb_refl. Qed.

Lemma sorted_head_least (h : LogEntry) (l : list LogEntry) (t : Z) :
  StronglySorted timeLe (h :: l) -> (t < getTime h)%Z ->
  filter (stampedAt t) (h :: l) = [].
Proof.
  intros Hs Hlt. apply StronglySorted_inv in Hs as [_ Hall].
  apply filter_stamped_nil. constructor; [lia|].
  apply Forall_forall. intros x Hx.
  pose proof (proj1 (Forall_forall _ _) Hall x Hx) as Hle.
  unfold timeLe in Hle. lia.
Qed.

Lemma sorted_stable_unique (l1 : list LogEntry) : forall l2 : list LogEntry,
  StronglySorted timeLe l1 -> StronglySorted timeLe l2 ->
  (forall t, filter (stampedAt t) l1 = filter (stampedAt t) l2) ->
  l1 = l2.
Proof.
  induction l1 as [|h1 r1 IH]; intros [|h2 r2] Hs1 Hs2 Hf.
  - reflexivity.
  - specialize (Hf (getTime h2)). rewrite filter_stamped_head in Hf.
    discriminate.
  - specialize (Hf (getTime h1)). rewrite filter_stamped_head in Hf.
    discriminate.
  - assert (Ht : getTime h1 = getTime h2).
    { destruct (Z.lt_trichotomy (getTime h1) (getTime h2)) as [Hlt|[He|Hgt]].
      - pose proof (Hf (getTime h1)) as H.
        rewrite filter_stamped_head, (sorted_head_least _ _ _ Hs2 Hlt) in H.
        discriminate.
      - exact He.
      - pose proof (Hf (getTime h2)) as H.
        rewrite filter_stamped_head, (sorted_head_least _ _ _ Hs1 Hgt) in H.
        discriminate. }
    pose proof (Hf (getTime h1)) as Hhead.
    rewrite filter_stamped_head, Ht, filter_stamped_head in Hhead.
    injection Hhead as Hh Hrest. subst h2. f_equal.
    apply StronglySorted_inv in Hs1 as [Hs1 _].
    apply StronglySorted_inv in Hs2 as [Hs2 _].
    apply IH; [exact Hs1 | exact Hs2|].
    intros t. specialize (Hf t). cbn [filter] in Hf.
    destruct (stampedAt t h1); [now injection Hf | exact Hf].
Qed.

Lemma sort_is_the_stable_sort (l sorted : list LogEntry) :
  StronglySorted timeLe sorted ->
  (forall t, filter (stampedAt t) sorted = filter (stampedAt t) l) ->
  sorted = JsSort.sort byTime l.
Proof.
  intros Hs Hf. apply sorted_stable_unique; [exact Hs | apply sort_sorted|].
  intros t. now rewrite Hf, sort_stable.
Qed.

(** ** The deduplication pass *)

Lemma keyEqb_eq (k1 k2 : Key) : keyEqb k1 k2 = true <-> k1 = k2.
Proof.
  destruct k1 as [t1 m1], k2 as [t2 m2]. unfold keyEqb. simpl.
  rewrite andb_true_iff, Z.eqb_eq, String.eqb_eq.
  split; [intros [-> ->]; reflexivity | intros H; inversion H; auto].
Qed.

Lemma has_In (seen : list Key) (k : Key) : has seen k = true <-> In k seen.
Proof.
  unfold has. rewrite existsb_exists. split.
  - intros (k' & Hin & He). apply keyEqb_eq in He. now subst.
  - intros Hin. exists k. split; [exact Hin | now apply keyEqb_eq].
Qed.

Lemma dedupe_In (raw : list LogEntry) : forall seen e,
  In e (dedupe seen raw) -> In e raw.
Proof.
  induction raw as [|x raw IH]; intros seen e H; [exact H|].
  simpl in H. destruct x as [ts m|ts p].
  - destruct (has seen (ts, m)).
    + right. exact (IH _ _ H).
    + destruct H as [<-|H]; [now left | right; exact (IH _ _ H)].
  - destruct H as [<-|H]; [now left | right; exact (IH _ _ H)].
Qed.

Lemma dedupe_sorted (raw : list LogEntry) : forall seen,
  StronglySorted timeLe raw -> StronglySorted timeLe (dedupe seen raw).
Proof.
  induction raw as [|x raw IH]; intros seen Hs; [constructor|].
  apply StronglySorted_inv in Hs as [Hs Hall].
  assert (Hx : Forall (timeLe x) (dedupe seen raw)
               /\ forall k, Forall (timeLe x) (dedupe (k :: seen) raw)).
  { split; [|intros k]; apply Forall_forall; intros z Hz;
      apply dedupe_In in Hz; exact (proj1 (Forall_forall _ _) Hall z Hz). }
  destruct Hx as [Hx1 Hx2].
  simpl. destruct x as [ts m|ts p].
  - destruct (has seen (ts, m)); [now apply IH|].
    constructor; [now apply IH | apply Hx2].
  - constructor; [now apply IH | exact Hx1].
Qed.

Lemma dedupe_keys (raw : list LogEntry) : forall seen,
  NoDup (messageKeys (dedupe seen raw))
  /\ forall k, In k (messageKeys (dedupe seen raw)) -> ~ In k seen.
Proof.
  induction raw as [|x raw IH]; intros seen.
  - split; [constructor | intros k []].
  - simpl. destruct x as [ts m|ts p].
    + destruct (has seen (ts, m)) eqn:Eh; [apply IH|].
      destruct (IH ((ts, m) :: seen)) as [Hnd Hnot].
      split.
      * simpl. constructor; [|exact Hnd].
        intros Hin. apply (Hnot _ Hin). now left.
      * intros k [<-|Hin].
        -- intros Hs. apply has_In in Hs. congruence.
        -- intros Hs. apply (Hnot _ Hin). now right.
    + exact (IH seen).
Qed.




Lemma dedupe_stamped (t : Z) (raw : list LogEntry) : forall seen seen',
  (forall m, has seen (t, m) = has seen' (t, m)) ->
  filter (stampedAt t) (dedupe seen raw)
  = dedupe seen' (filter (stampedAt t) raw).
Proof.
  unfold stampedAt.
  induction raw as [|x raw IH]; intros seen seen' Hagree; [reflexivity|].
  destruct x as [ts m|ts p]; cbn [dedupe filter getTime].
  - destruct (Z.eqb_spec ts t) as [->|Hne].
    + cbn [dedupe]. rewrite <- Hagree.
      destruct (has seen (t, m)) eqn:Eh; [now apply IH|].
      cbn [filter getTime]. rewrite Z.eqb_refl. f_equal.
      apply IH. intros m'. unfold has in *. simpl. now rewrite Hagree.
    + destruct (has seen (ts, m)); [now apply IH|].
      cbn [filter getTime].
      destruct (Z.eqb_spec ts t) as [->|_]; [congruence|].
      apply IH. intros m'. unfold has at 1. simpl.
      unfold keyEqb at 1. simpl.
      destruct (Z.eqb_spec t ts) as [->|_]; [congruence|].
      simpl. apply Hagree.
  - destruct (Z.eqb_spec ts t) as [->|Hne]; [|now apply IH].
    cbn [dedupe]. f_equal. now apply IH.
Qed.

Lemma dedupe_subseq (raw : list LogEntry) : forall seen,
  subseq (dedupe seen raw) raw.
Proof.
  induction raw as [|x raw IH]; intros seen; [constructor|].
  simpl. destruct x as [ts m|ts p].
  - destruct (has seen (ts, m)); constructor; apply IH.
  - constructor. apply IH.
Qed.

(** The earlier revision lost the second of two identical rounds; the
    current one keeps both. *)
Example earlier_revision_dropped_rounds :
  dedupeEarlier [] [] [sampleRound; sampleRound] = [sampleRound]
  /\ dedupe [] [sampleRound; sampleRound] = [sampleRound; sampleRound].
Proof. split; reflexivity. Qed.

(** ** Properties *)


(** The timeline of well-formed records is in non-decreasing order of
    timestamp, and entries with the same timestamp keep the order the
    file gave them: the sort leaves the records of every instant in file
    order, and the timeline's entries of an instant are the file's
    records of that instant, in file order, less the repeated
    narrative lines. *)
Lemma timeline_sorted_and_stable (records : list LogEntry) :
  StronglySorted timeLe (timelineOf records)
  /\ (forall t : Z,
         filter (stampedAt t) (JsSort.sort byTime records)
         = filter (stampedAt t) records)
  /\ (forall t : Z,
         filter (stampedAt t) (timelineOf records)
         = dedupe [] (filter (stampedAt t) records))
  /\ (forall t : Z,
         subseq (filter (stampedAt t) (timelineOf records))
                (filter (stampedAt t) records)).
Proof.
  assert (Hstamped : forall t : Z,
             filter (stampedAt t) (timelineOf records)
             = dedupe [] (filter (stampedAt t) records)).
  { intros t. unfold timelineOf.
    rewrite (dedupe_stamped t _ [] []); [|reflexivity].
    now rewrite sort_stable. }
  split; [|split; [|split]].
  - unfold timelineOf. apply dedupe_sorted, sort_sorted.
  - intros t. apply sort_stable.
  - exact Hstamped.
  - intros t. rewrite Hstamped. apply dedupe_subseq.
Qed.

End ParseFacts.

(* ================================================================== *)
(** * Facts about the accumulator *)
(* ================================================================== *)

Module FightFacts.

Import Log.
Import Fight.

(** ** Figures *)

Ltac agg_solve :=
  unfold aggEq, aggPlus, zero; simpl;
  (split; [|split]); [try ring | try lia | try lia].

Ltac agg_base := (split; [|split]); reflexivity.

Lemma aggEq_refl (a : PerActor) : aggEq a a.
Proof. repeat split; reflexivity. Qed.

Lemma aggEq_sym (a b : PerActor) : aggEq a b -> aggEq b a.
Proof. intros (H1 & H2 & H3). repeat split; now symmetry. Qed.

Lemma aggEq_trans (a b c : PerActor) : aggEq a b -> aggEq b c -> aggEq a c.
Proof.
  intros (H1 & H2 & H3) (H4 & H5 & H6).
  repeat split; [now rewrite H1 | congruence | congruence].
Qed.

Lemma aggPlus_eq (a a' b b' : PerActor) :
  aggEq a a' -> aggEq b b' -> aggEq (aggPlus a b) (aggPlus a' b').
Proof.
  intros (H1 & H2 & H3) (H4 & H5 & H6). unfold aggPlus.
  repeat split; simpl; [now rewrite H1, H4 | congruence | congruence].
Qed.

Lemma aggPlus_zero_r (a : PerActor) : aggEq (aggPlus a zero) a.
Proof. agg_solve. Qed.

Lemma aggPlus_zero_l (a : PerActor) : aggEq (aggPlus zero a) a.
Proof. agg_solve. Qed.

Lemma aggPlus_assoc (a b c : PerActor) :
  aggEq (aggPlus (aggPlus a b) c) (aggPlus a (aggPlus b c)).
Proof. agg_solve. Qed.

(** ** The map *)

Lemma mapGet_mapSet_same (map : ActorMap) (name : string) (v : PerActor) :
  mapGet (mapSet map name v) name = Some v.
Proof.
  induction map as [|[k w] map IH]; simpl.
  - now rewrite String.eqb_refl.
  - destruct (String.eqb k name) eqn:E; simpl; rewrite E; [reflexivity | exact IH].
Qed.

Lemma mapGet_mapSet_other (map : ActorMap) (name n : string) (v : PerActor) :
  name <> n -> mapGet (mapSet map name v) n = mapGet map n.
Proof.
  intros Hne. induction map as [|[k w] map IH]; simpl.
  - destruct (String.eqb_spec name n); [contradiction | reflexivity].
  - destruct (String.eqb_spec k name) as [->|Hk]; simpl.
    + destruct (String.eqb_spec name n); [contradiction | reflexivity].
    + destruct (String.eqb k n); [reflexivity | exact IH].
Qed.

Lemma getOrZero_mapSet_same (map : ActorMap) (name : string) (v : PerActor) :
  getOrZero (mapSet map name v) name = v.
Proof. unfold getOrZero. now rewrite mapGet_mapSet_same. Qed.

Lemma getOrZero_mapSet_other (map : ActorMap) (name n : string) (v : PerActor) :
  name <> n -> getOrZero (mapSet map name v) n = getOrZero map n.
Proof. intros H. unfold getOrZero. now rewrite mapGet_mapSet_other. Qed.

Lemma mapSet_keys (map : ActorMap) (name n : string) (v : PerActor) :
  In n (List.map fst (mapSet map name v)) ->
  n = name \/ In n (List.map fst map).
Proof.
  induction map as [|[k w] map IH]; simpl.
  - intros [<-|[]]. now left.
  - destruct (String.eqb k name); simpl.
    + intros [<-|H]; right; [now left | now right].
    + intros [<-|H]; [right; now left|].
      destruct (IH H) as [->|Hin]; [now left | right; now right].
Qed.

Lemma mapSet_NoDup (map : ActorMap) (name : string) (v : PerActor) :
  NoDup (List.map fst map) -> NoDup (List.map fst (mapSet map name v)).
Proof.
  induction map as [|[k w] map IH]; simpl; intros Hnd.
  - constructor; [intros [] | constructor].
  - apply NoDup_cons_iff in Hnd as [Hk Hnd].
    destruct (String.eqb_spec k name) as [->|Hne]; simpl.
    + now constructor.
    + constructor; [|now apply IH].
      intros Hin. apply mapSet_keys in Hin as [->|Hin]; [congruence | auto].
Qed.

Lemma mapGet_In (map : ActorMap) (name : string) (v : PerActor) :
  NoDup (List.map fst map) -> In (name, v) map -> mapGet map name = Some v.
Proof.
  induction map as [|[k w] map IH]; simpl; intros Hnd Hin; [destruct Hin|].
  apply NoDup_cons_iff in Hnd as [Hk Hnd].
  destruct Hin as [Heq|Hin].
  - inversion Heq; subst. now rewrite String.eqb_refl.
  - destruct (String.eqb_spec k name) as [->|Hne]; [|now apply IH].
    exfalso. apply Hk. apply in_map_iff. now exists (name, v).
Qed.

Lemma sumDamage_mapSet (map : ActorMap) (name : string) (v : PerActor) :
  sumDamage (mapSet map name v) + damage (getOrZero map name)
  == sumDamage map + damage v.
Proof.
  unfold sumDamage, getOrZero.
  induction map as [|[k w] map IH]; simpl.
  - ring.
  - destruct (String.eqb k name); simpl; [ring|].
    rewrite <- Qplus_assoc, IH. ring.
Qed.

(** ** Loops that add a contribution under a key *)

Section Contributions.

Context {X : Type}.
Variable key : X -> string.
Variable share : X -> PerActor.
Variable step : ActorMap -> X -> ActorMap.

(** Each turn either leaves the map alone, having nothing to add, or
    stores the old figures of the key plus the share of the item. *)
Hypothesis step_adds : forall map x,
  (step map x = map /\ aggEq (share x) zero)
  \/ exists v, step map x = mapSet map (key x) v
               /\ aggEq v (aggPlus (getOrZero map (key x)) (share x)).

Lemma step_same (map : ActorMap) (x : X) :
  aggEq (getOrZero (step map x) (key x))
        (aggPlus (getOrZero map (key x)) (share x)).
Proof.
  destruct (step_adds map x) as [[-> Hz]|(v & -> & Hv)].
  - apply aggEq_sym.
    apply (aggEq_trans _ (aggPlus (getOrZero map (key x)) zero)).
    + apply aggPlus_eq; [apply aggEq_refl | exact Hz].
    + apply aggPlus_zero_r.
  - now rewrite getOrZero_mapSet_same.
Qed.

Lemma step_other (map : ActorMap) (x : X) (n : string) :
  key x <> n -> getOrZero (step map x) n = getOrZero map n.
Proof.
  intros Hne. destruct (step_adds map x) as [[-> _]|(v & -> & _)].
  - reflexivity.
  - now apply getOrZero_mapSet_other.
Qed.

Lemma step_sum (map : ActorMap) (x : X) :
  sumDamage (step map x) == sumDamage map + damage (share x).
Proof.
  destruct (step_adds map x) as [[-> (Hz & _)]|(v & -> & (Hv & _))].
  - rewrite Hz. simpl. ring.
  - pose proof (sumDamage_mapSet map (key x) v) as H.
    simpl in Hv. rewrite Hv in H.
    apply (Qplus_inj_r _ _ (damage (getOrZero map (key x)))).
    rewrite H. ring.
Qed.

Lemma fold_get (l : list X) : forall (map : ActorMap) (n : string),
  aggEq (getOrZero (fold_left step l map) n)
        (aggPlus (getOrZero map n)
           (sumAgg (List.map share
                      (filter (fun x => String.eqb (key x) n) l)))).
Proof.
  induction l as [|x l IH]; intros map n; simpl.
  - apply aggEq_sym, aggPlus_zero_r.
  - eapply aggEq_trans; [apply IH|].
    destruct (String.eqb_spec (key x) n) as [<-|Hne]; simpl.
    + set (rest := sumAgg (List.map share
                               (filter (fun y => String.eqb (key y) (key x)) l))).
      apply (aggEq_trans _
               (aggPlus (aggPlus (getOrZero map (key x)) (share x)) rest)).
      * apply aggPlus_eq; [apply step_same | apply aggEq_refl].
      * apply aggPlus_assoc.
    + rewrite (step_other _ _ _ Hne). apply aggEq_refl.
Qed.

Lemma fold_sum (l : list X) : forall map : ActorMap,
  sumDamage (fold_left step l map)
  == sumDamage map + damage (sumAgg (List.map share l)).
Proof.
  induction l as [|x l IH]; intros map; simpl.
  - ring.
  - rewrite IH, step_sum. ring.
Qed.

Lemma fold_NoDup (l : list X) : forall map : ActorMap,
  NoDup (List.map fst map) -> NoDup (List.map fst (fold_left step l map)).
Proof.
  induction l as [|x l IH]; intros map Hnd; [exact Hnd|].
  cbn [fold_left]. apply IH.
  destruct (step_adds map x) as [[-> _]|(v & -> & _)];
    [exact Hnd | now apply mapSet_NoDup].
Qed.

End Contributions.


(** ** [normalizeActor] and [fmt1] on samples *)

Example normalizeActor_samples :
  normalizeActor "[Clan] Rogar" = "Rogar"%string
  /\ normalizeActor "  [Knight of the Rose]   Mira" = "Mira"%string
  /\ normalizeActor "Rogar" = "Rogar"%string
  /\ normalizeActor "Rogar [Clan]" = "Rogar [Clan]"%string
  /\ normalizeActor "[unclosed Rogar" = "[unclosed Rogar"%string.
Proof. repeat split. Qed.

Example fmt1_samples :
  fmt1 12 = "12"%string
  /\ fmt1 (1234 # 100) = "12.3"%string
  /\ fmt1 (5 # 100) = "0.1"%string
  /\ fmt1 (- (25 # 100)) = "-0.2"%string
  /\ fmt1 0 = "0"%string.
Proof. repeat split. Qed.

(** ** The loop bodies *)

Lemma addRow_adds (map : ActorMap) (r : DamageActorRow) :
  (addRow map r = map /\ aggEq (rowShare r) zero)
  \/ exists v, addRow map r = mapSet map (actorName r) v
               /\ aggEq v (aggPlus (getOrZero map (actorName r)) (rowShare r)).
Proof. right. eexists. split; [reflexivity|]. agg_solve. Qed.

Lemma addHit_adds (map : ActorMap) (ev : DamageEvent) :
  (addHit map ev = map /\ aggEq (hitShare ev) zero)
  \/ exists v, addHit map ev = mapSet map (sourceName ev) v
               /\ aggEq v (aggPlus (getOrZero map (sourceName ev)) (hitShare ev)).
Proof.
  right. eexists. split; [reflexivity|].
  unfold hitShare. destruct (isHit ev); agg_solve.
Qed.

Lemma addMiss_adds (map : ActorMap) (ev : DamageEvent) :
  (addMiss map ev = map /\ aggEq (missShare ev) zero)
  \/ exists v, addMiss map ev = mapSet map (sourceName ev) v
               /\ aggEq v (aggPlus (getOrZero map (sourceName ev)) (missShare ev)).
Proof.
  unfold addMiss, missShare. destruct (isMiss ev).
  - right. eexists. split; [reflexivity|]. agg_solve.
  - left. split; [reflexivity | apply aggEq_refl].
Qed.

Lemma addEventLine_adds (hasBySource : bool) (per : ActorMap) (ev : DamageEvent) :
  (addEventLine hasBySource per ev = per /\ aggEq (lineShare hasBySource ev) zero)
  \/ exists v, addEventLine hasBySource per ev = mapSet per (sourceName ev) v
               /\ aggEq v (aggPlus (getOrZero per (sourceName ev))
                             (lineShare hasBySource ev)).
Proof.
  right. eexists. split; [reflexivity|].
  unfold lineShare, hitShare, missShare.
  destruct hasBySource, (isHit ev), (isMiss ev); agg_solve.
Qed.

(** ** Sums of shares *)

Lemma count_cons {A} (f : A -> bool) (x : A) (l : list A) :
  count f (x :: l) = ((if f x then 1 else 0) + count f l)%Z.
Proof. unfold count. cbn [filter]. destruct (f x); cbn [List.length]; lia. Qed.

Lemma sumAgg_cons {X} (f : X -> PerActor) (x : X) (l : list X) :
  sumAgg (map f (x :: l)) = aggPlus (f x) (sumAgg (map f l)).
Proof. reflexivity. Qed.

Lemma rowsDamage_cons (r : DamageActorRow) (l : list DamageActorRow) :
  rowsDamage (r :: l) = orZeroQ (totalAsSource r) + rowsDamage l.
Proof. reflexivity. Qed.

Lemma rowsHits_cons (r : DamageActorRow) (l : list DamageActorRow) :
  rowsHits (r :: l) = (orZeroZ (countAsSource r) + rowsHits l)%Z.
Proof. reflexivity. Qed.

Lemma eventsDamage_cons (ev : DamageEvent) (l : list DamageEvent) :
  eventsDamage (ev :: l)
  = if isHit ev then orZeroQ (amount ev) + eventsDamage l else eventsDamage l.
Proof. unfold eventsDamage. cbn [filter]. destruct (isHit ev); reflexivity. Qed.

(** Splits a goal on figures into its three components, with the
    components of the induction hypothesis rewritten in. *)
Ltac agg_step IH :=
  let H1 := fresh "Hd" in
  let H2 := fresh "Hh" in
  let H3 := fresh "Hm" in
  destruct IH as (H1 & H2 & H3);
  unfold aggEq, aggPlus, zero in *; cbn [damage hits misses] in *;
  (split; [|split]); rewrite ?H1, ?H2, ?H3; try ring; try lia.

Lemma sumAgg_rows (l : list DamageActorRow) :
  aggEq (sumAgg (map rowShare l))
        {| damage := rowsDamage l; hits := rowsHits l; misses := 0 |}.
Proof.
  induction l as [|r l IH]; [agg_base|].
  rewrite sumAgg_cons, rowsDamage_cons, rowsHits_cons.
  unfold rowShare at 1. agg_step IH.
Qed.

Lemma sumAgg_hits (l : list DamageEvent) :
  aggEq (sumAgg (map hitShare l))
        {| damage := eventsDamage l; hits := eventsHits l; misses := 0 |}.
Proof.
  induction l as [|ev l IH]; [agg_base|].
  rewrite sumAgg_cons, eventsDamage_cons. unfold eventsHits in *.
  rewrite count_cons. unfold hitShare at 1.
  destruct (isHit ev); agg_step IH.
Qed.

Lemma sumAgg_misses (l : list DamageEvent) :
  aggEq (sumAgg (map missShare l))
        {| damage := 0; hits := 0; misses := eventsMisses l |}.
Proof.
  induction l as [|ev l IH]; [agg_base|].
  rewrite sumAgg_cons. unfold eventsMisses in *.
  rewrite count_cons. unfold missShare at 1.
  destruct (isMiss ev); agg_step IH.
Qed.

Lemma sumAgg_zero {X} (l : list X) :
  aggEq (sumAgg (map (fun _ => zero) l)) zero.
Proof.
  induction l as [|x l IH]; [agg_base|].
  rewrite sumAgg_cons. agg_step IH.
Qed.

Lemma sumAgg_plus {X} (f g : X -> PerActor) (l : list X) :
  aggEq (sumAgg (map (fun x => aggPlus (f x) (g x)) l))
        (aggPlus (sumAgg (map f l)) (sumAgg (map g l))).
Proof.
  induction l as [|x l IH]; [agg_base|].
  rewrite !sumAgg_cons. agg_step IH.
Qed.

Lemma sumAgg_lines (hasBySource : bool) (l : list DamageEvent) :
  aggEq (sumAgg (map (lineShare hasBySource) l))
        {| damage := if hasBySource then 0 else eventsDamage l;
           hits := if hasBySource then 0%Z else eventsHits l;
           misses := eventsMisses l |}.
Proof.
  unfold lineShare.
  eapply aggEq_trans; [apply sumAgg_plus|].
  pose proof (sumAgg_misses l) as M.
  destruct hasBySource.
  - pose proof (sumAgg_zero l) as Z. destruct Z as (Z1 & Z2 & Z3).
    agg_step M; rewrite ?Z1, ?Z2, ?Z3; simpl; try ring; try lia.
  - pose proof (sumAgg_hits l) as Z. destruct Z as (Z1 & Z2 & Z3).
    change (fun x : DamageEvent => hitShare x) with hitShare.
    agg_step M; rewrite ?Z1, ?Z2, ?Z3; simpl; try ring; try lia.
Qed.

Lemma fold_left_sumQ {X} (f : X -> Q) (l : list X) : forall a : Q,
  fold_left (fun s r => s + f r) l a == a + sumQ (map f l).
Proof.
  induction l as [|x l IH]; intros a; simpl; [ring|].
  rewrite IH. ring.
Qed.

Lemma fold_left_sumZ {X} (f : X -> Z) (l : list X) : forall a : Z,
  fold_left (fun s r => (s + f r)%Z) l a = (a + sumZ (map f l))%Z.
Proof.
  induction l as [|x l IH]; intros a; simpl; [lia|].
  rewrite IH. lia.
Qed.

Lemma fold_addHitTotal (l : list DamageEvent) : forall t : PerActor,
  aggEq (fold_left addHitTotal l t) (aggPlus t (sumAgg (map hitShare l))).
Proof.
  induction l as [|ev l IH]; intros t; cbn [fold_left].
  - apply aggEq_sym, aggPlus_zero_r.
  - eapply aggEq_trans; [apply IH|].
    rewrite sumAgg_cons. unfold addHitTotal, hitShare.
    destruct (isHit ev); unfold aggEq, aggPlus, zero;
      cbn [damage hits misses]; (split; [|split]); try ring; try lia.
Qed.

Lemma hasItems_false {X} (o : option (list X)) :
  hasItems o = false -> itemsOf o = [].
Proof. destruct o as [[|x l]|]; simpl; congruence. Qed.


(** ** [addRoundToActors] *)

Lemma addRoundToActors_loops (p : DamagePayload) (map : ActorMap) :
  addRoundToActors p map
  = fold_left addMiss (itemsOf (events p))
      (if hasItems (bySource p)
       then fold_left addRow (itemsOf (bySource p)) map
       else fold_left addHit (itemsOf (events p)) map).
Proof.
  unfold addRoundToActors.
  destruct (hasItems (events p)) eqn:He; [reflexivity|].
  rewrite (hasItems_false _ He). reflexivity.
Qed.

Lemma addRoundToActors_get (p : DamagePayload) (map : ActorMap) (n : string) :
  aggEq (getOrZero (addRoundToActors p map) n)
        (aggPlus (getOrZero map n) (actorFigures p n)).
Proof.
  rewrite addRoundToActors_loops. unfold actorFigures, derived.
  set (rows := filter (fun r => String.eqb (actorName r) n)
                 (itemsOf (bySource p))).
  set (evs := filter (fun ev => String.eqb (sourceName ev) n)
                (itemsOf (events p))).
  pose proof (sumAgg_misses evs) as M.
  eapply aggEq_trans;
    [apply (fold_get sourceName missShare addMiss addMiss_adds)|].
  fold evs. destruct (hasItems (bySource p)).
  - pose proof (fold_get actorName rowShare addRow addRow_adds
                  (itemsOf (bySource p)) map n) as G.
    fold rows in G. pose proof (sumAgg_rows rows) as R.
    destruct G as (G1 & G2 & G3), R as (R1 & R2 & R3).
    agg_step M; rewrite ?G1, ?G2, ?G3; cbn [damage hits misses];
      rewrite ?R1, ?R2, ?R3; try ring; try lia.
  - pose proof (fold_get sourceName hitShare addHit addHit_adds
                  (itemsOf (events p)) map n) as G.
    fold evs in G. pose proof (sumAgg_hits evs) as R.
    destruct G as (G1 & G2 & G3), R as (R1 & R2 & R3).
    agg_step M; rewrite ?G1, ?G2, ?G3; cbn [damage hits misses];
      rewrite ?R1, ?R2, ?R3; try ring; try lia.
Qed.

Lemma addRoundToActors_sum (p : DamagePayload) (map : ActorMap) :
  sumDamage (addRoundToActors p map)
  == sumDamage map
     + (if hasItems (bySource p) then rowsDamage (itemsOf (bySource p))
        else eventsDamage (itemsOf (events p))).
Proof.
  rewrite addRoundToActors_loops.
  rewrite (fold_sum sourceName missShare addMiss addMiss_adds).
  destruct (sumAgg_misses (itemsOf (events p))) as (M1 & _). rewrite M1.
  destruct (hasItems (bySource p)).
  - rewrite (fold_sum actorName rowShare addRow addRow_adds).
    destruct (sumAgg_rows (itemsOf (bySource p))) as (R1 & _). rewrite R1.
    simpl. ring.
  - rewrite (fold_sum sourceName hitShare addHit addHit_adds).
    destruct (sumAgg_hits (itemsOf (events p))) as (R1 & _). rewrite R1.
    simpl. ring.
Qed.

(** ** [addRoundToTotals] *)

Lemma addRoundToTotals_adds (p : DamagePayload) (t : PerActor) :
  aggEq (addRoundToTotals p t) (aggPlus t (roundTotals p)).
Proof.
  unfold addRoundToTotals, roundTotals, statedTotals, derived, roundMisses.
  destruct (hasItems (bySource p)) eqn:Hb; cbn [orb].
  - pose proof (fold_left_sumQ (fun r => orZeroQ (totalAsSource r))
                  (itemsOf (bySource p)) 0) as Fq.
    pose proof (fold_left_sumZ (fun r => orZeroZ (countAsSource r))
                  (itemsOf (bySource p)) 0%Z) as Fz.
    fold (rowsDamage (itemsOf (bySource p))) in Fq.
    fold (rowsHits (itemsOf (bySource p))) in Fz.
    cbv beta in Fq, Fz.
    destruct (hasItems (events p)); [|destruct (Log.misses p)];
      unfold aggEq, aggPlus, eventsMisses, count;
      cbn [damage hits misses]; rewrite ?Fq, ?Fz; cbn [orZeroZ];
      (split; [|split]); try ring; try lia.
  - destruct (hasItems (events p)) eqn:He.
    + pose proof (fold_addHitTotal (itemsOf (events p)) t) as F.
      pose proof (sumAgg_hits (itemsOf (events p))) as R.
      destruct R as (R1 & R2 & R3).
      unfold eventsMisses, count in *.
      agg_step F; cbn [damage hits misses]; rewrite ?R1, ?R2, ?R3;
        try ring; try lia.
    + destruct (Log.misses p);
        unfold aggEq, aggPlus; cbn [damage hits misses orZeroZ];
        (split; [|split]); try ring; try lia.
Qed.

(** Where the round's rollup and its rows disagree, the earlier revision
    followed the rollup and the current one follows the rows. *)
Example earlier_revision_used_rollups :
  damage (addRoundToTotalsEarlier mismatchedRound zero) == 99
  /\ damage (addRoundToTotals mismatchedRound zero) == 10
  /\ sumDamage (addRoundToActors mismatchedRound []) == 10.
Proof. repeat split. Qed.

(** ** [buildRoundPerSourceLines] *)

Lemma roundPerSource_loops (p : DamagePayload) :
  roundPerSource p
  = fold_left (addEventLine (hasItems (bySource p))) (itemsOf (events p))
      (if hasItems (bySource p)
       then fold_left addRow (itemsOf (bySource p)) [] else []).
Proof.
  unfold roundPerSource.
  destruct (hasItems (events p)) eqn:He; [reflexivity|].
  rewrite (hasItems_false _ He). reflexivity.
Qed.

Lemma roundPerSource_get (p : DamagePayload) (n : string) :
  aggEq (getOrZero (roundPerSource p) n) (actorFigures p n).
Proof.
  rewrite roundPerSource_loops. unfold actorFigures, derived.
  set (rows := filter (fun r => String.eqb (actorName r) n)
                 (itemsOf (bySource p))).
  set (evs := filter (fun ev => String.eqb (sourceName ev) n)
                (itemsOf (events p))).
  eapply aggEq_trans;
    [apply (fold_get sourceName (lineShare (hasItems (bySource p)))
              (addEventLine (hasItems (bySource p)))
              (addEventLine_adds (hasItems (bySource p))))|].
  fold evs. pose proof (sumAgg_lines (hasItems (bySource p)) evs) as L.
  destruct (hasItems (bySource p)).
  - pose proof (fold_get actorName rowShare addRow addRow_adds
                  (itemsOf (bySource p)) [] n) as G.
    fold rows in G. pose proof (sumAgg_rows rows) as R.
    destruct G as (G1 & G2 & G3), R as (R1 & R2 & R3).
    agg_step L; rewrite ?G1, ?G2, ?G3; cbn [damage hits misses];
      rewrite ?R1, ?R2, ?R3; unfold getOrZero; simpl; try ring; try lia.
  - agg_step L; unfold getOrZero; simpl; try ring; try lia.
Qed.

Lemma roundPerSource_NoDup (p : DamagePayload) :
  NoDup (List.map fst (roundPerSource p)).
Proof.
  rewrite roundPerSource_loops.
  apply (fold_NoDup sourceName (lineShare (hasItems (bySource p)))
           (addEventLine (hasItems (bySource p)))
           (addEventLine_adds (hasItems (bySource p)))).
  destruct (hasItems (bySource p)); [|constructor].
  apply (fold_NoDup actorName rowShare addRow addRow_adds). constructor.
Qed.

Lemma buildRoundPerSourceLines_figures (p : DamagePayload) :
  NoDup (List.map fst (buildRoundPerSourceLines p))
  /\ forall (name : string) (agg : PerActor),
       In (name, agg) (buildRoundPerSourceLines p) ->
       aggEq agg (actorFigures p name).
Proof.
  pose proof (JsSortFacts.sort_perm byDamageThenHits (roundPerSource p)) as Hp.
  fold (buildRoundPerSourceLines p) in Hp.
  pose proof (roundPerSource_NoDup p) as Hnd. split.
  - apply (Permutation_NoDup (Permutation_map fst Hp) Hnd).
  - intros name agg Hin.
    apply (Permutation_in _ (Permutation_sym Hp)) in Hin.
    pose proof (roundPerSource_get p name) as Hg.
    unfold getOrZero in Hg. now rewrite (mapGet_In _ _ _ Hnd Hin) in Hg.
Qed.

End FightFacts.

(* ================================================================== *)
(** * Facts about the playback effect *)
(* ================================================================== *)

Module PlaybackFacts.

Import Log.
Import Fight.
Import FightFacts.
Import Playback.

(** ** Flushing *)

Lemma Qltb_true (x y : Q) : Qltb x y = true <-> x < y.
Proof.
  unfold Qltb. rewrite negb_true_iff. split.
  - intros H. apply Qnot_le_lt. intros Hle.
    apply Qle_bool_iff in Hle. congruence.
  - intros H. destruct (Qle_bool y x) eqn:E; [|reflexivity].
    apply Qle_bool_iff in E. exfalso. exact (Qlt_not_le _ _ H E).
Qed.

Lemma Qltb_false (x y : Q) : Qltb x y = false <-> y <= x.
Proof.
  unfold Qltb. rewrite negb_false_iff. apply Qle_bool_iff.
Qed.

Lemma fightOpen_not_empty (st : State) :
  fightOpen st = true -> fightEmpty st = false.
Proof.
  unfold fightOpen, fightEmpty. intros H.
  apply orb_true_iff in H as [H|H];
    [apply orb_true_iff in H as [H|H];
       [apply orb_true_iff in H as [H|H]|]|].
  - apply negb_true_iff in H. now rewrite H.
  - apply Qltb_true in H.
    destruct (Qeq_bool (damage (totals st)) 0) eqn:E.
    + apply Qeq_bool_eq in E. rewrite E in H.
      exfalso. exact (Qlt_irrefl _ H).
    + now rewrite andb_false_r.
  - destruct (Z.eqb_spec (hits (totals st)) 0) as [E|_].
    + rewrite E in H. discriminate.
    + now rewrite andb_false_r.
  - destruct (Z.eqb_spec (misses (totals st)) 0) as [E|_].
    + rewrite E in H. discriminate.
    + now rewrite andb_false_r.
Qed.

Lemma not_empty_fightOpen (st : State) :
  0 <= damage (totals st) ->
  (0 <= hits (totals st))%Z -> (0 <= misses (totals st))%Z ->
  fightEmpty st = false -> fightOpen st = true.
Proof.
  unfold fightOpen, fightEmpty. intros Hd Hh Hm H.
  destruct (Nat.eqb (List.length (byActor st)) 0); [|reflexivity].
  cbn [negb orb andb] in *.
  destruct (Qeq_bool (damage (totals st)) 0) eqn:Ed.
  - destruct (Z.eqb_spec (hits (totals st)) 0) as [Eh|Eh].
    + destruct (Z.eqb_spec (misses (totals st)) 0) as [Em|Em];
        [discriminate|].
      assert (Hpos : (0 <? misses (totals st))%Z = true)
        by (apply Z.ltb_lt; lia).
      rewrite Hpos. now rewrite !orb_true_r.
    + assert (Hpos : (0 <? hits (totals st))%Z = true)
        by (apply Z.ltb_lt; lia).
      rewrite Hpos. now rewrite !orb_true_r.
  - assert (Hpos : Qltb 0 (damage (totals st)) = true).
    { apply Qltb_true. apply Qle_lteq in Hd as [Hlt|Heq]; [exact Hlt|].
      apply Qeq_bool_neq in Ed. exfalso. apply Ed. now symmetry. }
    now rewrite Hpos.
Qed.

Lemma flush_open (st : State) :
  fightOpen st = true -> flushFightSummary st = (cleared st, summaryLines st).
Proof.
  intros H. unfold flushFightSummary.
  now rewrite (fightOpen_not_empty _ H).
Qed.

Lemma fightOpen_cleared (st : State) : fightOpen (cleared st) = false.
Proof. reflexivity. Qed.

Lemma processEntry_round (st : State) (curTs : Z) (p : DamagePayload) :
  processEntry (Damage curTs (Some p)) st
  = if gapReached st curTs && fightOpen st
    then (accumulated p curTs (cleared st),
          summaryLines st ++ roundLines p ++ [LBlank; LBlank])
    else (accumulated p curTs st, roundLines p ++ [LBlank; LBlank]).
Proof.
  unfold processEntry.
  destruct (gapReached st curTs) eqn:Eg; [|reflexivity].
  destruct (fightOpen st) eqn:Eo; [|reflexivity].
  cbn [andb]. now rewrite (flush_open _ Eo).
Qed.

Lemma flushedFirst_round (p : DamagePayload) (tail : list Line) :
  flushedFirst (roundLines p ++ tail) = false.
Proof. reflexivity. Qed.

Lemma flushedFirst_summary (st : State) (tail : list Line) :
  flushedFirst (summaryLines st ++ tail) = true.
Proof. reflexivity. Qed.

(** ** Counting lines *)

Lemma summaries_app (a b : list Line) :
  summaries (a ++ b) = (summaries a + summaries b)%nat.
Proof. unfold summaries. now rewrite filter_app, length_app. Qed.

Lemma roundHeaders_app (a b : list Line) :
  roundHeaders (a ++ b) = (roundHeaders a + roundHeaders b)%nat.
Proof. unfold roundHeaders. now rewrite filter_app, length_app. Qed.

Lemma filter_rows {X} (f : Line -> bool) (g : X -> Line) (l : list X) :
  (forall x, f (g x) = false) -> filter f (map g l) = [].
Proof.
  intros H. induction l as [|x l IH]; simpl; [reflexivity|].
  now rewrite H.
Qed.

Lemma summaries_roundLines (p : DamagePayload) : summaries (roundLines p) = 0%nat.
Proof.
  unfold summaries, roundLines. cbn [filter isSummaryHeader].
  destruct (buildRoundPerSourceLines p) as [|l ls]; [reflexivity|].
  cbn [filter isSummaryHeader]. now rewrite filter_rows.
Qed.

Lemma roundHeaders_roundLines (p : DamagePayload) :
  roundHeaders (roundLines p) = 1%nat.
Proof.
  unfold roundHeaders, roundLines. cbn [filter isRoundHeader].
  destruct (buildRoundPerSourceLines p) as [|l ls]; [reflexivity|].
  cbn [filter isRoundHeader]. now rewrite filter_rows.
Qed.

Lemma summaries_summaryLines (st : State) : summaries (summaryLines st) = 1%nat.
Proof.
  unfold summaries, summaryLines. cbn [filter isSummaryHeader].
  rewrite filter_app, filter_rows; reflexivity.
Qed.

Lemma roundHeaders_summaryLines (st : State) :
  roundHeaders (summaryLines st) = 0%nat.
Proof.
  unfold roundHeaders, summaryLines. cbn [filter isRoundHeader].
  rewrite filter_app, filter_rows; reflexivity.
Qed.


(** ** The loop over the entries *)

Lemma skipn_nth (entries : list LogEntry) : forall (i : nat) (e : LogEntry),
  nth_error entries i = Some e -> skipn i entries = e :: skipn (S i) entries.
Proof.
  induction entries as [|x entries IH]; intros [|i] e H; simpl in *;
    try discriminate.
  - now inversion H.
  - now apply IH.
Qed.

Lemma emitLoop_processAll (entries : list LogEntry) (count : nat) :
  forall (i : nat) (st : State),
    (i + count <= List.length entries)%nat ->
    emitLoop entries count i st
    = processAll (firstn count (skipn i entries)) st.
Proof.
  induction count as [|count IH]; intros i st Hlen; [reflexivity|].
  cbn [emitLoop].
  destruct (nth_error entries i) as [e|] eqn:En.
  - rewrite (skipn_nth _ _ _ En). cbn [firstn processAll].
    destruct (processEntry e st) as [st1 out1].
    rewrite IH by lia. reflexivity.
  - apply nth_error_None in En. lia.
Qed.

Lemma visibleEnd_le (entries : list LogEntry) (cutoff : Q) :
  (visibleEnd entries cutoff <= List.length entries)%nat.
Proof.
  induction entries as [|e entries IH]; simpl; [lia|].
  destruct (Qltb cutoff (inject_Z (getTime e))); simpl; lia.
Qed.

Lemma visibleEnd_before (entries : list LogEntry) (cutoff : Q) :
  forall (i : nat) (e : LogEntry),
    (i < visibleEnd entries cutoff)%nat -> nth_error entries i = Some e ->
    inject_Z (getTime e) <= cutoff.
Proof.
  induction entries as [|x entries IH]; intros i e Hi He; simpl in *; [lia|].
  destruct (Qltb cutoff (inject_Z (getTime x))) eqn:E; [lia|].
  destruct i as [|i]; simpl in He.
  - inversion He; subst. now apply Qltb_false.
  - apply (IH i); [lia | exact He].
Qed.

Lemma visibleEnd_at (entries : list LogEntry) (cutoff : Q) (e : LogEntry) :
  nth_error entries (visibleEnd entries cutoff) = Some e ->
  cutoff < inject_Z (getTime e).
Proof.
  induction entries as [|x entries IH]; simpl; [discriminate|].
  destruct (Qltb cutoff (inject_Z (getTime x))) eqn:E; simpl.
  - intros H. inversion H; subst. now apply Qltb_true.
  - exact IH.
Qed.

Lemma emitNew_processAll (entries : list LogEntry) (endIdx : nat) (st : State) :
  (endIdx <= List.length entries)%nat ->
  emitNew entries endIdx st
  = (setLastIndex (fst (processAll (slice entries (lastIndex st) endIdx) st))
       endIdx,
     snd (processAll (slice entries (lastIndex st) endIdx) st)).
Proof.
  intros Hle. unfold emitNew, slice.
  destruct (Nat.le_gt_cases (lastIndex st) endIdx) as [Hin|Hout].
  - rewrite emitLoop_processAll by lia.
    now destruct (processAll _ st).
  - replace (endIdx - lastIndex st)%nat with 0%nat by lia. reflexivity.
Qed.

Lemma processEntry_flushedFinal (e : LogEntry) (st : State) :
  flushedFinal (fst (processEntry e st)) = flushedFinal st.
Proof.
  destruct e as [ts m|ts [p|]]; try reflexivity.
  rewrite processEntry_round.
  destruct (gapReached st ts && fightOpen st); reflexivity.
Qed.

Lemma processAll_flushedFinal (entries : list LogEntry) : forall st : State,
  flushedFinal (fst (processAll entries st)) = flushedFinal st.
Proof.
  induction entries as [|e entries IH]; intros st; [reflexivity|].
  cbn [processAll].
  pose proof (processEntry_flushedFinal e st) as H.
  destruct (processEntry e st) as [st1 out1].
  specialize (IH st1). destruct (processAll entries st1) as [st2 out2].
  simpl in *. congruence.
Qed.

Lemma processEntry_roundHeaders (e : LogEntry) (st : State) :
  roundHeaders (snd (processEntry e st)) = if isRound e then 1%nat else 0%nat.
Proof.
  destruct e as [ts m|ts [p|]]; try reflexivity.
  rewrite processEntry_round.
  destruct (gapReached st ts && fightOpen st); cbn [snd isRound];
    rewrite !roundHeaders_app, ?roundHeaders_summaryLines,
      roundHeaders_roundLines; reflexivity.
Qed.

Lemma processAll_roundHeaders (entries : list LogEntry) : forall st : State,
  roundHeaders (snd (processAll entries st))
  = List.length (filter isRound entries).
Proof.
  induction entries as [|e entries IH]; intros st; [reflexivity|].
  cbn [processAll filter].
  pose proof (processEntry_roundHeaders e st) as H.
  destruct (processEntry e st) as [st1 out1].
  specialize (IH st1). destruct (processAll entries st1) as [st2 out2].
  cbn [snd] in *. rewrite roundHeaders_app, H, IH.
  destruct (isRound e); reflexivity.
Qed.

(** ** Rounds of one fight *)

Lemma gapReached_false (st : State) (curTs : Z) :
  match lastDamageTs st with
  | Some prev => (curTs - prev < FIVE_MIN_MS)%Z
  | None => True
  end -> gapReached st curTs = false.
Proof.
  unfold gapReached. destruct (lastDamageTs st) as [prev|]; [|reflexivity].
  intros H. rewrite Z.geb_leb. apply Z.leb_gt. exact H.
Qed.

Lemma processAll_gapFree (rounds : list Round) : forall st : State,
  gapFreeFrom (lastDamageTs st) rounds ->
  summaries (snd (processAll (roundEntries rounds) st)) = 0%nat
  /\ byActor (fst (processAll (roundEntries rounds) st))
     = fold_left (fun m r => addRoundToActors (snd r) m) rounds (byActor st)
  /\ totals (fst (processAll (roundEntries rounds) st))
     = fold_left (fun t r => addRoundToTotals (snd r) t) rounds (totals st).
Proof.
  induction rounds as [|[ts p] rounds IH]; intros st Hgap.
  - repeat split.
  - destruct Hgap as [Hfirst Hrest]. cbn [fst snd] in Hfirst, Hrest.
    cbn [roundEntries map processAll fst snd fold_left].
    rewrite processEntry_round, (gapReached_false _ _ Hfirst). cbn [andb].
    specialize (IH (accumulated p ts st) Hrest).
    fold (roundEntries rounds).
    destruct (processAll (roundEntries rounds) (accumulated p ts st))
      as [st2 out2].
    cbn [fst snd] in *. destruct IH as (H1 & H2 & H3).
    split; [|split; assumption].
    rewrite !summaries_app, summaries_roundLines, H1. reflexivity.
Qed.

(** ** The sum of the per-actor damages *)

Lemma sumQ_perm (l l' : list Q) : Permutation l l' -> sumQ l == sumQ l'.
Proof.
  induction 1 as [|x l l' _ IH|x y l|l l' l'' _ IH1 _ IH2]; simpl.
  - reflexivity.
  - now rewrite IH.
  - ring.
  - now rewrite IH1.
Qed.

Lemma sumDamage_sort (map : ActorMap) :
  sumDamage (JsSort.sort byDamage map) == sumDamage map.
Proof.
  unfold sumDamage. apply sumQ_perm, Permutation_map, Permutation_sym.
  apply JsSortFacts.sort_perm.
Qed.

Lemma round_keeps_balance (p : DamagePayload) (map : ActorMap) (t : PerActor) :
  attributable p = true ->
  sumDamage map == damage t ->
  sumDamage (addRoundToActors p map) == damage (addRoundToTotals p t).
Proof.
  intros Ha Hb.
  rewrite addRoundToActors_sum.
  destruct (addRoundToTotals_adds p t) as (Hd & _). rewrite Hd, Hb.
  cbn [aggPlus damage]. apply Qplus_inj_l.
  unfold roundTotals, statedTotals, derived, attributable in *.
  destruct (hasItems (bySource p)) eqn:Eb; [reflexivity|].
  destruct (hasItems (events p)) eqn:Ee; [reflexivity|].
  cbn [orb damage] in *. rewrite (hasItems_false _ Ee).
  apply Qeq_bool_eq in Ha. rewrite Ha. reflexivity.
Qed.

Lemma rounds_keep_balance (rounds : list Round) :
  Forall (fun r => attributable (snd r) = true) rounds ->
  forall (map : ActorMap) (t : PerActor),
    sumDamage map == damage t ->
    sumDamage (fold_left (fun m r => addRoundToActors (snd r) m) rounds map)
    == damage (fold_left (fun t r => addRoundToTotals (snd r) t) rounds t).
Proof.
  induction 1 as [|r rounds Hr _ IH]; intros map t Hb; [exact Hb|].
  cbn [fold_left]. apply IH. now apply round_keeps_balance.
Qed.

Lemma summaryLines_damages (st : State) :
  headerDamages (summaryLines st) = [damage (totals st)]
  /\ sumQ (rowDamages (summaryLines st)) == sumDamage (byActor st).
Proof.
  unfold summaryLines, headerDamages, rowDamages.
  cbn [flat_map app]. rewrite !flat_map_app. cbn [flat_map app].
  rewrite !app_nil_r. split.
  - f_equal. induction (JsSort.sort byDamage (byActor st)) as [|x l IH];
      [reflexivity | exact IH].
  - rewrite <- sumDamage_sort. unfold sumDamage.
    induction (JsSort.sort byDamage (byActor st)) as [|x l IH];
      [reflexivity|].
    cbn [map flat_map app sumQ fold_right]. fold (sumQ) in *.
    now rewrite IH.
Qed.


Lemma fmt1_Qeq (a b : Q) : a == b -> fmt1 a = fmt1 b.
Proof.
  intros H. assert (Ht : tenths a = tenths b).
  { unfold tenths. apply Qfloor_comp. now rewrite H. }
  unfold fmt1. now rewrite Ht.
Qed.

Lemma summaryLines_header (st : State) (t : PerActor) :
  In (LSummaryHeader t) (summaryLines st) -> t = totals st.
Proof.
  unfold summaryLines. intros [H|H]; [now inversion H|].
  apply in_app_or in H as [H|[H|[]]]; [|discriminate].
  apply in_map_iff in H as (row & Hrow & _). discriminate.
Qed.

Lemma emitNew_flushedFinal (entries : list LogEntry) (endIdx : nat) (st : State) :
  (endIdx <= List.length entries)%nat ->
  flushedFinal (fst (emitNew entries endIdx st)) = flushedFinal st.
Proof.
  intros Hle. rewrite (emitNew_processAll _ _ _ Hle). cbn [fst].
  apply processAll_flushedFinal.
Qed.

(** ** Properties *)

(** C1 (as amended): for every damage round, the totals the fight
    accumulates are taken from [bySource] when that list is present and
    not empty, else from the events with an amount above zero when there
    are events, else from the round's own [totalDamage] and [hits]; its
    misses are the events with amount zero when there are events, else the
    round's own [misses].  The figures of each actor, in the accumulator
    and in the per-round display alike, follow the same precedence over
    the actor's own rows and events, with misses counted from the events
    only; the display has one line per actor.  The header line of the
    round prints the round's own [totalDamage], [hits] and [misses]. *)
Theorem C1_round_figures (p : DamagePayload) :
  (forall t : PerActor,
      aggEq (addRoundToTotals p t) (aggPlus t (roundTotals p)))
  /\ (forall (map : ActorMap) (name : string),
         aggEq (getOrZero (addRoundToActors p map) name)
               (aggPlus (getOrZero map name) (actorFigures p name)))
  /\ (forall name : string,
         aggEq (getOrZero (roundPerSource p) name) (actorFigures p name))
  /\ NoDup (List.map fst (buildRoundPerSourceLines p))
  /\ (forall (name : string) (agg : PerActor),
         In (name, agg) (buildRoundPerSourceLines p) ->
         aggEq agg (actorFigures p name))
  /\ hd LBlank (roundLines p)
     = LRoundHeader (totalDamage p) (Log.hits p) (Log.misses p).
Proof.
  split; [apply addRoundToTotals_adds|].
  split; [apply addRoundToActors_get|].
  split; [apply roundPerSource_get|].
  destruct (buildRoundPerSourceLines_figures p) as [Hnd Hfig].
  split; [exact Hnd|]. split; [exact Hfig | reflexivity].
Qed.

(** C1 (as stated) fails: a round with neither rows nor events adds its
    own [totalDamage] and [hits] to the totals, where the stated
    precedence gives a sum over no events; and the header of a round
    prints the round's own total whatever its rows say. *)
Lemma C1_counterexample :
  ~ aggEq (addRoundToTotals rollupRound zero)
          (aggPlus zero (statedTotals rollupRound))
  /\ damage (addRoundToTotals rollupRound zero) == 10
  /\ damage (statedTotals rollupRound) == 0
  /\ hd LBlank (roundLines mismatchedRound)
     = LRoundHeader (Some 99) (Some 9%Z) (Some 0%Z)
  /\ damage (statedTotals mismatchedRound) == 10.
Proof.
  split; [|repeat split].
  intros (Hd & _). vm_compute in Hd. discriminate.
Qed.

(** C2 (as amended): for rounds that each have [bySource] rows or events
    (or report no damage of their own), processed with no gap of five
    minutes or more between consecutive rounds, nothing is flushed on the
    way, every round is accumulated, and the flush that emits them
    reports a total damage equal to the sum of the per-actor damages it
    lists; the figure it prints is that sum rounded to one decimal. *)
Theorem C2_actor_damages_sum_to_total (rounds : list Round) :
  Forall (fun r => attributable (snd r) = true) rounds ->
  gapFree rounds ->
  let st := fst (processAll (roundEntries rounds) initial) in
  let flushed := snd (flushFightSummary st) in
  summaries (snd (processAll (roundEntries rounds) initial)) = 0%nat
  /\ byActor st = fold_left (fun m r => addRoundToActors (snd r) m) rounds []
  /\ totals st = fold_left (fun t r => addRoundToTotals (snd r) t) rounds zero
  /\ sumDamage (byActor st) == damage (totals st)
  /\ sumQ (rowDamages flushed) == sumQ (headerDamages flushed)
  /\ forall t : PerActor,
       In (LSummaryHeader t) flushed ->
       t = totals st /\ fmt1 (damage t) = fmt1 (sumQ (rowDamages flushed)).
Proof.
  intros Hatt Hgap st flushed.
  destruct (processAll_gapFree rounds initial Hgap) as (Hs & Hm & Ht).
  fold st in Hm, Ht. cbn [initial byActor totals] in Hm, Ht.
  assert (Hbal : sumDamage (byActor st) == damage (totals st)).
  { rewrite Hm, Ht. apply rounds_keep_balance; [exact Hatt | reflexivity]. }
  split; [exact Hs|]. split; [exact Hm|]. split; [exact Ht|].
  split; [exact Hbal|].
  unfold flushed, flushFightSummary.
  destruct (fightEmpty st).
  - split; [reflexivity | intros t []].
  - cbn [snd]. destruct (summaryLines_damages st) as [Hh Hr].
    assert (Heq : sumQ (rowDamages (summaryLines st)) == damage (totals st))
      by now rewrite Hr.
    split.
    + rewrite Hh, Heq. simpl. ring.
    + intros t Hin. apply summaryLines_header in Hin. subst t.
      split; [reflexivity|]. apply fmt1_Qeq. now symmetry.
Qed.

Lemma C2_actor_damages_sum_to_total_witness :
  Forall (fun r => attributable (snd r) = true) twoRounds
  /\ gapFree twoRounds
  /\ sumDamage (byActor (fst (processAll (roundEntries twoRounds) initial)))
     == damage (totals (fst (processAll (roundEntries twoRounds) initial))).
Proof.
  assert (Ha : Forall (fun r => attributable (snd r) = true) twoRounds)
    by (repeat constructor).
  assert (Hg : gapFree twoRounds)
    by (unfold gapFree; simpl; unfold FIVE_MIN_MS; repeat split; lia).
  split; [exact Ha|]. split; [exact Hg|].
  exact (proj1 (proj2 (proj2 (proj2
           (C2_actor_damages_sum_to_total twoRounds Ha Hg))))).
Defined.

(** C2 (as stated) fails: one round that has only its own rollup is
    flushed with a total damage of 10 and no actor line at all; the sum
    of the per-actor damages is 0, and the two print differently. *)
Lemma C2_counterexample :
  gapFree [(0%Z, rollupRound)]
  /\ snd (flushFightSummary
            (fst (processAll (roundEntries [(0%Z, rollupRound)]) initial)))
     = [LSummaryHeader {| damage := 10; hits := 2; misses := 0 |}; LBlank]
  /\ ~ sumDamage
         (byActor (fst (processAll (roundEntries [(0%Z, rollupRound)]) initial)))
       == 10
  /\ fmt1 (sumDamage
             (byActor (fst (processAll (roundEntries [(0%Z, rollupRound)])
                              initial))))
     <> fmt1 10.
Proof.
  split; [unfold gapFree; simpl; auto|].
  split; [reflexivity|].
  split; [intros H; vm_compute in H; discriminate|].
  vm_compute. discriminate.
Qed.


(** C4: when a damage round arrives at [curTs] and the previous round
    was at [prev], the summary of the accumulated fight is written in
    front of the round's own lines, and the round is then accumulated
    into a cleared accumulator, exactly when [curTs - prev] is at least
    five minutes (300000 ms) and the accumulator holds something;
    otherwise the round is accumulated on top of what is there.  A gap
    of 300000 ms flushes, a gap of 299000 ms does not.  The accumulator
    holds something when it has an actor or a total above zero, which for
    totals that are not negative is to say that it is not all zero. *)
Theorem C4_gap_flush (st : State) (prev curTs : Z) (p : DamagePayload) :
  lastDamageTs st = Some prev ->
  let result := processEntry (Damage curTs (Some p)) st in
  (flushedFirst (snd result) = true
   <-> (curTs - prev >= 300000)%Z /\ fightOpen st = true)
  /\ result
     = (if flushedFirst (snd result)
        then (accumulated p curTs (cleared st),
              summaryLines st ++ roundLines p ++ [LBlank; LBlank])
        else (accumulated p curTs st, roundLines p ++ [LBlank; LBlank]))
  /\ (curTs = (prev + 300000)%Z -> fightOpen st = true ->
      flushedFirst (snd result) = true)
  /\ (curTs = (prev + 299000)%Z -> flushedFirst (snd result) = false)
  /\ (0 <= damage (totals st) ->
      (0 <= hits (totals st))%Z -> (0 <= misses (totals st))%Z ->
      (fightOpen st = true <-> fightEmpty st = false)).
Proof.
  intros Hprev result.
  assert (Hres : result
                 = if (curTs - prev >=? 300000)%Z && fightOpen st
                   then (accumulated p curTs (cleared st),
                         summaryLines st ++ roundLines p ++ [LBlank; LBlank])
                   else (accumulated p curTs st,
                         roundLines p ++ [LBlank; LBlank])).
  { unfold result. rewrite processEntry_round. unfold gapReached.
    rewrite Hprev. reflexivity. }
  assert (Hff : flushedFirst (snd result)
                = (curTs - prev >=? 300000)%Z && fightOpen st).
  { rewrite Hres.
    destruct ((curTs - prev >=? 300000)%Z && fightOpen st); reflexivity. }
  split; [|split; [|split; [|split]]].
  - rewrite Hff, andb_true_iff, Z.geb_leb, Z.leb_le. intuition lia.
  - rewrite Hff. exact Hres.
  - intros -> Ho. rewrite Hff, Ho, Z.geb_leb.
    replace (prev + 300000 - prev)%Z with 300000%Z by lia. reflexivity.
  - intros ->. rewrite Hff, Z.geb_leb.
    replace (prev + 299000 - prev)%Z with 299000%Z by lia. reflexivity.
  - intros Hd Hh Hm. split;
      [apply fightOpen_not_empty | now apply not_empty_fightOpen].
Qed.

Lemma C4_gap_flush_witness :
  lastDamageTs oneRoundIn = Some 0%Z
  /\ flushedFirst
       (snd (processEntry (Damage 300000 (Some (swing "Mira" 3))) oneRoundIn))
     = true.
Proof.
  split; [reflexivity|].
  exact (proj1 (proj2 (proj2
           (C4_gap_flush oneRoundIn 0%Z 300000%Z (swing "Mira" 3) eq_refl)))
           eq_refl eq_refl).
Defined.

(** C5: when a run of the effect shows the timeline to its end, the
    final-flush flag is not yet set and the accumulator holds something
    once the newly shown entries are processed, the run writes exactly one
    fight summary after the lines of those entries, whatever the flush
    deadline, clears the accumulator and sets the flag; a run that ends
    below the end of the timeline clears the flag, so that the next
    arrival at the end is again a first one.  On the sample log, playing
    to the end, rewinding to the start and playing to the end again
    writes one summary, none, and one again. *)
Theorem C5_final_flush (entries : list LogEntry) (time : Q) (st : State) :
  entries <> [] ->
  let endIdx := visibleEnd entries (cutoffOf entries time) in
  let shown := emitNew entries endIdx st in
  (endIdx = List.length entries -> flushedFinal st = false ->
   fightOpen (fst shown) = true ->
   playbackEffect entries time st
   = (setFlushedFinal (cleared (fst shown)) true,
      snd shown ++ summaryLines (fst shown))
   /\ summaries (summaryLines (fst shown)) = 1%nat)
  /\ (endIdx <> List.length entries ->
      flushedFinal (fst (playbackEffect entries time st)) = false)
  /\ (let '(s1, o1) := playbackEffect textThenRound 5 initial in
      let '(s2, o2) := playbackEffect textThenRound 0 s1 in
      let '(s3, o3) := playbackEffect textThenRound 5 s2 in
      (summaries o1, flushedFinal s1, summaries o2, flushedFinal s2,
       summaries o3, flushedFinal s3))
     = (1%nat, true, 0%nat, false, 1%nat, true).
Proof.
  intros Hne endIdx shown.
  destruct entries as [|e0 es]; [congruence|].
  assert (Hff : flushedFinal (fst shown) = flushedFinal st).
  { apply emitNew_flushedFinal, visibleEnd_le. }
  split; [|split; [|reflexivity]].
  - intros Hend Hflag Hopen. split; [|apply summaries_summaryLines].
    unfold playbackEffect. fold endIdx. fold shown.
    destruct shown as [st1 out1]. cbn [fst snd] in *.
    unfold afterLoop, timerFlush, finalFlush.
    rewrite Hend, Nat.eqb_refl.
    destruct (nextFlushDeadline st1) as [deadline|].
    + destruct (Qle_bool (inject_Z deadline) (cutoffOf (e0 :: es) time)
                && negb (fightFlushedByTimer st1) && fightOpen st1).
      * rewrite (flush_open _ Hopen).
        cbn [flushedFinal cleared]. rewrite Hff, Hflag. cbn [negb].
        rewrite fightOpen_cleared. now rewrite app_nil_r.
      * rewrite Hff, Hflag. cbn [negb]. rewrite Hopen.
        now rewrite (flush_open _ Hopen).
    + rewrite Hff, Hflag. cbn [negb]. rewrite Hopen.
      now rewrite (flush_open _ Hopen).
  - intros Hend. unfold playbackEffect. fold endIdx. fold shown.
    destruct shown as [st1 out1].
    unfold afterLoop, finalFlush.
    destruct (timerFlush (cutoffOf (e0 :: es) time) st1) as [st2 out2].
    apply Nat.eqb_neq in Hend. rewrite Hend. reflexivity.
Qed.

Lemma C5_final_flush_witness :
  threeRounds <> []
  /\ summaries (snd (playbackEffect threeRounds 10 initial)) = 1%nat.
Proof.
  assert (Hne : threeRounds <> []) by discriminate.
  split; [exact Hne|].
  rewrite (proj1 (proj1 (C5_final_flush threeRounds 10 initial Hne)
                    eq_refl eq_refl eq_refl)).
  reflexivity.
Defined.

End PlaybackFacts.

(* ================================================================== *)
(** * Further facts about the colour translation and the plain copy *)
(* ================================================================== *)

Module MarkupFacts.

Import Ansi.
Import Exports.
Import Notions.

(** ** A line without escapes *)

Lemma escFree_exec (s : string) : escFree s -> exec s = None.
Proof.
  intros Hf. destruct (exec s) as [[[pre ps] rest]|] eqn:Ee; [|reflexivity].
  destruct (AnsiFacts.exec_some _ _ _ _ Ee) as (Hs & Hv & _).
  exfalso. exact (Hf pre ps rest Hv Hs).
Qed.

(** X1: a line in which the translator finds no escape sequence is
    returned as it is, with no tag added. *)
Theorem ansiToBBCode_plain_line (line : string) :
  escFree line -> ansiToBBCode line = line /\ ansiChunks line = [CText line].
Proof.
  intros Hf. unfold ansiToBBCode, ansiChunks. cbn [ansiLoop].
  rewrite (escFree_exec _ Hf). cbn. split; [|reflexivity].
  apply StrFacts.append_nil_r.
Qed.

Lemma ansiToBBCode_plain_line_witness :
  escFree "You hit the goblin [hard]."
  /\ ansiToBBCode "You hit the goblin [hard]." = "You hit the goblin [hard]."%string.
Proof.
  assert (Hf : escFree "You hit the goblin [hard].")
    by (apply AnsiFacts.exec_none; reflexivity).
  split; [exact Hf|].
  exact (proj1 (ansiToBBCode_plain_line "You hit the goblin [hard]." Hf)).
Defined.

(** ** Colours never nest *)

Lemma shallow_app (l1 l2 : list Chunk) : forall d e,
  walk d l1 = Some e -> shallow d l1 = true ->
  shallow d (l1 ++ l2) = shallow e l2.
Proof.
  induction l1 as [|c l1 IH]; intros d e Hw Hs; simpl in *.
  - now inversion Hw.
  - destruct c as [t|nm|].
    + now apply IH.
    + destruct d; [|discriminate]. now apply IH.
    + destruct d; [discriminate|]. now apply IH.
Qed.

Lemma escStep_shallow open codes nc :
  shallow (depth open) (fst (escStep open codes nc)) = true.
Proof.
  unfold escStep, depth.
  destruct (existsb (N.eqb 0) codes); simpl;
    destruct (isOpen open) eqn:Eo; simpl;
    destruct (pick codes) as [[c|s]|]; simpl; rewrite ?Eo; try reflexivity;
    try (destruct (ansiColorNames c) as [nm|]; simpl; rewrite ?Eo;
         try reflexivity;
         destruct (Str.truthy nm) eqn:Et, (isBracket nc);
         simpl; rewrite ?Eo, ?Et; reflexivity);
    destruct (Str.truthy s) eqn:Et, (isBracket nc);
    simpl; rewrite ?Eo, ?Et; reflexivity.
Qed.

Lemma ansiLoop_shallow (fuel : nat) : forall rest open,
  shallow (depth open) (ansiLoop fuel rest open) = true.
Proof.
  induction fuel as [|fuel IH]; intros rest open; [reflexivity|].
  cbn [ansiLoop].
  destruct (exec rest) as [[[pre params] rest']|] eqn:Ee.
  - pose proof (AnsiFacts.escStep_walk open (codesOf params) (Str.head rest'))
      as Hw.
    pose proof (escStep_shallow open (codesOf params) (Str.head rest')) as Hs.
    destruct (escStep open (codesOf params) (Str.head rest')) as [em open'].
    cbn [fst snd] in *. cbn [shallow].
    rewrite (shallow_app _ _ _ _ Hw Hs). apply IH.
  - unfold depth. destruct (isOpen open); reflexivity.
Qed.

Lemma shallow_counts (l : list Chunk) : forall d,
  shallow d l = true -> (d <= 1)%nat ->
  forall n, (d + opens (firstn n l) <= closes (firstn n l) + 1)%nat.
Proof.
  unfold opens, closes.
  induction l as [|c l IH]; intros d Hs Hd n.
  - rewrite firstn_nil. simpl. lia.
  - destruct n as [|n]; [simpl; lia|].
    destruct c as [t|nm|]; simpl in *.
    + now apply IH.
    + destruct d; [|discriminate]. specialize (IH 1%nat Hs (le_n _) n). lia.
    + destruct d; [discriminate|]. specialize (IH d Hs ltac:(lia) n). lia.
Qed.

(** X2: the translator never opens a colour inside an open one: at
    every point of the output at most one colour tag is open. *)
Theorem ansiToBBCode_never_nests (line : string) :
  shallow 0 (ansiChunks line) = true
  /\ forall n : nat,
       (opens (firstn n (ansiChunks line))
        <= closes (firstn n (ansiChunks line)) + 1)%nat.
Proof.
  pose proof (ansiLoop_shallow (S (String.length line)) line None) as Hs.
  split; [exact Hs|].
  intros n. exact (shallow_counts _ 0%nat Hs (Nat.le_0_1) n).
Qed.

(** ** Escapes that name a colour *)

Lemma find_range_name (lo hi : N) (codes : list N) (c : N) :
  (forall x, (lo <= x <= hi)%N -> exists name,
      ansiColorNames x = Some name /\ Str.truthy name = true) ->
  find (fun c => (lo <=? c) && (c <=? hi))%N codes = Some c ->
  exists name, ansiColorNames c = Some name /\ Str.truthy name = true.
Proof.
  intros Hall Hf. apply find_some in Hf. destruct Hf as [_ Hr].
  apply andb_true_iff in Hr. destruct Hr as [Hlo Hhi].
  apply N.leb_le in Hlo. apply N.leb_le in Hhi. apply Hall. lia.
Qed.

Lemma bright_names (x : N) : (90 <= x <= 97)%N ->
  exists name, ansiColorNames x = Some name /\ Str.truthy name = true.
Proof.
  intros H.
  assert (Hx : (x = 90 \/ x = 91 \/ x = 92 \/ x = 93 \/ x = 94 \/ x = 95
                \/ x = 96 \/ x = 97)%N) by lia.
  repeat (destruct Hx as [Hx|Hx]; [subst; eexists; split; reflexivity|]).
  subst; eexists; split; reflexivity.
Qed.

Lemma basic_names (x : N) : (30 <= x <= 37)%N ->
  exists name, ansiColorNames x = Some name /\ Str.truthy name = true.
Proof.
  intros H.
  assert (Hx : (x = 30 \/ x = 31 \/ x = 32 \/ x = 33 \/ x = 34 \/ x = 35
                \/ x = 36 \/ x = 37)%N) by lia.
  repeat (destruct Hx as [Hx|Hx]; [subst; eexists; split; reflexivity|]).
  subst; eexists; split; reflexivity.
Qed.

(** The name [pick] leads to, if any. *)
Lemma pick_names (codes : list N) :
  match pick codes with
  | Some (PickNum c) =>
      exists name, ansiColorNames c = Some name /\ Str.truthy name = true
  | Some (PickStr s) => Str.truthy s = true
  | None => True
  end.
Proof.
  unfold pick.
  destruct (find (fun c => (90 <=? c) && (c <=? 97))%N codes) as [b|] eqn:Eb.
  { exact (find_range_name 90 97 codes b bright_names Eb). }
  destruct (find (fun c => (30 <=? c) && (c <=? 37))%N codes) as [b|] eqn:Ec.
  { exact (find_range_name 30 37 codes b basic_names Ec). }
  destruct (findIndexFrom _ 0 codes) as [i|]; [|exact I].
  destruct (nth_error codes (i + 2)) as [x|]; [|reflexivity].
  destruct (x =? 61)%N; reflexivity.
Qed.

(** X3: an escape in which [pick] finds a colour, and which is not
    followed by a closing bracket, closes the colour that is open, if
    any, and opens the new one, whether or not it also carries the reset
    code; the name is never empty.  An escape in which [pick] finds no
    colour (bold, underline, background codes) appends nothing but the
    closing tag of a reset. *)
Theorem escape_with_colour_switches
    (open : option string) (codes : list N) (nextChar : option ascii) :
  (pick codes <> None -> isBracket nextChar = false ->
   exists name : string,
     Str.truthy name = true
     /\ escStep open codes nextChar
        = ((if isOpen open then [CClose] else []) ++ [COpen name], Some name))
  /\ (pick codes = None ->
      escStep open codes nextChar
      = if existsb (N.eqb 0) codes && isOpen open
        then ([CClose], None) else ([], open)).
Proof.
  split.
  - intros Hp Hb. pose proof (pick_names codes) as Hn.
    unfold escStep. rewrite Hb.
    destruct (pick codes) as [[c|s]|]; [| |congruence].
    + destruct Hn as (name & Hc & Ht). exists name. split; [exact Ht|].
      rewrite Hc, Ht.
      destruct (existsb (N.eqb 0) codes), (isOpen open) eqn:Eo;
        cbn; rewrite ?Eo; reflexivity.
    + exists s. split; [exact Hn|]. rewrite Hn.
      destruct (existsb (N.eqb 0) codes), (isOpen open) eqn:Eo;
        cbn; rewrite ?Eo; reflexivity.
  - intros Hp. unfold escStep. rewrite Hp.
    destruct (existsb (N.eqb 0) codes && isOpen open); reflexivity.
Qed.

(** ** The pattern of the plain copy *)

Lemma spanParams_then_esc (s t : string) :
  spanParams (s ++ String ESC t)
  = (fst (spanParams s), (snd (spanParams s) ++ String ESC t)%string).
Proof.
  induction s as [|c s IH]; [reflexivity|].
  cbn [String.append spanParams].
  destruct (isParamChar c); [|reflexivity].
  rewrite IH. destruct (spanParams s). reflexivity.
Qed.

Lemma matchCsi_then_esc (c : ascii) (s t : string) :
  matchCsi (String c s) = None ->
  matchCsi (String c s ++ String ESC t) = None.
Proof.
  destruct s as [|c2 s];
    [intros _; cbn; now destruct (Ascii.eqb c ESC)|].
  cbn [String.append matchCsi].
  destruct (Ascii.eqb c ESC && Ascii.eqb c2 "["); [|reflexivity].
  rewrite spanParams_then_esc. cbn [snd].
  destruct (snd (spanParams s)) as [|c3 r]; [reflexivity|].
  cbn [String.append]. now destruct (isLetter c3).
Qed.

Lemma matchCsi_sgr (params rest : string) :
  allParamChars params = true ->
  matchCsi (sgrText params ++ rest) = Some rest.
Proof.
  intros Hp. rewrite AnsiFacts.sgrText_app. cbn [matchCsi].
  rewrite (AnsiFacts.spanParams_run _ _ Hp). reflexivity.
Qed.

Lemma matchCsi_shorter (s rest : string) :
  matchCsi s = Some rest -> (String.length rest < String.length s)%nat.
Proof.
  destruct s as [|c1 [|c2 t]]; try discriminate. cbn [matchCsi].
  destruct (Ascii.eqb c1 ESC && Ascii.eqb c2 "["); [|discriminate].
  destruct (spanParams t) as [p r] eqn:Es. cbn [snd].
  destruct (AnsiFacts.spanParams_split _ _ _ Es) as [Ht _].
  destruct r as [|c3 r]; [discriminate|].
  destruct (isLetter c3); [|discriminate].
  intros H. inversion H; subst. cbn [String.length].
  rewrite StrFacts.length_append. cbn [String.length]. lia.
Qed.

Lemma stripLoop_eq (fuel : nat) (s : string) :
  stripLoop (S fuel) s
  = match matchCsi s with
    | Some rest => stripLoop fuel rest
    | None =>
        match s with
        | EmptyString => EmptyString
        | String c t => String c (stripLoop fuel t)
        end
    end.
Proof. reflexivity. Qed.

(** The scan never runs out of fuel. *)
Lemma stripLoop_fuel (fuel : nat) : forall (fuel' : nat) (s : string),
  (String.length s < fuel)%nat -> (String.length s < fuel')%nat ->
  stripLoop fuel s = stripLoop fuel' s.
Proof.
  induction fuel as [|fuel IH]; intros [|fuel'] s H H'; try lia.
  rewrite !stripLoop_eq.
  destruct (matchCsi s) as [rest|] eqn:Em.
  - pose proof (matchCsi_shorter _ _ Em). apply IH; lia.
  - destruct s as [|c t]; [reflexivity|]. cbn [String.length] in *.
    f_equal. apply IH; lia.
Qed.

Lemma hasCsi_eq (s : string) :
  hasCsi s = match matchCsi s with
             | Some _ => true
             | None =>
                 match s with
                 | EmptyString => false
                 | String _ t => hasCsi t
                 end
             end.
Proof. destruct s; reflexivity. Qed.

Lemma stripLoop_plain (s : string) : forall fuel : nat,
  hasCsi s = false -> (String.length s < fuel)%nat -> stripLoop fuel s = s.
Proof.
  induction s as [|c s IH]; intros [|fuel] Hc Hl; try (cbn in Hl; lia).
  - reflexivity.
  - rewrite hasCsi_eq in Hc. rewrite stripLoop_eq.
    destruct (matchCsi (String c s)); [discriminate|].
    cbn [String.length] in Hl. f_equal. apply IH; [exact Hc | lia].
Qed.

Lemma stripLoop_text (pre : string) : forall (fuel : nat) (t : string),
  hasCsi pre = false ->
  stripLoop (String.length pre + fuel) (pre ++ String ESC t)
  = (pre ++ stripLoop fuel (String ESC t))%string.
Proof.
  induction pre as [|c pre IH]; intros fuel t Hc; [reflexivity|].
  rewrite hasCsi_eq in Hc.
  destruct (matchCsi (String c pre)) eqn:Em; [discriminate|].
  cbn [String.length Nat.add]. rewrite stripLoop_eq.
  rewrite (matchCsi_then_esc _ _ t Em). cbn [String.append].
  f_equal. now apply IH.
Qed.

Lemma stripLoop_ansiLoop (fuel : nat) : forall (rest : string) open,
  (String.length rest < fuel)%nat ->
  Forall (fun t => hasCsi t = false) (chunkTexts (ansiLoop fuel rest open)) ->
  stripLoop fuel rest = joinTexts (chunkTexts (ansiLoop fuel rest open)).
Proof.
  induction fuel as [|fuel IH]; intros rest open Hlen Hall; [lia|].
  cbn [ansiLoop] in *.
  destruct (exec rest) as [[[pre params] rest']|] eqn:Ee.
  - pose proof (AnsiFacts.exec_shorter _ _ _ _ Ee) as Hs.
    destruct (AnsiFacts.exec_some _ _ _ _ Ee) as (Hr & [_ Hv] & _).
    pose proof (AnsiFacts.escStep_no_text open (codesOf params)
                  (Str.head rest')) as Hn.
    destruct (escStep open (codesOf params) (Str.head rest')) as [em open'].
    cbn [fst] in Hn. unfold chunkTexts in *.
    cbn [flat_map app] in *. rewrite flat_map_app, Hn in *.
    cbn [app] in *. inversion Hall as [|? ? Hpre Hrest]; subst.
    cbn [joinTexts fold_right].
    change (fold_right String.append EmptyString ?l) with (joinTexts l).
    rewrite <- (IH rest' open'); [|lia|exact Hrest].
    set (tail := (sgrText params ++ rest')%string).
    assert (Hfuel : (String.length (pre ++ tail) < S fuel)%nat) by exact Hlen.
    rewrite StrFacts.length_append in Hfuel.
    rewrite (stripLoop_fuel (S fuel)
               (String.length pre + S (String.length tail)) (pre ++ tail));
      [|rewrite StrFacts.length_append; lia
       |rewrite StrFacts.length_append; lia].
    unfold tail at 2. rewrite AnsiFacts.sgrText_app.
    rewrite (stripLoop_text pre _ _ Hpre). f_equal.
    rewrite <- AnsiFacts.sgrText_app. fold tail.
    rewrite stripLoop_eq. unfold tail at 1. rewrite (matchCsi_sgr _ _ Hv).
    apply stripLoop_fuel; [|lia].
    unfold tail. rewrite StrFacts.length_append.
    unfold sgrText. cbn [String.length]. lia.
  - unfold chunkTexts in *. cbn [flat_map] in *.
    assert (Hc : hasCsi rest = false).
    { inversion Hall; assumption. }
    rewrite (stripLoop_plain _ _ Hc Hlen).
    destruct (isOpen open); cbn; now rewrite StrFacts.append_nil_r.
Qed.

(** X4: the two exports agree on the text of a message.  When the
    stretches of text that the colour translation copies hold no control
    sequence of their own, the message with its control sequences
    stripped, as the plain copy takes it, is those stretches put
    together: the BBCode of the message with its tags left out. *)
Theorem stripAnsi_is_text_of_ansiToBBCode (line : string) :
  Forall (fun t => hasCsi t = false) (chunkTexts (ansiChunks line)) ->
  stripAnsi line = joinTexts (chunkTexts (ansiChunks line)).
Proof.
  intros Hall. unfold stripAnsi, ansiChunks in *.
  apply stripLoop_ansiLoop; [lia | exact Hall].
Qed.

Lemma stripAnsi_is_text_of_ansiToBBCode_witness :
  Forall (fun t => hasCsi t = false) (chunkTexts (ansiChunks readmeSample))
  /\ stripAnsi readmeSample = "[ IMPLEMENTOR ] [ Chaos ] Scorn. "%string.
Proof.
  assert (Hall : Forall (fun t => hasCsi t = false)
                   (chunkTexts (ansiChunks readmeSample)))
    by (vm_compute; repeat constructor).
  split; [exact Hall|].
  rewrite (stripAnsi_is_text_of_ansiToBBCode readmeSample Hall).
  reflexivity.
Defined.

End MarkupFacts.

(* ================================================================== *)
(** * The text that the colour translation copies *)
(* ================================================================== *)

Module VerbatimFacts.

Import Ansi.

(** ** The first escape of a line *)

Lemma escFree_tail (c : ascii) (s : string) :
  escFree (String c s) -> escFree s.
Proof.
  intros Hf a ps b Hv Hs. apply (Hf (String c a) ps b Hv).
  cbn [String.append]. now rewrite Hs.
Qed.

Lemma escFree_matchSgr (s : string) : escFree s -> matchSgr s = None.
Proof.
  intros Hf. destruct (matchSgr s) as [[ps rest]|] eqn:Em; [|reflexivity].
  destruct (AnsiFacts.matchSgr_sound _ _ _ Em) as [Hv Hs].
  exfalso. exact (Hf EmptyString ps rest Hv Hs).
Qed.

Lemma matchSgr_then_esc (c : ascii) (s t : string) :
  matchSgr (String c s) = None ->
  matchSgr (String c s ++ String ESC t) = None.
Proof.
  destruct s as [|c2 s];
    [intros _; cbn; now destruct (Ascii.eqb c ESC)|].
  cbn [String.append matchSgr].
  destruct (Ascii.eqb c ESC && Ascii.eqb c2 "["); [|reflexivity].
  rewrite MarkupFacts.spanParams_then_esc.
  destruct (spanParams s) as [[|p ps] [|c3 r]]; cbn [fst snd String.append];
    try reflexivity.
  now destruct (Ascii.eqb c3 "m").
Qed.

Lemma exec_first (pre : string) : forall params rest : string,
  escFree pre -> validParams params ->
  exec (pre ++ sgrText params ++ rest) = Some (pre, params, rest).
Proof.
  induction pre as [|c pre IH]; intros params rest Hf Hv.
  - cbn [String.append]. rewrite AnsiFacts.exec_eq.
    now rewrite (AnsiFacts.matchSgr_complete _ rest Hv).
  - rewrite AnsiFacts.exec_eq.
    assert (Hm : matchSgr (String c pre ++ sgrText params ++ rest) = None).
    { rewrite AnsiFacts.sgrText_app. apply matchSgr_then_esc.
      now apply escFree_matchSgr. }
    rewrite Hm. cbn [String.append].
    now rewrite (IH params rest (escFree_tail _ _ Hf) Hv).
Qed.

(** ** The copied text does not depend on the colour that is open *)

Lemma chunkTexts_app (a b : list Chunk) :
  chunkTexts (a ++ b) = chunkTexts a ++ chunkTexts b.
Proof. apply flat_map_app. Qed.

Lemma chunkTexts_any_open (fuel : nat) : forall (rest : string) open open',
  chunkTexts (ansiLoop fuel rest open) = chunkTexts (ansiLoop fuel rest open').
Proof.
  induction fuel as [|fuel IH]; intros rest open open'; [reflexivity|].
  cbn [ansiLoop].
  destruct (exec rest) as [[[pre params] rest']|].
  - pose proof (AnsiFacts.escStep_no_text open (codesOf params)
                  (Str.head rest')) as H1.
    pose proof (AnsiFacts.escStep_no_text open' (codesOf params)
                  (Str.head rest')) as H2.
    destruct (escStep open (codesOf params) (Str.head rest')) as [em o1].
    destruct (escStep open' (codesOf params) (Str.head rest')) as [em' o2].
    cbn [fst] in H1, H2.
    assert (Hc : forall t l, chunkTexts (CText t :: l) = t :: chunkTexts l)
      by reflexivity.
    rewrite !Hc, !chunkTexts_app, H1, H2. cbn [app]. f_equal. apply IH.
  - destruct (isOpen open), (isOpen open'); reflexivity.
Qed.

Lemma chunkTexts_first (pre params rest : string) :
  escFree pre -> validParams params ->
  chunkTexts (ansiChunks (pre ++ sgrText params ++ rest))
  = pre :: chunkTexts (ansiChunks rest).
Proof.
  intros Hf Hv. unfold ansiChunks at 1. cbn [ansiLoop].
  rewrite (exec_first pre params rest Hf Hv).
  pose proof (AnsiFacts.escStep_no_text None (codesOf params) (Str.head rest))
    as Hn.
  destruct (escStep None (codesOf params) (Str.head rest)) as [em open'].
  cbn [fst] in Hn.
  assert (Hc : forall t l, chunkTexts (CText t :: l) = t :: chunkTexts l)
    by reflexivity.
  rewrite Hc, chunkTexts_app, Hn. cbn [app]. f_equal.
  unfold ansiChunks.
  rewrite (chunkTexts_any_open _ rest open' None).
  f_equal. apply AnsiFacts.ansiLoop_fuel; [|lia].
  rewrite !StrFacts.length_append. unfold sgrText. cbn [String.length]. lia.
Qed.

(** ** The property *)

(** C8 (as amended): on [ESC[31mA ESC[32mB ESC[0mC] the translator opens
    RED before [A], closes and reopens (GREEN) before [B], closes before
    [C] and leaves nothing open.  On every line, an escape sequence of
    the form that the translator recognises ([ESC [], one or more digits
    or semicolons, [m]) contributes no character to the output, and the
    text before, between and after such sequences is copied as it is:
    a line without one is copied whole, and the text copied from a line
    that starts with escape-free text and an escape sequence is that
    text followed by the text copied from what comes after the
    sequence.  What the translator takes for text it copies whatever it
    holds: [ESC[m] and [ESC[K] are text to it. *)
Theorem C8_nested_colors_and_verbatim_text :
  ansiChunks nestedSample
  = [CText EmptyString; COpen "RED"; CText "A "; CClose; COpen "GREEN";
     CText "B "; CClose; CText "C"]
  /\ ansiToBBCode nestedSample
     = "[COLOR=RED]A [/COLOR][COLOR=GREEN]B [/COLOR]C"%string
  /\ (forall line : string,
         escFree line -> chunkTexts (ansiChunks line) = [line])
  /\ (forall pre params rest : string,
         escFree pre -> validParams params ->
         chunkTexts (ansiChunks (pre ++ sgrText params ++ rest))
         = pre :: chunkTexts (ansiChunks rest))
  /\ (forall line : string,
         exists segs : list Seg,
           unlex segs = line
           /\ Forall segOk segs
           /\ chunkTexts (ansiChunks line) = segTexts segs)
  /\ chunkTexts (ansiChunks (sgrText "1" ++ "bold"))%string = [EmptyString; "bold"%string].
Proof.
  split; [reflexivity|]. split; [reflexivity|]. split; [|split; [|split]].
  - intros line Hf. unfold ansiChunks. cbn [ansiLoop].
    now rewrite (MarkupFacts.escFree_exec _ Hf).
  - exact chunkTexts_first.
  - intros line. apply AnsiFacts.ansiLoop_segments. lia.
  - reflexivity.
Qed.

(** The claim as the design document words it fails: a control
    sequence outside the form that the translator recognises is copied
    to the output, with its escape character. *)
Lemma C8_counterexample :
  ansiToBBCode bareResetSample = bareResetSample
  /\ ansiToBBCode eraseLineSample = eraseLineSample
  /\ Str.head (ansiToBBCode bareResetSample) = Some ESC.
Proof. repeat split; reflexivity. Qed.

End VerbatimFacts.

(* ================================================================== *)
(** * Further facts about the fight accumulator *)
(* ================================================================== *)

Module FigureFacts.

Import Log.
Import Fight.
Import Playback.
Import Notions.

Ltac agg_arith :=
  unfold aggEq, aggPlus, zero in *; cbn [damage hits misses] in *;
  repeat match goal with
         | H : _ /\ _ |- _ => destruct H
         end;
  (split; [|split]); try lra; try lia.

(** ** The figures of the map, added up *)

Lemma sumFigures_cons (k : string) (w : PerActor) (map : ActorMap) :
  sumFigures ((k, w) :: map) = aggPlus w (sumFigures map).
Proof. reflexivity. Qed.

Lemma sumFigures_mapSet (map : ActorMap) (name : string) (v : PerActor) :
  aggEq (aggPlus (sumFigures (mapSet map name v)) (getOrZero map name))
        (aggPlus (sumFigures map) v).
Proof.
  unfold getOrZero.
  induction map as [|[k w] map IH]; cbn [mapSet mapGet].
  - unfold sumFigures. cbn. agg_arith.
  - destruct (String.eqb k name); rewrite !sumFigures_cons.
    + agg_arith.
    + agg_arith.
Qed.

Section Figures.

Context {X : Type}.
Variable key : X -> string.
Variable share : X -> PerActor.
Variable step : ActorMap -> X -> ActorMap.

Hypothesis step_adds : forall map x,
  (step map x = map /\ aggEq (share x) zero)
  \/ exists v, step map x = mapSet map (key x) v
               /\ aggEq v (aggPlus (getOrZero map (key x)) (share x)).

Lemma figures_step (map : ActorMap) (x : X) :
  aggEq (sumFigures (step map x)) (aggPlus (sumFigures map) (share x)).
Proof.
  destruct (step_adds map x) as [[-> Hz]|(v & -> & Hv)].
  - agg_arith.
  - pose proof (sumFigures_mapSet map (key x) v) as H. agg_arith.
Qed.

Lemma figures_fold (l : list X) : forall map : ActorMap,
  aggEq (sumFigures (fold_left step l map))
        (aggPlus (sumFigures map) (sumAgg (List.map share l))).
Proof.
  induction l as [|x l IH]; intros map; cbn [fold_left].
  - cbn. agg_arith.
  - rewrite FightFacts.sumAgg_cons.
    pose proof (IH (step map x)) as H1. pose proof (figures_step map x) as H2.
    clear IH. agg_arith.
Qed.

(** The keys that were in the map stay where they were; new ones are
    appended. *)
Lemma keys_step (map : ActorMap) (x : X) :
  exists more, List.map fst (step map x) = List.map fst map ++ more
               /\ forall n, In n more -> n = key x.
Proof.
  destruct (step_adds map x) as [[-> _]|(v & -> & _)].
  - exists []. split; [now rewrite app_nil_r | contradiction].
  - clear. induction map as [|[k w] map IH]; cbn [mapSet List.map fst app].
    + exists [key x]. split; [reflexivity|]. intros n [<-|[]]. reflexivity.
    + destruct (String.eqb k (key x)).
      * exists []. split; [now rewrite app_nil_r | contradiction].
      * destruct IH as (more & Hk & Hm). exists more.
        cbn [List.map fst]. rewrite Hk. split; [reflexivity | exact Hm].
Qed.

Lemma keys_fold (l : list X) : forall map : ActorMap,
  exists more, List.map fst (fold_left step l map) = List.map fst map ++ more
               /\ forall n, In n more -> In n (List.map key l).
Proof.
  induction l as [|x l IH]; intros map; cbn [fold_left].
  - exists []. split; [now rewrite app_nil_r | contradiction].
  - destruct (keys_step map x) as (m1 & H1 & K1).
    destruct (IH (step map x)) as (m2 & H2 & K2).
    exists (m1 ++ m2). rewrite H2, H1, app_assoc. split; [reflexivity|].
    intros n Hn. apply in_app_or in Hn. destruct Hn as [Hn|Hn].
    + left. symmetry. now apply K1.
    + right. now apply K2.
Qed.

End Figures.

(** ** One round *)

Lemma addRoundToActors_figures (p : DamagePayload) (map : ActorMap) :
  aggEq (sumFigures (addRoundToActors p map))
        (aggPlus (sumFigures map)
           (derived p (itemsOf (bySource p)) (itemsOf (events p)))).
Proof.
  rewrite FightFacts.addRoundToActors_loops.
  pose proof (figures_fold sourceName missShare addMiss FightFacts.addMiss_adds
                (itemsOf (events p))) as Fm.
  pose proof (FightFacts.sumAgg_misses (itemsOf (events p))) as Sm.
  unfold derived.
  destruct (hasItems (bySource p)).
  - specialize (Fm (fold_left addRow (itemsOf (bySource p)) map)).
    pose proof (figures_fold actorName rowShare addRow FightFacts.addRow_adds
                  (itemsOf (bySource p)) map) as Fr.
    pose proof (FightFacts.sumAgg_rows (itemsOf (bySource p))) as Sr.
    agg_arith.
  - specialize (Fm (fold_left addHit (itemsOf (events p)) map)).
    pose proof (figures_fold sourceName hitShare addHit FightFacts.addHit_adds
                  (itemsOf (events p)) map) as Fh.
    pose proof (FightFacts.sumAgg_hits (itemsOf (events p))) as Sh.
    agg_arith.
Qed.

Lemma fullyAttributable_totals (p : DamagePayload) :
  fullyAttributable p = true ->
  aggEq (derived p (itemsOf (bySource p)) (itemsOf (events p)))
        (roundTotals p).
Proof.
  unfold fullyAttributable, roundTotals, statedTotals, derived, roundMisses.
  intros H. apply andb_true_iff in H. destruct H as [H1 H2].
  destruct (hasItems (events p)) eqn:He.
  - rewrite orb_true_r. agg_arith.
  - cbn [orb] in H2. apply Z.eqb_eq in H2.
    rewrite (FightFacts.hasItems_false _ He).
    destruct (hasItems (bySource p)) eqn:Hb; cbn [orb] in *.
    + unfold eventsMisses, count. cbn. agg_arith.
    + apply andb_true_iff in H1. destruct H1 as [Hd Hh].
      apply Qeq_bool_iff in Hd. apply Z.eqb_eq in Hh.
      unfold eventsDamage, eventsHits, eventsMisses, count. cbn.
      agg_arith.
Qed.

Lemma round_keeps_figures (p : DamagePayload) (map : ActorMap)
    (t : PerActor) :
  fullyAttributable p = true ->
  aggEq (sumFigures map) t ->
  aggEq (sumFigures (addRoundToActors p map)) (addRoundToTotals p t).
Proof.
  intros Hp Hb.
  pose proof (addRoundToActors_figures p map) as H1.
  pose proof (FightFacts.addRoundToTotals_adds p t) as H2.
  pose proof (fullyAttributable_totals p Hp) as H3.
  agg_arith.
Qed.

Lemma addRoundToActors_NoDup (p : DamagePayload) (map : ActorMap) :
  NoDup (List.map fst map) -> NoDup (List.map fst (addRoundToActors p map)).
Proof.
  intros Hnd. rewrite FightFacts.addRoundToActors_loops.
  apply (FightFacts.fold_NoDup sourceName missShare addMiss
           FightFacts.addMiss_adds).
  destruct (hasItems (bySource p)).
  - now apply (FightFacts.fold_NoDup actorName rowShare addRow
                 FightFacts.addRow_adds).
  - now apply (FightFacts.fold_NoDup sourceName hitShare addHit
                 FightFacts.addHit_adds).
Qed.

(** X5: a round never moves or repeats an actor of the fight.  The
    actors already in the map keep their places, the actors the round
    brings in are appended in the order the round names them, and no name
    is listed twice. *)
Theorem addRoundToActors_keeps_order (p : DamagePayload) (map : ActorMap) :
  (exists more : list string,
      List.map fst (addRoundToActors p map) = List.map fst map ++ more
      /\ forall n, In n more ->
           In n (List.map actorName (itemsOf (bySource p)))
           \/ In n (List.map sourceName (itemsOf (events p))))
  /\ (NoDup (List.map fst map) ->
      NoDup (List.map fst (addRoundToActors p map))).
Proof.
  split; [|apply addRoundToActors_NoDup].
  rewrite FightFacts.addRoundToActors_loops.
  destruct (hasItems (bySource p)).
  - destruct (keys_fold actorName rowShare addRow FightFacts.addRow_adds
                (itemsOf (bySource p)) map) as (m1 & H1 & K1).
    destruct (keys_fold sourceName missShare addMiss FightFacts.addMiss_adds
                (itemsOf (events p))
                (fold_left addRow (itemsOf (bySource p)) map))
      as (m2 & H2 & K2).
    exists (m1 ++ m2). rewrite H2, H1, app_assoc. split; [reflexivity|].
    intros n Hn. apply in_app_or in Hn. destruct Hn as [Hn|Hn]; auto.
  - destruct (keys_fold sourceName hitShare addHit FightFacts.addHit_adds
                (itemsOf (events p)) map) as (m1 & H1 & K1).
    destruct (keys_fold sourceName missShare addMiss FightFacts.addMiss_adds
                (itemsOf (events p))
                (fold_left addHit (itemsOf (events p)) map))
      as (m2 & H2 & K2).
    exists (m1 ++ m2). rewrite H2, H1, app_assoc. split; [reflexivity|].
    intros n Hn. apply in_app_or in Hn. destruct Hn as [Hn|Hn]; auto.
Qed.

(** ** Sums do not depend on the order *)

Lemma sumAgg_perm (l l' : list PerActor) :
  Permutation l l' -> aggEq (sumAgg l) (sumAgg l').
Proof.
  induction 1 as [|x l l' _ IH|x y l|l l' l'' _ IH1 _ IH2];
    cbn [sumAgg fold_right] in *.
  - agg_arith.
  - fold (sumAgg l) in *. fold (sumAgg l') in *. agg_arith.
  - fold (sumAgg l). agg_arith.
  - agg_arith.
Qed.

Lemma sumFigures_sort (after : string * PerActor -> string * PerActor -> bool)
    (map : ActorMap) :
  aggEq (sumFigures (JsSort.sort after map)) (sumFigures map).
Proof.
  unfold sumFigures. apply sumAgg_perm. apply Permutation_map.
  apply Permutation_sym. apply JsSortFacts.sort_perm.
Qed.

(** ** Figures that are not negative *)

Lemma eventsDamage_nonneg (l : list DamageEvent) : 0 <= eventsDamage l.
Proof.
  induction l as [|ev l IH]; [apply Qle_refl|].
  rewrite FightFacts.eventsDamage_cons.
  destruct (isHit ev) eqn:Eh; [|exact IH].
  unfold isHit in Eh. destruct (amount ev) as [a|]; [|discriminate].
  apply PlaybackFacts.Qltb_true in Eh. cbn [orZeroQ]. lra.
Qed.

Lemma count_nonneg {X} (f : X -> bool) (l : list X) : (0 <= count f l)%Z.
Proof. unfold count. lia. Qed.

Lemma rows_nonneg (rows : list DamageActorRow) :
  forallb (fun r => Qle_bool 0 (orZeroQ (totalAsSource r))
                    && (0 <=? orZeroZ (countAsSource r))%Z) rows = true ->
  0 <= rowsDamage rows /\ (0 <= rowsHits rows)%Z.
Proof.
  induction rows as [|r rows IH]; intros H.
  - split; [apply Qle_refl | apply Z.le_refl].
  - cbn [forallb] in H. apply andb_true_iff in H. destruct H as [Hr H].
    apply andb_true_iff in Hr. destruct Hr as [Hq Hz].
    apply Qle_bool_iff in Hq. apply Z.leb_le in Hz.
    destruct (IH H) as [IHq IHz].
    rewrite FightFacts.rowsDamage_cons, FightFacts.rowsHits_cons.
    split; [lra | lia].
Qed.

Lemma roundTotals_nonneg (p : DamagePayload) :
  nonNegative p = true ->
  0 <= damage (roundTotals p)
  /\ (0 <= hits (roundTotals p))%Z /\ (0 <= misses (roundTotals p))%Z.
Proof.
  unfold nonNegative. intros H.
  apply andb_true_iff in H. destruct H as [H Hrows].
  apply andb_true_iff in H. destruct H as [H Hm].
  apply andb_true_iff in H. destruct H as [Hd Hh].
  apply Qle_bool_iff in Hd. apply Z.leb_le in Hh. apply Z.leb_le in Hm.
  destruct (rows_nonneg _ Hrows) as [Rq Rz].
  pose proof (eventsDamage_nonneg (itemsOf (events p))) as Eq.
  pose proof (count_nonneg isHit (itemsOf (events p))) as Eh.
  pose proof (count_nonneg isMiss (itemsOf (events p))) as Em.
  unfold roundTotals, statedTotals, derived, roundMisses,
    eventsHits, eventsMisses.
  destruct (hasItems (bySource p)), (hasItems (events p));
    cbn [orb damage hits misses]; repeat split; assumption.
Qed.

End FigureFacts.

(* ================================================================== *)
(** * Further facts about the playback *)
(* ================================================================== *)

Module RunFacts.

Import Log.
Import Parse.
Import Fight.
Import Playback.
Import Exports.
Import Notions.

(** ** Fight summaries among the lines *)

Lemma withoutSummaries_rows (rows : ActorMap) (tail : list Line) :
  withoutSummaries true
    (map (fun row => LSummaryRow (fst row) (snd row)) rows ++ LBlank :: tail)
  = withoutSummaries false tail.
Proof. induction rows as [|r rows IH]; [reflexivity | exact IH]. Qed.

Lemma withoutSummaries_summary (st : State) (tail : list Line) :
  withoutSummaries false (summaryLines st ++ tail)
  = withoutSummaries false tail.
Proof.
  unfold summaryLines. cbn [app withoutSummaries].
  rewrite <- app_assoc. apply withoutSummaries_rows.
Qed.

Lemma withoutSummaries_flush (st : State) (tail : list Line) :
  withoutSummaries false (snd (flushFightSummary st) ++ tail)
  = withoutSummaries false tail.
Proof.
  unfold flushFightSummary. destruct (fightEmpty st); [reflexivity|].
  apply withoutSummaries_summary.
Qed.

Lemma withoutSummaries_round (p : DamagePayload) (tail : list Line) :
  withoutSummaries false ((roundLines p ++ [LBlank; LBlank]) ++ tail)
  = (roundLines p ++ [LBlank; LBlank]) ++ withoutSummaries false tail.
Proof.
  unfold roundLines.
  destruct (buildRoundPerSourceLines p) as [|l lines]; [reflexivity|].
  cbn [app withoutSummaries map]. do 3 f_equal.
  induction lines as [|x lines IH]; [reflexivity|].
  cbn [app withoutSummaries map]. now rewrite IH.
Qed.

Lemma withoutSummaries_entry (e : LogEntry) (st : State) (tail : list Line) :
  withoutSummaries false (snd (processEntry e st) ++ tail)
  = wholeLogLines e ++ withoutSummaries false tail.
Proof.
  destruct e as [ts message|ts [p|]]; [| |reflexivity].
  - cbn. now destruct message.
  - rewrite PlaybackFacts.processEntry_round.
    destruct (gapReached st ts && fightOpen st); cbn [snd wholeLogLines].
    + rewrite <- app_assoc, withoutSummaries_summary.
      apply withoutSummaries_round.
    + apply withoutSummaries_round.
Qed.

Lemma withoutSummaries_processAll (entries : list LogEntry) :
  forall (st : State) (tail : list Line),
    withoutSummaries false (snd (processAll entries st) ++ tail)
    = showWholeLog entries ++ withoutSummaries false tail.
Proof.
  unfold showWholeLog.
  induction entries as [|e entries IH]; intros st tail; [reflexivity|].
  cbn [processAll flat_map].
  destruct (processEntry e st) as [st1 out1] eqn:E1.
  destruct (processAll entries st1) as [st2 out2] eqn:E2.
  cbn [snd]. rewrite <- !app_assoc.
  change out1 with (snd (st1, out1)). rewrite <- E1.
  rewrite withoutSummaries_entry. f_equal.
  change out2 with (snd (st2, out2)). rewrite <- E2. apply IH.
Qed.

Lemma withoutSummaries_afterLoop (entries : list LogEntry) (cutoff : Q)
    (endIdx : nat) (st : State) (tail : list Line) :
  withoutSummaries false (snd (afterLoop entries cutoff endIdx st) ++ tail)
  = withoutSummaries false tail.
Proof.
  unfold afterLoop.
  destruct (timerFlush cutoff st) as [st1 out1] eqn:E1.
  destruct (finalFlush entries endIdx st1) as [st2 out2] eqn:E2.
  cbn [snd]. rewrite <- app_assoc.
  assert (H1 : forall t, withoutSummaries false (out1 ++ t)
                         = withoutSummaries false t).
  { intros t. revert E1. unfold timerFlush.
    destruct (nextFlushDeadline st) as [d|];
      [destruct (Qle_bool (inject_Z d) cutoff
                 && negb (fightFlushedByTimer st) && fightOpen st)|];
      intros E; inversion E; subst; try reflexivity.
    change (snd (flushFightSummary st)) with (snd (flushFightSummary st)).
    replace out1 with (snd (flushFightSummary st)) by (now rewrite E).
    apply withoutSummaries_flush. }
  assert (H2 : forall t, withoutSummaries false (out2 ++ t)
                         = withoutSummaries false t).
  { intros t. revert E2. unfold finalFlush.
    destruct (Nat.eqb endIdx (List.length entries));
      [destruct (negb (flushedFinal st1));
       [destruct (fightOpen st1)|]|];
      try (intros E; inversion E; subst; reflexivity).
    destruct (flushFightSummary st1) as [s o] eqn:Ef.
    intros E; inversion E; subst.
    change out2 with (snd (s, out2)). rewrite <- Ef.
    apply withoutSummaries_flush. }
  now rewrite H1, H2.
Qed.

(** What one run of the effect writes, and where it leaves the cursor. *)
Lemma playbackEffect_lines (first : LogEntry) (rest : list LogEntry)
    (time : Q) (st : State) (tail : list Line) :
  let entries := first :: rest in
  withoutSummaries false (snd (playbackEffect entries time st) ++ tail)
  = showWholeLog (slice entries (lastIndex st) (endAt entries time))
    ++ withoutSummaries false tail
  /\ lastIndex (fst (playbackEffect entries time st)) = endAt entries time.
Proof.
  intros entries. unfold endAt.
  set (cutoff := cutoffOf entries time).
  set (endIdx := visibleEnd entries cutoff).
  assert (Hle : (endIdx <= List.length entries)%nat)
    by apply PlaybackFacts.visibleEnd_le.
  unfold playbackEffect. fold entries. cbv zeta. fold cutoff endIdx.
  change (match entries with
          | [] => (st, [])
          | _ :: _ =>
              let '(st1, out1) := emitNew entries endIdx st in
              let '(st2, out2) := afterLoop entries cutoff endIdx st1 in
              (st2, out1 ++ out2)
          end)
    with (let '(st1, out1) := emitNew entries endIdx st in
          let '(st2, out2) := afterLoop entries cutoff endIdx st1 in
          (st2, out1 ++ out2)).
  rewrite (PlaybackFacts.emitNew_processAll entries endIdx st Hle).
  set (crossed := slice entries (lastIndex st) endIdx).
  set (shown := setLastIndex (fst (processAll crossed st)) endIdx).
  destruct (afterLoop entries cutoff endIdx shown) as [st2 out2] eqn:Ea.
  cbn [fst snd]. split.
  - rewrite <- app_assoc, withoutSummaries_processAll. f_equal.
    change out2 with (snd (st2, out2)). rewrite <- Ea.
    apply withoutSummaries_afterLoop.
  - assert (Hl : lastIndex (fst (afterLoop entries cutoff endIdx shown))
                 = lastIndex shown).
    { unfold afterLoop, timerFlush, finalFlush, flushFightSummary.
      destruct (nextFlushDeadline shown) as [d|];
        [destruct (Qle_bool (inject_Z d) cutoff
                   && negb (fightFlushedByTimer shown) && fightOpen shown);
         [destruct (fightEmpty shown)|]|];
        cbn [fst snd lastIndex flushedFinal];
        destruct (Nat.eqb endIdx (List.length entries));
        try reflexivity;
        match goal with
        | |- context [negb ?b] => destruct b
        end; cbn [negb]; try reflexivity;
        match goal with
        | |- context [fightOpen ?s] => destruct (fightOpen s)
        end; try reflexivity;
        match goal with
        | |- context [fightEmpty ?s] => destruct (fightEmpty s)
        end; reflexivity. }
    rewrite Ea in Hl. exact Hl.
Qed.

(** ** Time that moves forward *)

Lemma visibleEnd_mono (entries : list LogEntry) (c1 c2 : Q) :
  c1 <= c2 -> (visibleEnd entries c1 <= visibleEnd entries c2)%nat.
Proof.
  intros Hc. induction entries as [|e entries IH]; [apply le_n|].
  cbn [visibleEnd].
  destruct (Qltb c2 (inject_Z (getTime e))) eqn:E2.
  - apply PlaybackFacts.Qltb_true in E2.
    assert (E1 : Qltb c1 (inject_Z (getTime e)) = true).
    { apply PlaybackFacts.Qltb_true. eapply Qle_lt_trans; eassumption. }
    rewrite E1. apply le_n.
  - destruct (Qltb c1 (inject_Z (getTime e))); lia.
Qed.

Lemma cutoffOf_mono (entries : list LogEntry) (t1 t2 : Q) :
  t1 <= t2 -> cutoffOf entries t1 <= cutoffOf entries t2.
Proof.
  intros Ht. destruct entries as [|first rest]; cbn [cutoffOf].
  - apply Qle_refl.
  - apply Qplus_le_r. apply Qmult_le_compat_r; [exact Ht | discriminate].
Qed.

Lemma endAt_mono (entries : list LogEntry) (t1 t2 : Q) :
  t1 <= t2 -> (endAt entries t1 <= endAt entries t2)%nat.
Proof.
  intros Ht. unfold endAt. apply visibleEnd_mono. now apply cutoffOf_mono.
Qed.

Lemma firstn_then_firstn {X} (n m : nat) : forall l : list X,
  firstn n l ++ firstn m (skipn n l) = firstn (n + m) l.
Proof.
  induction n as [|n IH]; intros l; [reflexivity|].
  destruct l as [|x l]; cbn [firstn skipn Nat.add app].
  - now rewrite firstn_nil.
  - now rewrite IH.
Qed.

Lemma slice_app (entries : list LogEntry) (a b c : nat) :
  (a <= b)%nat -> (b <= c)%nat ->
  slice entries a b ++ slice entries b c = slice entries a c.
Proof.
  intros Hab Hbc. unfold slice.
  replace (skipn b entries) with (skipn (b - a) (skipn a entries))
    by (rewrite skipn_skipn; f_equal; lia).
  rewrite firstn_then_firstn. f_equal. lia.
Qed.

Lemma showWholeLog_app (l1 l2 : list LogEntry) :
  showWholeLog (l1 ++ l2) = showWholeLog l1 ++ showWholeLog l2.
Proof. apply flat_map_app. Qed.

Lemma last_In {X} (l : list X) : forall d : X,
  last l d = d \/ In (last l d) l.
Proof.
  induction l as [|x l IH]; intros d; [now left|].
  right. destruct l as [|y l]; [now left|].
  change (last (x :: y :: l) d) with (last (y :: l) d). right.
  destruct (IH d) as [H|H]; [|exact H].
  clear - l. revert y. induction l as [|z l IHl]; intros y; [now left|].
  right. apply IHl.
Qed.

Lemma sorted_le_last (a : Q) (l : list Q) :
  StronglySorted Qle (a :: l) -> a <= last l a.
Proof.
  intros Hs. inversion Hs as [|? ? _ Hall]; subst.
  destruct (last_In l a) as [H|H].
  - rewrite H. apply Qle_refl.
  - rewrite Forall_forall in Hall. now apply Hall.
Qed.

Lemma playbackRun_forward (first : LogEntry) (rest : list LogEntry)
    (later : list Q) :
  forall (time : Q) (st : State) (tail : list Line),
    StronglySorted Qle (time :: later) ->
    (lastIndex st <= endAt (first :: rest) time)%nat ->
    withoutSummaries false
      (snd (playbackRun (first :: rest) (time :: later) st) ++ tail)
    = showWholeLog (slice (first :: rest) (lastIndex st)
                      (endAt (first :: rest) (last later time)))
      ++ withoutSummaries false tail.
Proof.
  set (entries := first :: rest).
  induction later as [|next later IH]; intros time st tail Hs Hi.
  - cbn [playbackRun last].
    destruct (playbackEffect entries time st) as [st1 out1] eqn:E1.
    cbn [snd]. rewrite app_nil_r.
    change out1 with (snd (st1, out1)). rewrite <- E1.
    apply (playbackEffect_lines first rest time st tail).
  - change (playbackRun entries (time :: next :: later) st)
      with (let '(st1, out1) := playbackEffect entries time st in
            let '(st2, out2) := playbackRun entries (next :: later) st1 in
            (st2, out1 ++ out2)).
    destruct (playbackEffect_lines first rest time st
                (snd (playbackRun entries (next :: later)
                        (fst (playbackEffect entries time st))) ++ tail))
      as [Hlines Hidx].
    fold entries in Hlines, Hidx.
    destruct (playbackEffect entries time st) as [st1 out1] eqn:E1.
    cbn [fst snd] in Hlines, Hidx.
    destruct (playbackRun entries (next :: later) st1) as [st2 out2] eqn:E2.
    cbn [fst snd] in *. rewrite <- app_assoc, Hlines.
    inversion Hs as [|? ? Hs' Hall]; subst.
    assert (Hnext : time <= next) by (inversion Hall; assumption).
    change out2 with (snd (st2, out2)). rewrite <- E2.
    rewrite (IH next st1 tail Hs');
      [|rewrite Hidx; now apply endAt_mono].
    rewrite Hidx, app_assoc, <- showWholeLog_app.
    replace (last (next :: later) time) with (last later next)
      by (clear; revert next; induction later as [|x later IHl]; intros next;
          [reflexivity | cbn [last] in *; destruct later; [reflexivity|];
           apply IHl]).
    rewrite slice_app; [reflexivity | exact Hi |].
    apply endAt_mono. apply (Qle_trans _ next); [exact Hnext|].
    now apply sorted_le_last.
Qed.

(** X6: while time only moves forward, the playback writes every entry
    that has become visible exactly once and in the order of the log: the
    lines written by the runs of the effect, the fight summaries left
    out, are the lines that [showWholeLog] writes for the entries up to
    the last cutoff. *)
Theorem playback_forward_writes_the_log (first : LogEntry)
    (rest : list LogEntry) (time : Q) (later : list Q) :
  StronglySorted Qle (time :: later) ->
  let entries := first :: rest in
  withoutSummaries false (snd (playbackRun entries (time :: later) initial))
  = showWholeLog (firstn (endAt entries (last later time)) entries).
Proof.
  intros Hs entries.
  pose proof (playbackRun_forward first rest later time initial [] Hs
                (Nat.le_0_l _)) as H.
  rewrite app_nil_r in H. cbn [withoutSummaries] in H.
  rewrite app_nil_r in H. fold entries in H. rewrite H.
  unfold slice. cbn [lastIndex initial skipn]. now rewrite Nat.sub_0_r.
Qed.

Lemma playback_forward_writes_the_log_witness :
  StronglySorted Qle [0; 2; 400]
  /\ withoutSummaries false (snd (playbackRun twoFights [0; 2; 400] initial))
     = showWholeLog twoFights.
Proof.
  assert (Hs : StronglySorted Qle [0; 2; 400]).
  { repeat constructor; discriminate. }
  split; [exact Hs|].
  exact (playback_forward_writes_the_log
           (DslMessage 0 "You attack.") (tl twoFights) 0 [2; 400] Hs).
Defined.

(** ** Running the effect again *)

Lemma setLastIndex_same (st : State) : setLastIndex st (lastIndex st) = st.
Proof. now destruct st. Qed.

Lemma setFlushedFinal_same (st : State) :
  setFlushedFinal st (flushedFinal st) = st.
Proof. now destruct st. Qed.

Lemma timerFlush_cases (cutoff : Q) (st : State) :
  timerFlush cutoff st = (st, [])
  \/ (fightOpen st = true
      /\ (exists deadline, nextFlushDeadline st = Some deadline
                           /\ inject_Z deadline <= cutoff)
      /\ fightFlushedByTimer st = false
      /\ timerFlush cutoff st = (cleared st, summaryLines st)).
Proof.
  unfold timerFlush.
  destruct (nextFlushDeadline st) as [d|]; [|now left].
  destruct (Qle_bool (inject_Z d) cutoff) eqn:Ed; [|now left].
  destruct (fightFlushedByTimer st); [now left|].
  destruct (fightOpen st) eqn:Eo; [|now left].
  right. cbn [andb negb]. split; [reflexivity|]. split.
  - exists d. split; [reflexivity|]. now apply Qle_bool_iff.
  - split; [reflexivity|]. now apply PlaybackFacts.flush_open.
Qed.

Lemma timerFlush_closed (cutoff : Q) (st : State) :
  fightOpen st = false -> timerFlush cutoff st = (st, []).
Proof.
  intros Ho. destruct (timerFlush_cases cutoff st) as [H|(Ho' & _)];
    [exact H | congruence].
Qed.

Lemma timerFlush_setFlushedFinal (cutoff : Q) (st : State) (b : bool) :
  timerFlush cutoff st = (st, []) ->
  timerFlush cutoff (setFlushedFinal st b) = (setFlushedFinal st b, []).
Proof.
  unfold timerFlush, setFlushedFinal, fightOpen, flushFightSummary, fightEmpty.
  cbn [nextFlushDeadline fightFlushedByTimer byActor totals].
  destruct (nextFlushDeadline st) as [d|]; [|reflexivity].
  match goal with
  | |- (if ?c then _ else _) = _ -> _ => destruct c; [|reflexivity]
  end.
  match goal with
  | |- (if ?c then _ else _) = _ -> _ => destruct c
  end; [reflexivity|].
  intros H. inversion H.
Qed.

Lemma finalFlush_eq (entries : list LogEntry) (endIdx : nat) (st : State) :
  finalFlush entries endIdx st
  = if Nat.eqb endIdx (List.length entries) then
      if flushedFinal st then (st, [])
      else if fightOpen st
           then (setFlushedFinal (cleared st) true, summaryLines st)
           else (setFlushedFinal st true, [])
    else (setFlushedFinal st false, []).
Proof.
  unfold finalFlush.
  destruct (Nat.eqb endIdx (List.length entries)); [|reflexivity].
  destruct (flushedFinal st); [reflexivity|]. cbn [negb].
  destruct (fightOpen st) eqn:Eo; [|reflexivity].
  now rewrite (PlaybackFacts.flush_open _ Eo).
Qed.

Lemma afterLoop_again (entries : list LogEntry) (cutoff : Q) (endIdx : nat)
    (st : State) :
  afterLoop entries cutoff endIdx (fst (afterLoop entries cutoff endIdx st))
  = (fst (afterLoop entries cutoff endIdx st), []).
Proof.
  assert (Hstep : forall s1 : State,
             timerFlush cutoff s1 = (s1, []) ->
             afterLoop entries cutoff endIdx
               (fst (finalFlush entries endIdx s1))
             = (fst (finalFlush entries endIdx s1), [])).
  { intros s1 H1. unfold afterLoop. rewrite (finalFlush_eq entries endIdx s1).
    destruct (Nat.eqb endIdx (List.length entries)) eqn:Ee.
    - destruct (flushedFinal s1) eqn:Ef; cbn [fst].
      + rewrite H1, finalFlush_eq, Ee, Ef. reflexivity.
      + destruct (fightOpen s1) eqn:Eo; cbn [fst].
        * rewrite timerFlush_closed by reflexivity.
          rewrite finalFlush_eq, Ee. reflexivity.
        * rewrite (timerFlush_setFlushedFinal _ _ true H1).
          rewrite finalFlush_eq, Ee. reflexivity.
    - cbn [fst]. rewrite (timerFlush_setFlushedFinal _ _ false H1).
      rewrite finalFlush_eq, Ee. reflexivity. }
  assert (Hin : afterLoop entries cutoff endIdx st
                = (let '(s1, o1) := timerFlush cutoff st in
                   let '(s2, o2) := finalFlush entries endIdx s1 in
                   (s2, o1 ++ o2))) by reflexivity.
  rewrite Hin. clear Hin.
  destruct (timerFlush_cases cutoff st) as [H|(Ho & _ & _ & H)]; rewrite H.
  - specialize (Hstep st H).
    destruct (finalFlush entries endIdx st) as [s2 o2]. exact Hstep.
  - specialize (Hstep (cleared st)
                  (timerFlush_closed _ _ (PlaybackFacts.fightOpen_cleared st))).
    destruct (finalFlush entries endIdx (cleared st)) as [s2 o2]. exact Hstep.
Qed.

(** X7: the effect can be run again without harm.  A second run at the
    same time, as React makes when the component renders again, writes
    nothing and leaves every ref as the first run left it. *)
Theorem playbackEffect_again (entries : list LogEntry) (time : Q)
    (st : State) :
  playbackEffect entries time (fst (playbackEffect entries time st))
  = (fst (playbackEffect entries time st), []).
Proof.
  destruct entries as [|first rest]; [reflexivity|].
  destruct (playbackEffect_lines first rest time st []) as [_ Hidx].
  set (entries := first :: rest) in *.
  unfold endAt in Hidx.
  set (cutoff := cutoffOf entries time) in *.
  set (endIdx := visibleEnd entries cutoff) in *.
  assert (Hshape : forall s : State,
             playbackEffect entries time s
             = (let '(st1, out1) := emitNew entries endIdx s in
                let '(st2, out2) := afterLoop entries cutoff endIdx st1 in
                (st2, out1 ++ out2))) by reflexivity.
  rewrite (Hshape (fst (playbackEffect entries time st))).
  unfold emitNew at 1. rewrite Hidx, Nat.sub_diag. cbn [emitLoop].
  rewrite <- Hidx at 2. rewrite setLastIndex_same.
  rewrite Hshape.
  destruct (emitNew entries endIdx st) as [st1 out1].
  pose proof (afterLoop_again entries cutoff endIdx st1) as Ha.
  destruct (afterLoop entries cutoff endIdx st1) as [st2 out2].
  cbn [fst] in *. now rewrite Ha.
Qed.

(** ** What every run keeps *)

Lemma payloads_app (l1 l2 : list LogEntry) :
  payloads (l1 ++ l2) = payloads l1 ++ payloads l2.
Proof. apply flat_map_app. Qed.

Lemma payloads_slice (entries : list LogEntry) (from to : nat)
    (p : DamagePayload) :
  In p (payloads (slice entries from to)) -> In p (payloads entries).
Proof.
  unfold slice. intros H.
  rewrite <- (firstn_skipn from entries), payloads_app.
  apply in_or_app. right.
  rewrite <- (firstn_skipn (to - from) (skipn from entries)), payloads_app.
  apply in_or_app. now left.
Qed.

Section Kept.

(** A property of the refs and a property of the lines written, which
    the steps of the effect keep for the rounds that are [ok]. *)
Variable keptRefs : State -> Prop.
Variable keptLines : list Line -> Prop.
Variable ok : DamagePayload -> Prop.

Hypothesis kept_index : forall st i, keptRefs st -> keptRefs (setLastIndex st i).
Hypothesis kept_final : forall st b,
  keptRefs st -> keptRefs (setFlushedFinal st b).
Hypothesis kept_cleared : forall st, keptRefs st -> keptRefs (cleared st).
Hypothesis kept_round : forall st p ts,
  ok p -> keptRefs st -> keptRefs (accumulated p ts st).
Hypothesis lines_nil : keptLines [].
Hypothesis lines_app : forall a b,
  keptLines a -> keptLines b -> keptLines (a ++ b).
Hypothesis lines_text : forall s, keptLines [LText s].
Hypothesis lines_round : forall p, keptLines (roundLines p ++ [LBlank; LBlank]).
Hypothesis lines_summary : forall st, keptRefs st -> keptLines (summaryLines st).

Lemma kept_processEntry (e : LogEntry) (st : State) :
  (forall p, In p (payloads [e]) -> ok p) -> keptRefs st ->
  keptRefs (fst (processEntry e st)) /\ keptLines (snd (processEntry e st)).
Proof.
  intros Hok Hst. destruct e as [ts message|ts [p|]].
  - split; [exact Hst | apply lines_text].
  - assert (Hp : ok p) by (apply Hok; now left).
    rewrite PlaybackFacts.processEntry_round.
    destruct (gapReached st ts && fightOpen st); cbn [fst snd]; split.
    + apply kept_round; [exact Hp | now apply kept_cleared].
    + apply lines_app; [now apply lines_summary | apply lines_round].
    + now apply kept_round.
    + apply lines_round.
  - split; [exact Hst | apply lines_nil].
Qed.

Lemma kept_processAll (entries : list LogEntry) : forall st : State,
  (forall p, In p (payloads entries) -> ok p) -> keptRefs st ->
  keptRefs (fst (processAll entries st))
  /\ keptLines (snd (processAll entries st)).
Proof.
  induction entries as [|e entries IH]; intros st Hok Hst.
  - split; [exact Hst | apply lines_nil].
  - cbn [processAll].
    destruct (kept_processEntry e st) as [H1 H1'];
      [intros p Hp; apply Hok; cbn [payloads flat_map] in *;
       rewrite app_nil_r in Hp; apply in_or_app; now left
      | exact Hst |].
    destruct (processEntry e st) as [st1 out1]. cbn [fst snd] in H1, H1'.
    destruct (IH st1) as [H2 H2'];
      [intros p Hp; apply Hok; cbn [payloads flat_map];
       apply in_or_app; now right
      | exact H1 |].
    destruct (processAll entries st1) as [st2 out2]. cbn [fst snd] in *.
    split; [exact H2 | now apply lines_app].
Qed.

Lemma kept_emitNew (entries : list LogEntry) (endIdx : nat) (st : State) :
  (forall p, In p (payloads entries) -> ok p) ->
  (endIdx <= List.length entries)%nat -> keptRefs st ->
  keptRefs (fst (emitNew entries endIdx st))
  /\ keptLines (snd (emitNew entries endIdx st)).
Proof.
  intros Hok Hle Hst.
  rewrite (PlaybackFacts.emitNew_processAll entries endIdx st Hle).
  destruct (kept_processAll (slice entries (lastIndex st) endIdx) st)
    as [H1 H2];
    [intros p Hp; apply Hok; eapply payloads_slice; exact Hp | exact Hst |].
  cbn [fst snd]. split; [now apply kept_index | exact H2].
Qed.

Lemma kept_afterLoop (entries : list LogEntry) (cutoff : Q) (endIdx : nat)
    (st : State) :
  keptRefs st ->
  keptRefs (fst (afterLoop entries cutoff endIdx st))
  /\ keptLines (snd (afterLoop entries cutoff endIdx st)).
Proof.
  intros Hst. unfold afterLoop.
  assert (H1 : keptRefs (fst (timerFlush cutoff st))
               /\ keptLines (snd (timerFlush cutoff st))).
  { destruct (timerFlush_cases cutoff st) as [H|(_ & _ & _ & H)]; rewrite H;
      cbn [fst snd]; split; auto. }
  destruct (timerFlush cutoff st) as [s1 o1]. cbn [fst snd] in H1.
  destruct H1 as [H1 H1'].
  assert (H2 : keptRefs (fst (finalFlush entries endIdx s1))
               /\ keptLines (snd (finalFlush entries endIdx s1))).
  { rewrite finalFlush_eq.
    destruct (Nat.eqb endIdx (List.length entries));
      [destruct (flushedFinal s1); [|destruct (fightOpen s1)]|];
      cbn [fst snd]; split; auto. }
  destruct (finalFlush entries endIdx s1) as [s2 o2]. cbn [fst snd] in *.
  destruct H2 as [H2 H2']. split; [exact H2 | now apply lines_app].
Qed.

Lemma kept_playbackEffect (entries : list LogEntry) (time : Q) (st : State) :
  (forall p, In p (payloads entries) -> ok p) -> keptRefs st ->
  keptRefs (fst (playbackEffect entries time st))
  /\ keptLines (snd (playbackEffect entries time st)).
Proof.
  intros Hok Hst. destruct entries as [|first rest];
    [split; [exact Hst | apply lines_nil]|].
  set (entries := first :: rest) in *.
  set (cutoff := cutoffOf entries time).
  set (endIdx := visibleEnd entries cutoff).
  change (playbackEffect entries time st)
    with (let '(st1, out1) := emitNew entries endIdx st in
          let '(st2, out2) := afterLoop entries cutoff endIdx st1 in
          (st2, out1 ++ out2)).
  destruct (kept_emitNew entries endIdx st Hok
              (PlaybackFacts.visibleEnd_le entries cutoff) Hst) as [H1 H1'].
  destruct (emitNew entries endIdx st) as [st1 out1]. cbn [fst snd] in *.
  destruct (kept_afterLoop entries cutoff endIdx st1 H1) as [H2 H2'].
  destruct (afterLoop entries cutoff endIdx st1) as [st2 out2].
  cbn [fst snd] in *. split; [exact H2 | now apply lines_app].
Qed.

Lemma kept_playbackRun (entries : list LogEntry) (times : list Q) :
  forall st : State,
    (forall p, In p (payloads entries) -> ok p) -> keptRefs st ->
    keptRefs (fst (playbackRun entries times st))
    /\ keptLines (snd (playbackRun entries times st)).
Proof.
  induction times as [|time later IH]; intros st Hok Hst.
  - split; [exact Hst | apply lines_nil].
  - cbn [playbackRun].
    destruct (kept_playbackEffect entries time st Hok Hst) as [H1 H1'].
    destruct (playbackEffect entries time st) as [st1 out1].
    cbn [fst snd] in *.
    destruct (IH st1 Hok H1) as [H2 H2'].
    destruct (playbackRun entries later st1) as [st2 out2].
    cbn [fst snd] in *. split; [exact H2 | now apply lines_app].
Qed.

End Kept.

(** ** The timers *)

Lemma steady_initial : steady initial.
Proof.
  split; [reflexivity|]. split; [|constructor].
  intros H. discriminate.
Qed.

Lemma steady_cleared (st : State) : steady (cleared st).
Proof.
  split; [reflexivity|]. split; [|constructor].
  intros H. rewrite PlaybackFacts.fightOpen_cleared in H. discriminate.
Qed.

Lemma steady_round (st : State) (p : DamagePayload) (ts : Z) :
  steady st -> steady (accumulated p ts st).
Proof.
  intros (_ & _ & Hnd). split; [reflexivity|]. split.
  - intros _. split; [reflexivity | discriminate].
  - now apply FigureFacts.addRoundToActors_NoDup.
Qed.

Lemma steady_kept (entries : list LogEntry) (times : list Q) (st : State) :
  steady st -> steady (fst (playbackRun entries times st)).
Proof.
  intros Hst.
  exact (proj1 (kept_playbackRun steady (fun _ => True) (fun _ => True)
                  (fun s i H => H) (fun s b H => H)
                  (fun s _ => steady_cleared s)
                  (fun s p ts _ H => steady_round s p ts H)
                  I (fun _ _ _ _ => I) (fun _ => I) (fun _ => I)
                  (fun _ _ => I)
                  entries times st (fun _ _ => I) Hst)).
Qed.

Lemma steady_emitNew (entries : list LogEntry) (endIdx : nat) (st : State) :
  (endIdx <= List.length entries)%nat ->
  steady st -> steady (fst (emitNew entries endIdx st)).
Proof.
  intros Hle Hst.
  exact (proj1 (kept_emitNew steady (fun _ => True) (fun _ => True)
                  (fun s i H => H)
                  (fun s _ => steady_cleared s)
                  (fun s p ts _ H => steady_round s p ts H)
                  I (fun _ _ _ _ => I) (fun _ => I) (fun _ => I)
                  (fun _ _ => I)
                  entries endIdx st (fun _ _ => I) Hle Hst)).
Qed.

Lemma steady_timerFlush (cutoff : Q) (st : State) :
  steady st ->
  (snd (timerFlush cutoff st) <> []
   <-> fightOpen st = true
       /\ exists last : Z,
            lastDamageTs st = Some last
            /\ inject_Z (last + FIVE_MIN_MS) <= cutoff).
Proof.
  intros (Ht & Ha & _). unfold timersAgree in Ht. split.
  - intros Hout.
    destruct (timerFlush_cases cutoff st)
      as [H|(Ho & (d & Hd & Hle) & _ & _)]; [now rewrite H in Hout|].
    split; [exact Ho|]. rewrite Hd in Ht.
    destruct (lastDamageTs st) as [last|]; [|discriminate].
    exists last. split; [reflexivity|]. cbn in Ht. now inversion Ht; subst.
  - intros (Ho & last & Hl & Hle). destruct (Ha Ho) as [Hf _].
    unfold timerFlush. rewrite Ht, Hl. cbn [option_map].
    apply Qle_bool_iff in Hle. rewrite Hle, Hf, Ho. cbn [negb andb].
    rewrite (PlaybackFacts.flush_open _ Ho). discriminate.
Qed.

(** X8: between runs the deadline is always five minutes after the
    last round that was accumulated, and a fight that is open has such
    a round and has not been flushed; no actor is listed twice.  So in
    every run the time-based flush writes a summary exactly when a fight
    is open and the cutoff has reached five minutes after its last
    round. *)
Theorem timer_flush_when_due (entries : list LogEntry) (times : list Q)
    (time : Q) :
  let st := fst (playbackRun entries times initial) in
  let cutoff := cutoffOf entries time in
  let shown := fst (emitNew entries (endAt entries time) st) in
  steady st
  /\ (snd (timerFlush cutoff shown) <> []
      <-> fightOpen shown = true
          /\ exists last : Z,
               lastDamageTs shown = Some last
               /\ inject_Z (last + FIVE_MIN_MS) <= cutoff).
Proof.
  intros st cutoff shown.
  assert (Hst : steady st) by (apply steady_kept, steady_initial).
  split; [exact Hst|].
  apply steady_timerFlush. apply steady_emitNew; [|exact Hst].
  apply PlaybackFacts.visibleEnd_le.
Qed.

(** ** Summaries that add up *)

Lemma balancedOutput_app (a b : list Line) :
  balancedOutput a -> balancedOutput b -> balancedOutput (a ++ b).
Proof.
  intros Ha Hb. induction Ha as [|l out H1 H2 _ IH|t rows out Hs _ IH].
  - exact Hb.
  - cbn [app]. now constructor.
  - cbn [app]. rewrite <- app_assoc. cbn [app]. now constructor.
Qed.

Lemma balancedOutput_plain (l : list Line) :
  forallb (fun x => negb (isSummaryHeader x) && negb (isSummaryRow x)) l
  = true ->
  balancedOutput l.
Proof.
  induction l as [|x l IH]; intros H; [constructor|].
  cbn [forallb] in H. apply andb_true_iff in H. destruct H as [Hx H].
  apply andb_true_iff in Hx. destruct Hx as [H1 H2].
  apply negb_true_iff in H1. apply negb_true_iff in H2.
  constructor; auto.
Qed.

Lemma balancedOutput_round (p : DamagePayload) :
  balancedOutput (roundLines p ++ [LBlank; LBlank]).
Proof.
  apply balancedOutput_plain. unfold roundLines.
  destruct (buildRoundPerSourceLines p) as [|l lines]; [reflexivity|].
  cbn [app forallb isSummaryHeader isSummaryRow negb andb].
  rewrite forallb_app. apply andb_true_iff. split; [|reflexivity].
  apply forallb_forall. intros x Hx.
  change (LRoundRow (fst l) (snd l)
          :: map (fun l0 => LRoundRow (fst l0) (snd l0)) lines)
    with (map (fun l0 => LRoundRow (fst l0) (snd l0)) (l :: lines)) in Hx.
  apply in_map_iff in Hx. destruct Hx as (r & <- & _). reflexivity.
Qed.

Lemma balancedOutput_summary (st : State) :
  balanced st -> balancedOutput (summaryLines st).
Proof.
  intros Hb. unfold summaryLines.
  apply (balanced_summary (totals st) (JsSort.sort byDamage (byActor st)) []);
    [|constructor].
  eapply FightFacts.aggEq_trans; [apply FigureFacts.sumFigures_sort | exact Hb].
Qed.

(** X9: when every round of the log rests on its rows and events, all
    three figures of every fight summary add up, however the playback is
    driven: in each summary written by any sequence of runs (forward,
    back, by the timer, at the end of the log) the damage, the hits and
    the misses of the rows sum to those of the header. *)
Theorem summaries_add_up (entries : list LogEntry) (times : list Q) :
  Forall (fun p => fullyAttributable p = true) (payloads entries) ->
  balanced (fst (playbackRun entries times initial))
  /\ balancedOutput (snd (playbackRun entries times initial)).
Proof.
  intros Hall. rewrite Forall_forall in Hall.
  assert (Hzero : aggEq (sumFigures []) zero) by (cbn; FigureFacts.agg_arith).
  exact (kept_playbackRun balanced balancedOutput
           (fun p => fullyAttributable p = true)
           (fun s i H => H) (fun s b H => H)
           (fun s _ => Hzero)
           (fun s p ts Hp Hb =>
              FigureFacts.round_keeps_figures p (byActor s) (totals s) Hp Hb)
           balanced_nil balancedOutput_app
           (fun t => balanced_line (LText t) [] eq_refl eq_refl balanced_nil)
           balancedOutput_round balancedOutput_summary
           entries times initial Hall Hzero).
Qed.

Lemma summaries_add_up_witness :
  Forall (fun p => fullyAttributable p = true) (payloads twoFights)
  /\ balancedOutput (snd (playbackRun twoFights [2; 0; 400] initial)).
Proof.
  assert (Hall : Forall (fun p => fullyAttributable p = true)
                   (payloads twoFights)) by (repeat constructor).
  split; [exact Hall|].
  exact (proj2 (summaries_add_up twoFights [2; 0; 400] Hall)).
Defined.

(** ** Nothing is left at the end of the log *)

Lemma nonneg_cleared (st : State) : totalsNonNegative (cleared st).
Proof. repeat split; cbn; try lia; apply Qle_refl. Qed.

Lemma nonneg_round (st : State) (p : DamagePayload) (ts : Z) :
  nonNegative p = true ->
  totalsNonNegative st -> totalsNonNegative (accumulated p ts st).
Proof.
  intros Hp (Hd & Hh & Hm).
  destruct (FigureFacts.roundTotals_nonneg p Hp) as (Rd & Rh & Rm).
  destruct (FightFacts.addRoundToTotals_adds p (totals st)) as (Ad & Ah & Am).
  unfold totalsNonNegative. cbn [totals accumulated aggPlus damage hits misses]
    in *. rewrite Ad, Ah, Am. repeat split; try lia. lra.
Qed.

Lemma nonneg_emitNew (entries : list LogEntry) (endIdx : nat) (st : State) :
  (forall p, In p (payloads entries) -> nonNegative p = true) ->
  (endIdx <= List.length entries)%nat ->
  totalsNonNegative st -> totalsNonNegative (fst (emitNew entries endIdx st)).
Proof.
  intros Hall Hle Hst.
  exact (proj1 (kept_emitNew totalsNonNegative (fun _ => True)
                  (fun p => nonNegative p = true)
                  (fun s i H => H)
                  (fun s _ => nonneg_cleared s)
                  (fun s p ts Hp H => nonneg_round s p ts Hp H)
                  I (fun _ _ _ _ => I) (fun _ => I) (fun _ => I)
                  (fun _ _ => I)
                  entries endIdx st Hall Hle Hst)).
Qed.

Lemma closed_when_empty (st : State) :
  fightEmpty st = true -> fightOpen st = false.
Proof.
  intros He. destruct (fightOpen st) eqn:Eo; [|reflexivity].
  rewrite (PlaybackFacts.fightOpen_not_empty _ Eo) in He. discriminate.
Qed.

Lemma empty_when_closed (st : State) :
  totalsNonNegative st -> fightOpen st = false -> fightEmpty st = true.
Proof.
  intros (Hd & Hh & Hm) Ho. destruct (fightEmpty st) eqn:Ee; [reflexivity|].
  rewrite (PlaybackFacts.not_empty_fightOpen st Hd Hh Hm Ee) in Ho.
  discriminate.
Qed.

Lemma settle_step (entries : list LogEntry) (time : Q) (st : State) :
  (forall p, In p (payloads entries) -> nonNegative p = true) ->
  entries <> [] ->
  totalsNonNegative st -> settled entries st ->
  let st' := fst (playbackEffect entries time st) in
  totalsNonNegative st' /\ settled entries st'
  /\ (endAt entries time = List.length entries -> fightEmpty st' = true).
Proof.
  intros Hall Hne Hnn Hset.
  destruct entries as [|first rest]; [congruence|]. clear Hne.
  set (entries := first :: rest) in *. unfold endAt.
  set (cutoff := cutoffOf entries time).
  set (endIdx := visibleEnd entries cutoff).
  assert (Hle : (endIdx <= List.length entries)%nat)
    by apply PlaybackFacts.visibleEnd_le.
  change (playbackEffect entries time st)
    with (let '(st1, out1) := emitNew entries endIdx st in
          let '(st2, out2) := afterLoop entries cutoff endIdx st1 in
          (st2, out1 ++ out2)).
  assert (Hshown : totalsNonNegative (fst (emitNew entries endIdx st))
                   /\ lastIndex (fst (emitNew entries endIdx st)) = endIdx
                   /\ flushedFinal (fst (emitNew entries endIdx st))
                      = flushedFinal st
                   /\ (flushedFinal st = true ->
                       fightEmpty (fst (emitNew entries endIdx st)) = true)).
  { split; [now apply nonneg_emitNew|]. split.
    { rewrite (PlaybackFacts.emitNew_processAll _ _ _ Hle). reflexivity. }
    split; [now apply PlaybackFacts.emitNew_flushedFinal|].
    intros Hf. destruct (Hset Hf) as [He Hi].
    unfold emitNew. rewrite Hi.
    replace (endIdx - List.length entries)%nat with 0%nat by lia.
    cbn [emitLoop fst]. exact He. }
  destruct (emitNew entries endIdx st) as [shown out1]. cbn [fst] in Hshown.
  destruct Hshown as (Hn1 & Hi1 & Hf1 & He1).
  unfold afterLoop.
  assert (Hs1 : let s1 := fst (timerFlush cutoff shown) in
                totalsNonNegative s1 /\ lastIndex s1 = endIdx
                /\ flushedFinal s1 = flushedFinal st
                /\ (flushedFinal st = true -> fightEmpty s1 = true)).
  { destruct (timerFlush_cases cutoff shown) as [H|(Ho & _ & _ & H)];
      rewrite H; cbn [fst].
    - split; [exact Hn1|]. split; [exact Hi1|]. split; [exact Hf1|exact He1].
    - split; [apply nonneg_cleared|]. split; [exact Hi1|].
      split; [exact Hf1|].
      intros Hf. specialize (He1 Hf).
      rewrite (closed_when_empty _ He1) in Ho. discriminate. }
  destruct (timerFlush cutoff shown) as [s1 o1]. cbn [fst] in Hs1.
  destruct Hs1 as (Hn2 & Hi2 & Hf2 & He2).
  rewrite finalFlush_eq.
  destruct (Nat.eqb endIdx (List.length entries)) eqn:Ee.
  - apply Nat.eqb_eq in Ee.
    destruct (flushedFinal s1) eqn:Ef; cbn [fst].
    + rewrite <- Hf2 in He2. specialize (He2 eq_refl).
      split; [exact Hn2|]. split; [|intros _; exact He2].
      intros _. split; [exact He2 | now rewrite Hi2].
    + destruct (fightOpen s1) eqn:Eo; cbn [fst].
      * split; [apply nonneg_cleared|]. split; [|reflexivity].
        intros _. split; [reflexivity|]. cbn. now rewrite Hi2.
      * pose proof (empty_when_closed _ Hn2 Eo) as He.
        split; [exact Hn2|]. split; [|intros _; exact He].
        intros _. split; [exact He|]. cbn. now rewrite Hi2.
  - apply Nat.eqb_neq in Ee. cbn [fst].
    split; [exact Hn2|]. split; [intros H; discriminate H|].
    intros H. contradiction.
Qed.

Lemma settle_run (entries : list LogEntry) (times : list Q) :
  (forall p, In p (payloads entries) -> nonNegative p = true) ->
  entries <> [] ->
  forall st : State,
    totalsNonNegative st -> settled entries st ->
    totalsNonNegative (fst (playbackRun entries times st))
    /\ settled entries (fst (playbackRun entries times st)).
Proof.
  intros Hall Hne. induction times as [|time later IH]; intros st Hn Hs.
  - split; assumption.
  - cbn [playbackRun].
    destruct (settle_step entries time st Hall Hne Hn Hs) as (H1 & H2 & _).
    destruct (playbackEffect entries time st) as [st1 out1]. cbn [fst] in *.
    destruct (IH st1 H1 H2) as [H3 H4].
    destruct (playbackRun entries later st1) as [st2 out2]. cbn [fst] in *.
    split; assumption.
Qed.

(** X10: no round is left out of the summaries.  For a log none of
    whose figures is negative, whatever runs came before, a run that
    ends with the whole log visible leaves the accumulator empty: all
    that was accumulated has been written in a fight summary.  Between
    runs the totals are never negative, so the test that guards a flush
    and the test on which the flush returns at once never disagree. *)
Theorem end_of_log_leaves_nothing (entries : list LogEntry)
    (times : list Q) (time : Q) :
  Forall (fun p => nonNegative p = true) (payloads entries) ->
  entries <> [] ->
  let st := fst (playbackRun entries times initial) in
  totalsNonNegative st
  /\ fightOpen st = negb (fightEmpty st)
  /\ (endAt entries time = List.length entries ->
      fightEmpty (fst (playbackEffect entries time st)) = true).
Proof.
  intros Hall Hne st. rewrite Forall_forall in Hall.
  assert (Hinit : totalsNonNegative initial)
    by (repeat split; cbn; try lia; apply Qle_refl).
  assert (Hsinit : settled entries initial) by (intros H; discriminate H).
  destruct (settle_run entries times Hall Hne initial Hinit Hsinit)
    as [Hn Hs].
  fold st in Hn, Hs. split; [exact Hn|]. split.
  - destruct (fightOpen st) eqn:Eo.
    + now rewrite (PlaybackFacts.fightOpen_not_empty _ Eo).
    + now rewrite (empty_when_closed _ Hn Eo).
  - apply (settle_step entries time st Hall Hne Hn Hs).
Qed.

Lemma end_of_log_leaves_nothing_witness :
  Forall (fun p => nonNegative p = true) (payloads twoFights)
  /\ twoFights <> []
  /\ fightEmpty (fst (playbackEffect twoFights 400
                        (fst (playbackRun twoFights [2; 0] initial)))) = true.
Proof.
  assert (Hall : Forall (fun p => nonNegative p = true) (payloads twoFights))
    by (repeat constructor).
  assert (Hne : twoFights <> []) by discriminate.
  split; [exact Hall|]. split; [exact Hne|].
  exact (proj2 (proj2 (end_of_log_leaves_nothing twoFights [2; 0] 400
                         Hall Hne)) eq_refl).
Defined.

(** ** Moving time back *)

Lemma slice_empty (entries : list LogEntry) (from to : nat) :
  (to <= from)%nat -> slice entries from to = [].
Proof.
  intros H. unfold slice. now replace (to - from)%nat with 0%nat by lia.
Qed.

(** X11: moving time back writes no entry and takes the cursor back
    with it; when time moves forward again, the entries in between are
    written a second time and their rounds are accumulated again. *)
Theorem rewind_replays (first : LogEntry) (rest : list LogEntry)
    (back time : Q) (st : State) :
  back <= time ->
  let entries := first :: rest in
  let s1 := fst (playbackEffect entries time st) in
  let s2 := fst (playbackEffect entries back s1) in
  let crossed := slice entries (endAt entries back) (endAt entries time) in
  withoutSummaries false (snd (playbackEffect entries back s1)) = []
  /\ lastIndex s2 = endAt entries back
  /\ withoutSummaries false (snd (playbackEffect entries time s2))
     = showWholeLog crossed
  /\ emitNew entries (endAt entries time) s2
     = (setLastIndex (fst (processAll crossed s2)) (endAt entries time),
        snd (processAll crossed s2)).
Proof.
  intros Hle entries s1 s2 crossed.
  destruct (playbackEffect_lines first rest time st []) as [_ H1].
  destruct (playbackEffect_lines first rest back s1 []) as [H2 H2'].
  destruct (playbackEffect_lines first rest time s2 []) as [H3 _].
  fold entries in H1, H2, H2', H3. fold s1 in H1, H2. fold s2 in H2', H3.
  rewrite app_nil_r in H2. rewrite app_nil_r in H3.
  cbn [withoutSummaries] in H2, H3.
  rewrite app_nil_r in H2. rewrite app_nil_r in H3.
  split; [|split; [exact H2'|split]].
  - rewrite H2, H1, slice_empty; [reflexivity|]. now apply endAt_mono.
  - rewrite H3, H2'. reflexivity.
  - rewrite (PlaybackFacts.emitNew_processAll entries (endAt entries time) s2
               (PlaybackFacts.visibleEnd_le _ _)).
    now rewrite H2'.
Qed.

Lemma rewind_replays_witness :
  2 <= 400
  /\ withoutSummaries false
       (snd (playbackEffect twoFights 400
               (fst (playbackEffect twoFights 2
                       (fst (playbackEffect twoFights 400 initial))))))
     = showWholeLog (slice twoFights 3 5).
Proof.
  assert (Hle : 2 <= 400) by discriminate.
  split; [exact Hle|].
  exact (proj1 (proj2 (proj2 (rewind_replays (DslMessage 0 "You attack.")
                                (tl twoFights) 2 400 initial Hle)))).
Defined.

End RunFacts.

(* ================================================================== *)
(** * An advance of the clock *)
(* ================================================================== *)

Module AdvanceFacts.

Import Log.
Import Fight.
Import Playback.
Import Exports.
Import Notions.

(** ** Nothing of a round is lost *)

Lemma summaryHeaders_app (a b : list Line) :
  summaryHeaders (a ++ b) = summaryHeaders a ++ summaryHeaders b.
Proof. apply flat_map_app. Qed.

Lemma summaryHeaders_rows {X} (f : X -> Line) (l : list X) :
  (forall x, isSummaryHeader (f x) = false) -> summaryHeaders (map f l) = [].
Proof.
  intros Hf. unfold summaryHeaders.
  induction l as [|x l IH]; [reflexivity|]. cbn [map flat_map].
  rewrite IH. specialize (Hf x). now destruct (f x).
Qed.

Lemma summaryHeaders_round (p : DamagePayload) :
  summaryHeaders (roundLines p ++ [LBlank; LBlank]) = [].
Proof.
  rewrite summaryHeaders_app. unfold roundLines.
  destruct (buildRoundPerSourceLines p) as [|l lines]; [reflexivity|].
  change (summaryHeaders
            (LRoundHeader (totalDamage p) (Log.hits p) (Log.misses p)
             :: LBySource
             :: map (fun l0 => LRoundRow (fst l0) (snd l0)) (l :: lines)))
    with (summaryHeaders
            (map (fun l0 => LRoundRow (fst l0) (snd l0)) (l :: lines))).
  now rewrite summaryHeaders_rows.
Qed.

Lemma summaryHeaders_summary (st : State) :
  summaryHeaders (summaryLines st) = [totals st].
Proof.
  unfold summaryLines.
  assert (Hc : forall t l, summaryHeaders (LSummaryHeader t :: l)
                           = t :: summaryHeaders l) by reflexivity.
  rewrite Hc, summaryHeaders_app, summaryHeaders_rows by reflexivity.
  reflexivity.
Qed.

(** What the summaries written report and what is still held add up to
    what was held before and what the rounds brought in. *)
Lemma processEntry_keeps_all (e : LogEntry) (st : State) :
  aggEq (aggPlus (sumAgg (summaryHeaders (snd (processEntry e st))))
                 (totals (fst (processEntry e st))))
        (aggPlus (totals st) (sumAgg (map roundTotals (payloads [e])))).
Proof.
  destruct e as [ts message|ts [p|]].
  - cbn. FigureFacts.agg_arith.
  - rewrite PlaybackFacts.processEntry_round.
    pose proof (FightFacts.addRoundToTotals_adds p) as Hadd.
    destruct (gapReached st ts && fightOpen st); cbn [fst snd].
    + rewrite summaryHeaders_app, summaryHeaders_summary, summaryHeaders_round.
      specialize (Hadd zero). cbn [accumulated cleared totals app sumAgg
                                   fold_right payloads flat_map map] in *.
      FigureFacts.agg_arith.
    + rewrite summaryHeaders_round. specialize (Hadd (totals st)).
      cbn [accumulated totals sumAgg fold_right payloads flat_map map app] in *.
      FigureFacts.agg_arith.
  - cbn. FigureFacts.agg_arith.
Qed.

Lemma sumAgg_app (a b : list PerActor) :
  aggEq (sumAgg (a ++ b)) (aggPlus (sumAgg a) (sumAgg b)).
Proof.
  induction a as [|x a IH]; cbn [app].
  - change (sumAgg []) with zero. FigureFacts.agg_arith.
  - change (sumAgg (x :: a ++ b)) with (aggPlus x (sumAgg (a ++ b))).
    change (sumAgg (x :: a)) with (aggPlus x (sumAgg a)).
    FigureFacts.agg_arith.
Qed.

Lemma processAll_keeps_all (entries : list LogEntry) : forall st : State,
  aggEq (aggPlus (sumAgg (summaryHeaders (snd (processAll entries st))))
                 (totals (fst (processAll entries st))))
        (aggPlus (totals st) (sumAgg (map roundTotals (payloads entries)))).
Proof.
  induction entries as [|e entries IH]; intros st.
  - cbn. FigureFacts.agg_arith.
  - cbn [processAll].
    pose proof (processEntry_keeps_all e st) as H1.
    destruct (processEntry e st) as [st1 out1]. cbn [fst snd] in H1.
    specialize (IH st1).
    destruct (processAll entries st1) as [st2 out2]. cbn [fst snd] in *.
    rewrite summaryHeaders_app.
    pose proof (sumAgg_app (summaryHeaders out1) (summaryHeaders out2)) as Ha.
    rewrite (RunFacts.payloads_app [e] entries : payloads (e :: entries) = _).
    rewrite map_app.
    pose proof (sumAgg_app (map roundTotals (payloads [e]))
                  (map roundTotals (payloads entries))) as Hb.
    FigureFacts.agg_arith.
Qed.

(** ** The rounds of one fight, with lines of text between them *)

Lemma processAll_one_fight (entries : list LogEntry) : forall st : State,
  gapFreeFrom (lastDamageTs st) (roundsOf entries) ->
  summaries (snd (processAll entries st)) = 0%nat
  /\ byActor (fst (processAll entries st))
     = fold_left (fun m r => addRoundToActors (snd r) m) (roundsOf entries)
         (byActor st)
  /\ totals (fst (processAll entries st))
     = fold_left (fun t r => addRoundToTotals (snd r) t) (roundsOf entries)
         (totals st).
Proof.
  induction entries as [|e entries IH]; intros st Hgap;
    [repeat split|].
  cbn [processAll]. destruct e as [ts message|ts [p|]].
  - cbn [processEntry]. specialize (IH st Hgap).
    destruct (processAll entries st) as [st2 out2]. exact IH.
  - change (roundsOf (Damage ts (Some p) :: entries))
      with ((ts, p) :: roundsOf entries) in *.
    destruct Hgap as [Hfirst Hrest]. cbn [fst snd] in Hfirst, Hrest.
    rewrite PlaybackFacts.processEntry_round.
    rewrite (PlaybackFacts.gapReached_false st ts Hfirst). cbn [andb].
    specialize (IH (accumulated p ts st) Hrest).
    destruct (processAll entries (accumulated p ts st)) as [st2 out2].
    cbn [fst snd fold_left] in *. destruct IH as (Hs & Hm & Ht).
    split; [|split; assumption].
    rewrite PlaybackFacts.summaries_app, PlaybackFacts.summaries_app,
      PlaybackFacts.summaries_roundLines, Hs. reflexivity.
  - cbn [processEntry]. specialize (IH st Hgap).
    destruct (processAll entries st) as [st2 out2]. exact IH.
Qed.

Lemma rounds_get (rounds : list Round) : forall (map : ActorMap) (name : string),
  aggEq (getOrZero
           (fold_left (fun m r => addRoundToActors (snd r) m) rounds map) name)
        (aggPlus (getOrZero map name)
           (sumAgg (List.map (fun r => actorFigures (snd r) name) rounds))).
Proof.
  induction rounds as [|r rounds IH]; intros map name;
    cbn [fold_left List.map sumAgg fold_right].
  - FigureFacts.agg_arith.
  - fold (sumAgg (List.map (fun r => actorFigures (snd r) name) rounds)).
    pose proof (IH (addRoundToActors (snd r) map) name) as H1.
    pose proof (FightFacts.addRoundToActors_get (snd r) map name) as H2.
    FigureFacts.agg_arith.
Qed.

(** ** The property *)

(** C6: in a run of the effect the cutoff is the first entry's timestamp
    plus the elapsed seconds (in milliseconds); the new boundary is the
    index of the first entry whose timestamp is strictly above the cutoff,
    or the length of the timeline, so every entry before it, also one
    stamped exactly at the cutoff, is at or below the cutoff; the loop
    processes every entry from the previous boundary up to the new one,
    in order, and leaves the boundary at the new index.  Every entry
    crossed is written, in the order of the log, and every damage round
    crossed is accumulated, whatever lines of text stand between the
    rounds: there are as many round headers as rounds in the range; the
    totals that the fight summaries written on the way report, together
    with the totals held afterwards, are the totals held before plus the
    figures of every round crossed; and when the rounds crossed belong
    to one fight, no summary is written and every actor's figures grow
    by the actor's figures in each of the rounds.  Jumping over the
    three rounds of the sample log in one run accumulates 15 damage in 3
    hits, 12 of it in 2 hits for Rogar; jumping over two lines of text
    and two rounds accumulates both rounds. *)
Theorem C6_advance_processes_every_entry
    (first : LogEntry) (rest : list LogEntry) (time : Q) (st : State) :
  let entries := first :: rest in
  let cutoff := inject_Z (getTime first) + time * 1000 in
  let endIdx := visibleEnd entries cutoff in
  let crossed := slice entries (lastIndex st) endIdx in
  let shown := emitNew entries endIdx st in
  cutoffOf entries time = cutoff
  /\ (endIdx <= List.length entries)%nat
  /\ (forall (i : nat) (e : LogEntry),
         (i < endIdx)%nat -> nth_error entries i = Some e ->
         inject_Z (getTime e) <= cutoff)
  /\ (forall e : LogEntry,
         nth_error entries endIdx = Some e -> cutoff < inject_Z (getTime e))
  /\ shown
     = (setLastIndex (fst (processAll crossed st)) endIdx,
        snd (processAll crossed st))
  /\ lastIndex (fst shown) = endIdx
  /\ lastIndex (fst (playbackEffect entries time st)) = endIdx
  /\ withoutSummaries false (snd shown) = showWholeLog crossed
  /\ roundHeaders (snd shown) = List.length (roundsOf crossed)
  /\ aggEq (aggPlus (sumAgg (summaryHeaders (snd shown))) (totals (fst shown)))
           (aggPlus (totals st)
              (sumAgg (List.map (fun r => roundTotals (snd r))
                         (roundsOf crossed))))
  /\ (gapFreeFrom (lastDamageTs st) (roundsOf crossed) ->
      summaries (snd shown) = 0%nat
      /\ byActor (fst shown)
         = fold_left (fun m r => addRoundToActors (snd r) m)
             (roundsOf crossed) (byActor st)
      /\ totals (fst shown)
         = fold_left (fun t r => addRoundToTotals (snd r) t)
             (roundsOf crossed) (totals st)
      /\ forall name : string,
           aggEq (getOrZero (byActor (fst shown)) name)
                 (aggPlus (getOrZero (byActor st) name)
                    (sumAgg (List.map (fun r => actorFigures (snd r) name)
                               (roundsOf crossed)))))
  /\ playbackEffect entries time st
     = (let '(st1, out1) := shown in
        let '(st2, out2) := afterLoop entries cutoff endIdx st1 in
        (st2, out1 ++ out2))
  /\ (byActor (fst (emitNew threeRounds 3 initial)),
      totals (fst (emitNew threeRounds 3 initial)))
     = ([("Rogar"%string, {| damage := 5 + 7; hits := 2; misses := 0 |});
         ("Mira"%string, {| damage := 3; hits := 1; misses := 0 |})],
        {| damage := 5 + 7 + 3; hits := 3; misses := 0 |})
  /\ (lastIndex (fst (playbackEffect twoFights 3 initial)),
      byActor (fst (playbackEffect twoFights 3 initial)),
      totals (fst (playbackEffect twoFights 3 initial)))
     = (4%nat,
        [("Rogar"%string, {| damage := 5 + 7; hits := 2; misses := 0 |})],
        {| damage := 5 + 7; hits := 2; misses := 0 |}).
Proof.
  intros entries cutoff endIdx crossed shown.
  pose proof (PlaybackFacts.visibleEnd_le entries cutoff) as Hle.
  fold endIdx in Hle.
  pose proof (PlaybackFacts.emitNew_processAll entries endIdx st Hle) as Hloop.
  fold crossed in Hloop. fold shown in Hloop.
  assert (Hrounds : forall l, List.length (filter isRound l)
                              = List.length (roundsOf l)).
  { unfold roundsOf.
    induction l as [|[ts m|ts [p|]] l IH]; cbn [filter isRound flat_map app
                                                  List.length];
      rewrite ?IH; reflexivity. }
  assert (Hpay : forall l, List.map roundTotals (payloads l)
                           = List.map (fun r => roundTotals (snd r))
                               (roundsOf l)).
  { unfold roundsOf, payloads.
    induction l as [|[ts m|ts [p|]] l IH]; cbn [flat_map app List.map snd];
      rewrite ?IH; reflexivity. }
  split; [reflexivity|]. split; [exact Hle|].
  split; [apply PlaybackFacts.visibleEnd_before|].
  split; [apply PlaybackFacts.visibleEnd_at|].
  split; [exact Hloop|].
  split; [now rewrite Hloop|].
  split; [exact (proj2 (RunFacts.playbackEffect_lines first rest time st []))|].
  split.
  { rewrite Hloop. cbn [snd].
    pose proof (RunFacts.withoutSummaries_processAll crossed st []) as H.
    rewrite !app_nil_r in H. exact H. }
  split.
  { rewrite Hloop, <- Hrounds. apply PlaybackFacts.processAll_roundHeaders. }
  split.
  { rewrite Hloop, <- Hpay. cbn [fst snd setLastIndex totals].
    apply processAll_keeps_all. }
  split.
  { intros Hgap. rewrite Hloop. cbn [fst snd setLastIndex byActor totals].
    destruct (processAll_one_fight crossed st Hgap) as (Hs & Hm & Ht).
    split; [exact Hs|]. split; [exact Hm|]. split; [exact Ht|].
    intros name. rewrite Hm. apply rounds_get. }
  split; [reflexivity|]. split; reflexivity.
Qed.

End AdvanceFacts.

(* ================================================================== *)
(** * Further facts about the parser *)
(* ================================================================== *)

Module TimelineFacts.

Import Log.
Import Parse.
Import Notions.

(** ** Lines *)

Lemma splitLines_cons (s : string) : exists h r, splitLines s = h :: r.
Proof.
  induction s as [|c t IH]; [now exists EmptyString, []|].
  cbn [splitLines]. destruct (isLF c); [now eexists; eexists|].
  destruct t as [|c2 t2]; [now eexists; eexists|].
  destruct (isCR c && isLF c2); [now eexists; eexists|].
  destruct IH as (h & r & ->). now eexists; eexists.
Qed.

Lemma joinLines_cons (h : string) (l : list string) :
  l <> [] ->
  joinLines (h :: l) = (h ++ String "010" (joinLines l))%string.
Proof. destruct l; [congruence | reflexivity]. Qed.

Lemma isLF_eq (c : ascii) : isLF c = true -> c = "010"%char.
Proof. unfold isLF. apply Ascii.eqb_eq. Qed.

Lemma splitLines_eq (c : ascii) (t : string) :
  splitLines (String c t)
  = if isLF c then EmptyString :: splitLines t
    else match t with
         | String c2 t2 =>
             if isCR c && isLF c2 then EmptyString :: splitLines t2
             else consHead c (splitLines t)
         | EmptyString => [String c EmptyString]
         end.
Proof. reflexivity. Qed.

Lemma unixEnds_eq (c : ascii) (t : string) :
  unixEnds (String c t)
  = match t with
    | String c2 _ =>
        if isCR c && isLF c2 then unixEnds t else String c (unixEnds t)
    | EmptyString => String c EmptyString
    end.
Proof. reflexivity. Qed.

Lemma LF_not_CR (c : ascii) : isLF c = true -> isCR c = false.
Proof. intros H. apply isLF_eq in H. now subst. Qed.

Lemma joinLines_splitLines (s : string) :
  joinLines (splitLines s) = unixEnds s.
Proof.
  induction s as [|c t IH]; [reflexivity|].
  rewrite splitLines_eq, unixEnds_eq.
  destruct (splitLines_cons t) as (h & r & Ht).
  destruct (isLF c) eqn:Ec.
  - rewrite joinLines_cons by (rewrite Ht; discriminate).
    rewrite IH, (LF_not_CR _ Ec). cbn [andb String.append].
    apply isLF_eq in Ec. subst c.
    destruct t; reflexivity.
  - destruct t as [|c2 t2]; [reflexivity|].
    destruct (isCR c && isLF c2) eqn:Ecr.
    + apply andb_true_iff in Ecr. destruct Ecr as [_ E2].
      rewrite <- IH, splitLines_eq, E2. reflexivity.
    + rewrite <- IH, Ht. cbn [consHead].
      destruct r; reflexivity.
Qed.

Lemma noLF_consHead (c : ascii) (l : list string) :
  isLF c = false -> forallb noLF l = true -> forallb noLF (consHead c l) = true.
Proof.
  intros Hc Hl. destruct l as [|h r]; cbn [consHead forallb noLF] in *.
  - now rewrite Hc.
  - now rewrite Hc.
Qed.

Lemma splitLines_lines (s : string) :
  forallb noLF (splitLines s) = true
  /\ List.length (splitLines s) = S (countLF s).
Proof.
  induction s as [|c t IH]; [split; reflexivity|].
  rewrite splitLines_eq. cbn [countLF]. destruct IH as [IH1 IH2].
  destruct (isLF c) eqn:Ec.
  - split; [exact IH1 | cbn [List.length]; now rewrite IH2].
  - destruct t as [|c2 t2]; [cbn; now rewrite Ec|].
    destruct (isCR c && isLF c2) eqn:Ecr.
    + apply andb_true_iff in Ecr. destruct Ecr as [_ E2].
      rewrite splitLines_eq, E2 in IH1, IH2. cbn [countLF] in *.
      rewrite E2 in *. split; [exact IH1 | exact IH2].
    + split; [now apply noLF_consHead|].
      destruct (splitLines_cons (String c2 t2)) as (h & r & Ht).
      rewrite Ht in *. exact IH2.
Qed.

(** X12: cutting the text into lines loses nothing but the line ends.
    The lines, joined by line feeds, are the text with the carriage
    return of every CR LF pair left out; no line holds a line feed, and
    there is one line more than there are line feeds. *)
Theorem splitLines_round_trip (text : string) :
  joinLines (splitLines text) = unixEnds text
  /\ forallb noLF (splitLines text) = true
  /\ List.length (splitLines text) = S (countLF text).
Proof.
  split; [apply joinLines_splitLines | apply splitLines_lines].
Qed.

(** ** Timelines that parsing leaves alone *)

Lemma sort_sorted_same (l : list LogEntry) :
  StronglySorted timeLe l -> JsSort.sort byTime l = l.
Proof.
  intros Hs. symmetry. now apply ParseFacts.sort_is_the_stable_sort.
Qed.

Lemma dedupe_fresh (raw : list LogEntry) : forall seen,
  NoDup (messageKeys raw) ->
  (forall k, In k (messageKeys raw) -> ~ In k seen) ->
  dedupe seen raw = raw.
Proof.
  induction raw as [|e raw IH]; intros seen Hnd Hfresh; [reflexivity|].
  cbn [dedupe]. destruct e as [ts message|ts payload].
  - cbn [messageKeys flat_map app] in Hnd, Hfresh.
    fold (messageKeys raw) in Hnd, Hfresh.
    inversion Hnd as [|? ? Hnot Hnd']; subst.
    destruct (has seen (ts, message)) eqn:Eh.
    + apply ParseFacts.has_In in Eh.
      exfalso. exact (Hfresh _ (or_introl eq_refl) Eh).
    + f_equal. apply IH; [exact Hnd'|].
      intros k Hk [<-|Hs]; [contradiction|].
      exact (Hfresh k (or_intror Hk) Hs).
  - f_equal. apply IH; [exact Hnd|].
    intros k Hk. apply Hfresh. exact Hk.
Qed.

(** On well-formed records, the lists that the pass leaves as they are,
    are the ones in time order with no narrative entry twice; what the
    pass returns is one of them. *)
Lemma sorted_timelines_are_fixed (raw : list LogEntry) :
  (timelineOf raw = raw
   <-> StronglySorted timeLe raw /\ NoDup (messageKeys raw))
  /\ timelineOf (timelineOf raw) = timelineOf raw.
Proof.
  assert (Hout : forall l, StronglySorted timeLe (timelineOf l)
                           /\ NoDup (messageKeys (timelineOf l))).
  { intros l. unfold timelineOf. split.
    - apply ParseFacts.dedupe_sorted, ParseFacts.sort_sorted.
    - apply ParseFacts.dedupe_keys. }
  assert (Hfix : forall l, StronglySorted timeLe l ->
                           NoDup (messageKeys l) -> timelineOf l = l).
  { intros l Hs Hnd. unfold timelineOf. rewrite (sort_sorted_same _ Hs).
    apply dedupe_fresh; [exact Hnd | intros k _ []]. }
  split; [split|].
  - intros H. rewrite <- H. apply Hout.
  - intros [Hs Hnd]. now apply Hfix.
  - destruct (Hout raw) as [Hs Hnd]. now apply Hfix.
Qed.

(** ** The earlier revision *)

Lemma dedupeEarlier_subseq (raw : list LogEntry) : forall seen seenRounds,
  subseq (dedupeEarlier seen seenRounds raw) (dedupe seen raw)
  /\ narrative (dedupeEarlier seen seenRounds raw)
     = narrative (dedupe seen raw).
Proof.
  unfold narrative.
  induction raw as [|e raw IH]; intros seen seenRounds;
    [split; [constructor | reflexivity]|].
  cbn [dedupeEarlier dedupe]. destruct e as [ts message|ts payload].
  - destruct (has seen (ts, message)); [apply IH|].
    destruct (IH ((ts, message) :: seen) seenRounds) as [H1 H2].
    split; [now constructor|]. cbn [filter isDamage negb]. now rewrite H2.
  - destruct (existsb (roundKeyEqb (roundKeyOf ts payload)) seenRounds).
    + destruct (IH seen seenRounds) as [H1 H2].
      split; [now constructor | exact H2].
    + destruct (IH seen (roundKeyOf ts payload :: seenRounds)) as [H1 H2].
      split; [now constructor | exact H2].
Qed.

(** X15: the change to [parseLog] only ever adds damage rounds.  On
    the same sorted records, the timeline of the earlier revision is the
    current timeline with some damage entries left out; the narrative
    entries are the same, in the same order. *)
Theorem earlier_timeline_only_lacks_rounds (raw : list LogEntry) :
  let sorted := JsSort.sort byTime raw in
  subseq (dedupeEarlier [] [] sorted) (timelineOf raw)
  /\ narrative (dedupeEarlier [] [] sorted) = narrative (timelineOf raw)
  /\ (List.length (damageRounds (dedupeEarlier [] [] sorted))
      <= List.length (damageRounds (timelineOf raw)))%nat.
Proof.
  intros sorted. unfold timelineOf. fold sorted.
  destruct (dedupeEarlier_subseq sorted [] []) as [H1 H2].
  split; [exact H1|]. split; [exact H2|].
  unfold damageRounds. clear H2.
  induction H1 as [|e l1 l2 _ IH|e l1 l2 _ IH]; [apply le_n| |].
  - cbn [filter]. destruct (isDamage e); cbn [List.length]; lia.
  - cbn [filter]. destruct (isDamage e); cbn [List.length]; lia.
Qed.

End TimelineFacts.

(* ================================================================== *)
(** * Facts about the clock and the exports *)
(* ================================================================== *)

Module ClockFacts.

Import Log.
Import Parse.
Import Playback.
Import Exports.
Import Notions.

(** ** The range of [time] *)

Lemma min_bounds (x y : Q) :
  Clock.min x y <= x /\ Clock.min x y <= y
  /\ (Clock.min x y == x \/ Clock.min x y == y).
Proof.
  unfold Clock.min. destruct (Qle_bool x y) eqn:E.
  - apply Qle_bool_iff in E. repeat split; [lra | exact E | left; reflexivity].
  - assert (H : ~ x <= y) by (intros H; apply Qle_bool_iff in H; congruence).
    apply Qnot_le_lt in H. repeat split; [lra | lra | right; reflexivity].
Qed.

Lemma max_bounds (x y : Q) :
  x <= Clock.max x y /\ y <= Clock.max x y
  /\ (Clock.max x y == x \/ Clock.max x y == y).
Proof.
  unfold Clock.max. destruct (Qle_bool x y) eqn:E.
  - apply Qle_bool_iff in E. repeat split; [exact E | lra | right; reflexivity].
  - assert (H : ~ x <= y) by (intros H; apply Qle_bool_iff in H; congruence).
    apply Qnot_le_lt in H. repeat split; [lra | lra | left; reflexivity].
Qed.

Lemma move_in_range (duration : Q) (m : Clock.Move) (t : Q) :
  0 <= duration -> validMove m -> 0 <= t <= duration ->
  0 <= Clock.move duration m t <= duration.
Proof.
  intros Hd Hm [H0 H1]. destruct m as [elapsed| |]; cbn [Clock.move validMove] in *.
  - unfold Clock.tick.
    destruct (min_bounds (t + elapsed) duration) as (A & B & [C|C]);
      split; lra.
  - unfold Clock.back, Clock.tickTimer.
    destruct (max_bounds 0 (t - 42)) as (A & B & [C|C]); split; lra.
  - unfold Clock.forward, Clock.tickTimer.
    destruct (min_bounds duration (t + 42)) as (A & B & [C|C]); split; lra.
Qed.

(** X16: the clock never leaves the log.  From a time between [0] and
    [duration], any sequence of ticks of the interval and of presses on
    the back and forward buttons leaves [time] between [0] and
    [duration]. *)
Theorem clock_stays_in_range (duration : Q) (moves : list Clock.Move) :
  0 <= duration -> Forall validMove moves ->
  forall t : Q, 0 <= t <= duration ->
    0 <= timeAfter duration moves t <= duration.
Proof.
  intros Hd Hall. unfold timeAfter.
  induction Hall as [|m moves Hm _ IH]; intros t Ht; [exact Ht|].
  cbn [fold_left]. apply IH. now apply move_in_range.
Qed.

Lemma clock_stays_in_range_witness :
  0 <= 100 /\ Forall validMove [Clock.Forward; Clock.Tick (1 # 10);
                                 Clock.Forward; Clock.Forward; Clock.Back]
  /\ 0 <= timeAfter 100 [Clock.Forward; Clock.Tick (1 # 10);
                         Clock.Forward; Clock.Forward; Clock.Back] 0 <= 100.
Proof.
  assert (Hd : 0 <= 100) by discriminate.
  assert (Hall : Forall validMove [Clock.Forward; Clock.Tick (1 # 10);
                                   Clock.Forward; Clock.Forward; Clock.Back]).
  { repeat constructor. discriminate. }
  assert (H0 : 0 <= 0 <= 100) by (split; discriminate).
  split; [exact Hd|]. split; [exact Hall|].
  exact (clock_stays_in_range 100 _ Hd Hall 0 H0).
Defined.

(** ** The entries a time shows *)

Lemma visibleEnd_sorted (entries : list LogEntry) (cutoff : Q) :
  StronglySorted timeLe entries ->
  firstn (visibleEnd entries cutoff) entries
  = filter (reached cutoff) entries.
Proof.
  induction 1 as [|e entries Hs IH Hall]; [reflexivity|].
  cbn [visibleEnd filter]. unfold Fight.Qltb at 1. fold (reached cutoff e).
  destruct (reached cutoff e) eqn:Er; cbn [negb firstn].
  - now rewrite IH.
  - symmetry. clear IH Hs. induction Hall as [|x l Hx _ IHl]; [reflexivity|].
    cbn [filter]. rewrite IHl.
    assert (Ex : reached cutoff x = false); [|now rewrite Ex].
    unfold reached, timeLe in *. destruct (Qle_bool (inject_Z (getTime x)) cutoff) eqn:E;
      [|reflexivity].
    apply Qle_bool_iff in E.
    assert (Hle : inject_Z (getTime e) <= cutoff).
    { eapply Qle_trans; [|exact E]. rewrite <- Zle_Qle. exact Hx. }
    apply Qle_bool_iff in Hle. congruence.
Qed.

Lemma visibleEnd_all (entries : list LogEntry) (cutoff : Q) :
  Forall (fun e => inject_Z (getTime e) <= cutoff) entries ->
  visibleEnd entries cutoff = List.length entries.
Proof.
  induction 1 as [|e entries He _ IH]; [reflexivity|].
  cbn [visibleEnd List.length]. unfold Fight.Qltb.
  apply Qle_bool_iff in He. rewrite He. cbn [negb]. now rewrite IH.
Qed.

Lemma visibleEnd_first (first : LogEntry) (rest : list LogEntry) (cutoff : Q) :
  inject_Z (getTime first) <= cutoff ->
  (1 <= visibleEnd (first :: rest) cutoff)%nat.
Proof.
  intros H. cbn [visibleEnd]. unfold Fight.Qltb.
  apply Qle_bool_iff in H. rewrite H. cbn [negb]. lia.
Qed.

(** X17: what a cutoff shows of a timeline in time order.  Whatever
    number the cutoff is, the entries in front of the cursor that
    [findIndex] gives are exactly the entries of the timeline that are
    not after the cutoff; so the whole log is shown exactly when no
    entry is after the cutoff, and the first entry as soon as its
    instant is reached. *)
Theorem cursor_shows_entries_up_to_cutoff (entries : list LogEntry)
    (cutoff : Q) :
  StronglySorted timeLe entries ->
  firstn (visibleEnd entries cutoff) entries = filter (reached cutoff) entries
  /\ (visibleEnd entries cutoff = List.length entries
      <-> forallb (reached cutoff) entries = true)
  /\ (forall first rest,
         entries = first :: rest -> inject_Z (getTime first) <= cutoff ->
         (1 <= visibleEnd entries cutoff)%nat).
Proof.
  intros Hs. pose proof (visibleEnd_sorted entries cutoff Hs) as Hf.
  split; [exact Hf|]. split; [split|].
  - intros Hall. rewrite Hall, firstn_all in Hf.
    apply forallb_forall. intros e He. rewrite Hf in He.
    now apply filter_In in He.
  - intros Hall. apply visibleEnd_all. apply Forall_forall.
    intros e He. apply Qle_bool_iff.
    exact (proj1 (forallb_forall _ _) Hall e He).
  - intros first rest -> Hfirst. now apply visibleEnd_first.
Qed.

Lemma cursor_shows_entries_up_to_cutoff_witness :
  StronglySorted timeLe twoFights
  /\ firstn (visibleEnd twoFights 2500) twoFights
     = filter (reached 2500) twoFights.
Proof.
  assert (Hs : StronglySorted timeLe twoFights).
  { unfold twoFights, timeLe.
    repeat (constructor; [|repeat constructor; cbn; lia]). constructor. }
  split; [exact Hs|].
  exact (proj1 (cursor_shows_entries_up_to_cutoff twoFights 2500 Hs)).
Defined.


(** ** The plain copy *)

Lemma stripAnsi_plain (message : string) :
  hasCsi message = false -> stripAnsi message = message.
Proof.
  intros H. unfold stripAnsi. apply MarkupFacts.stripLoop_plain; [exact H|lia].
Qed.

(** X18: for a log whose messages hold no control sequences, the
    plain copy has exactly the lines that the whole-log viewer writes:
    the same message lines, an empty message as a single space in both,
    and the same round headers and per-source lines. *)
Theorem copyPlainText_is_showWholeLog (entries : list LogEntry) :
  forallb plainMessage entries = true ->
  copyPlainText entries = showWholeLog entries.
Proof.
  unfold copyPlainText, showWholeLog.
  induction entries as [|e entries IH]; intros H; [reflexivity|].
  cbn [forallb] in H. apply andb_true_iff in H. destruct H as [He H].
  cbn [flat_map]. rewrite (IH H). f_equal.
  destruct e as [ts message|ts [p|]]; try reflexivity.
  cbn [plainMessage] in He. apply negb_true_iff in He.
  cbn [plainChunks wholeLogLines]. rewrite (stripAnsi_plain _ He).
  now destruct message.
Qed.

Lemma copyPlainText_is_showWholeLog_witness :
  forallb plainMessage twoFights = true
  /\ copyPlainText twoFights = showWholeLog twoFights.
Proof.
  assert (H : forallb plainMessage twoFights = true) by reflexivity.
  split; [exact H|].
  exact (copyPlainText_is_showWholeLog twoFights H).
Defined.

End ClockFacts.

(* ================================================================== *)
(** * Facts about what is displayed *)
(* ================================================================== *)

Module DisplayFacts.

Import Log.
Import Fight.
Import Playback.
Import Notions.

(** ** Sorting by a comparator that is an order *)

Section Ordered.

Context {A : Type}.
Variable after : A -> A -> bool.

Hypothesis after_trans : forall x y z,
  after x y = false -> after y z = false -> after x z = false.
Hypothesis after_asym : forall x y, after x y = true -> after y x = false.

Lemma insert_ordered (x : A) (l : list A) :
  StronglySorted (fun a b => after a b = false) l ->
  StronglySorted (fun a b => after a b = false) (JsSort.insert after x l).
Proof.
  induction 1 as [|y l Hs IH Hall]; cbn [JsSort.insert].
  - constructor; constructor.
  - destruct (after x y) eqn:E.
    + constructor; [exact IH|].
      apply (Permutation_Forall (JsSortFacts.insert_perm after x l)).
      constructor; [now apply after_asym | exact Hall].
    + constructor; [now constructor|].
      constructor; [exact E|].
      eapply Forall_impl; [|exact Hall]. intros z Hz.
      now apply (after_trans x y z).
Qed.

Lemma sort_ordered (l : list A) :
  StronglySorted (fun a b => after a b = false) (JsSort.sort after l).
Proof.
  induction l as [|x l IH]; [constructor|].
  cbn [JsSort.sort fold_right]. now apply insert_ordered.
Qed.

(** Elements that the comparator does not tell apart keep their
    order. *)
Variable tied : A -> bool.
Hypothesis tied_equal : forall x y,
  tied x = true -> tied y = true -> after x y = false.

Lemma insert_keeps_ties (x : A) (l : list A) :
  filter tied (JsSort.insert after x l) = filter tied (x :: l).
Proof.
  induction l as [|y l IH]; [reflexivity|].
  cbn [JsSort.insert]. destruct (after x y) eqn:E; [|reflexivity].
  cbn [filter] in *. rewrite IH.
  destruct (tied x) eqn:Ex, (tied y) eqn:Ey; try reflexivity.
  rewrite (tied_equal x y Ex Ey) in E. discriminate.
Qed.

Lemma sort_keeps_ties (l : list A) :
  filter tied (JsSort.sort after l) = filter tied l.
Proof.
  induction l as [|x l IH]; [reflexivity|].
  cbn [JsSort.sort fold_right]. rewrite insert_keeps_ties.
  cbn [filter]. fold (JsSort.sort after l). now rewrite IH.
Qed.

End Ordered.

Lemma sorted_weaken {A} (R R' : A -> A -> Prop) (l : list A) :
  (forall a b, R a b -> R' a b) ->
  StronglySorted R l -> StronglySorted R' l.
Proof.
  intros Himp. induction 1 as [|x l _ IH Hall]; constructor; [exact IH|].
  eapply Forall_impl; [|exact Hall]. intros b. apply Himp.
Qed.

(** ** The two comparators *)

Lemma byDamage_false (a b : string * PerActor) :
  byDamage a b = false <-> outranks a b.
Proof.
  unfold byDamage, outranks. rewrite PlaybackFacts.Qltb_false.
  split; intros H; lra.
Qed.

Lemma byDamage_true (a b : string * PerActor) :
  byDamage a b = true <-> damage (snd a) < damage (snd b).
Proof.
  unfold byDamage. rewrite PlaybackFacts.Qltb_true. split; intros H; lra.
Qed.

Lemma byDamageThenHits_false (a b : string * PerActor) :
  byDamageThenHits a b = false <-> outranksInRound a b.
Proof.
  unfold byDamageThenHits, outranksInRound.
  destruct (Qeq_bool (damage (snd b) - damage (snd a)) 0) eqn:E.
  - apply Qeq_bool_iff in E. rewrite Z.gtb_ltb, Z.ltb_ge. split.
    + intros H. right. split; [lra | lia].
    + intros [H|[_ H]]; [lra | lia].
  - apply Qeq_bool_neq in E. rewrite PlaybackFacts.Qltb_false. split.
    + intros H. left.
      destruct (Qlt_le_dec (damage (snd b)) (damage (snd a))) as [Hl|Hl];
        [exact Hl|].
      exfalso. apply E. lra.
    + intros [H|[H _]]; [lra|]. exfalso. apply E. lra.
Qed.

Lemma byDamageThenHits_true (a b : string * PerActor) :
  byDamageThenHits a b = true ->
  damage (snd a) < damage (snd b)
  \/ (damage (snd a) == damage (snd b) /\ (hits (snd a) < hits (snd b))%Z).
Proof.
  unfold byDamageThenHits.
  destruct (Qeq_bool (damage (snd b) - damage (snd a)) 0) eqn:E.
  - apply Qeq_bool_iff in E. rewrite Z.gtb_ltb, Z.ltb_lt.
    intros H. right. split; [lra | lia].
  - rewrite PlaybackFacts.Qltb_true. intros H. left. lra.
Qed.

Lemma byDamage_sorts (map : ActorMap) :
  StronglySorted outranks (JsSort.sort byDamage map)
  /\ forall d, filter (hasDamage d) (JsSort.sort byDamage map)
               = filter (hasDamage d) map.
Proof.
  split.
  - apply (sorted_weaken (fun a b => byDamage a b = false));
      [intros a b; apply byDamage_false|].
    apply sort_ordered.
    + intros x y z H1 H2. apply byDamage_false in H1, H2.
      apply byDamage_false. unfold outranks in *. lra.
    + intros x y H. apply byDamage_true in H. apply byDamage_false.
      unfold outranks. lra.
  - intros d. apply sort_keeps_ties. intros x y Hx Hy.
    unfold hasDamage in *. apply Qeq_bool_iff in Hx, Hy.
    apply byDamage_false. unfold outranks. lra.
Qed.

Lemma byDamageThenHits_sorts (map : ActorMap) :
  StronglySorted outranksInRound (JsSort.sort byDamageThenHits map)
  /\ forall d h,
       filter (hasDamageAndHits d h) (JsSort.sort byDamageThenHits map)
       = filter (hasDamageAndHits d h) map.
Proof.
  split.
  - apply (sorted_weaken (fun a b => byDamageThenHits a b = false));
      [intros a b; apply byDamageThenHits_false|].
    apply sort_ordered.
    + intros x y z H1 H2. apply byDamageThenHits_false in H1, H2.
      apply byDamageThenHits_false. unfold outranksInRound in *.
      destruct H1 as [H1|[H1 H1']], H2 as [H2|[H2 H2']].
      * left. lra.
      * left. lra.
      * left. lra.
      * right. split; [lra | lia].
    + intros x y H. apply byDamageThenHits_true in H.
      apply byDamageThenHits_false. unfold outranksInRound.
      destruct H as [H|[H H']]; [left; lra | right; split; [lra | lia]].
  - intros d h. apply sort_keeps_ties. intros x y Hx Hy.
    unfold hasDamageAndHits in *.
    apply andb_true_iff in Hx, Hy. destruct Hx as [Hx Hx'], Hy as [Hy Hy'].
    apply Qeq_bool_iff in Hx, Hy. apply Z.eqb_eq in Hx', Hy'.
    apply byDamageThenHits_false. right. split; [lra | lia].
Qed.

(** ** The rows that are written *)

Lemma roundRows_rows (rows : ActorMap) :
  roundRows (map (fun l => LRoundRow (fst l) (snd l)) rows) = rows.
Proof.
  unfold roundRows.
  induction rows as [|[a g] rows IH]; [reflexivity|].
  cbn [map flat_map fst snd app] in *. now rewrite IH.
Qed.

Lemma roundRows_roundLines (p : DamagePayload) :
  roundRows (roundLines p) = buildRoundPerSourceLines p.
Proof.
  unfold roundLines.
  destruct (buildRoundPerSourceLines p) as [|l lines] eqn:E; [reflexivity|].
  change (roundRows (map (fun l0 => LRoundRow (fst l0) (snd l0)) (l :: lines))
          = l :: lines).
  apply roundRows_rows.
Qed.

Lemma summaryRows_rows (rows : ActorMap) (tail : list Line) :
  summaryRows (map (fun l => LSummaryRow (fst l) (snd l)) rows ++ tail)
  = rows ++ summaryRows tail.
Proof.
  unfold summaryRows.
  induction rows as [|[a g] rows IH]; [reflexivity|].
  cbn [map flat_map fst snd app] in *. now rewrite IH.
Qed.

Lemma summaryRows_flush (st : State) :
  summaryRows (snd (flushFightSummary st)) = JsSort.sort byDamage (byActor st).
Proof.
  unfold flushFightSummary. destruct (fightEmpty st) eqn:E.
  - unfold fightEmpty in E. destruct (byActor st); [reflexivity|].
    discriminate E.
  - cbn [snd]. unfold summaryLines.
    assert (Hh : forall t l, summaryRows (LSummaryHeader t :: l)
                             = summaryRows l) by reflexivity.
    rewrite Hh, summaryRows_rows. apply app_nil_r.
Qed.

(** X19: the rows under a round are ranked.  They stand in descending
    order of damage, rows of equal damage in descending order of hits,
    and rows equal in both in the order in which the round first names
    their actors; every actor of the round has one row. *)
Theorem round_rows_ranked (p : DamagePayload) :
  let rows := roundRows (roundLines p) in
  StronglySorted outranksInRound rows
  /\ (forall (d : Q) (h : Z),
         filter (hasDamageAndHits d h) rows
         = filter (hasDamageAndHits d h) (roundPerSource p))
  /\ Permutation (roundPerSource p) rows
  /\ NoDup (List.map fst rows).
Proof.
  intros rows. unfold rows. rewrite roundRows_roundLines.
  unfold buildRoundPerSourceLines.
  destruct (byDamageThenHits_sorts (roundPerSource p)) as [H1 H2].
  split; [exact H1|]. split; [exact H2|]. split.
  - apply JsSortFacts.sort_perm.
  - apply (FightFacts.buildRoundPerSourceLines_figures p).
Qed.

(** X20: the rows of a fight summary are ranked.  They stand in
    descending order of damage, rows of equal damage in the order in
    which their actors entered the fight; every actor of the fight has
    one row. *)
Theorem summary_rows_ranked (st : State) :
  let rows := summaryRows (snd (flushFightSummary st)) in
  StronglySorted outranks rows
  /\ (forall d : Q, filter (hasDamage d) rows = filter (hasDamage d) (byActor st))
  /\ Permutation (byActor st) rows.
Proof.
  intros rows. unfold rows. rewrite summaryRows_flush.
  destruct (byDamage_sorts (byActor st)) as [H1 H2].
  split; [exact H1|]. split; [exact H2|]. apply JsSortFacts.sort_perm.
Qed.

(** ** Actor names *)

Import CodeUnits.

Lemma skipSpaces_blank (sp rest : Text) :
  forallb isSpace sp = true -> skipSpaces (sp ++ rest) = skipSpaces rest.
Proof.
  induction sp as [|u sp IH]; intros H; [reflexivity|].
  cbn [forallb] in H. apply andb_true_iff in H. destruct H as [Hu H].
  cbn [app skipSpaces]. rewrite Hu. now apply IH.
Qed.

Lemma skipSpaces_flush (s : Text) :
  startsFlush s = true -> skipSpaces s = s.
Proof.
  destruct s as [|u s]; [reflexivity|]. cbn [startsFlush skipSpaces].
  intros H. apply negb_true_iff in H. now rewrite H.
Qed.

Lemma afterBracket_tag (tag rest : Text) :
  noClosing tag = true ->
  afterBracket (tag ++ closeBracket :: rest) = Some rest.
Proof.
  unfold noClosing.
  induction tag as [|u tag IH]; intros H; [reflexivity|].
  cbn [forallb] in H. apply andb_true_iff in H. destruct H as [Hu H].
  apply negb_true_iff in Hu.
  cbn [app afterBracket]. rewrite Hu. now apply IH.
Qed.

Lemma skipSpaces_split (s : Text) :
  exists sp, s = sp ++ skipSpaces s /\ forallb isSpace sp = true
             /\ startsFlush (skipSpaces s) = true.
Proof.
  induction s as [|u s IH]; [now exists []|].
  cbn [skipSpaces]. destruct (isSpace u) eqn:Eu.
  - destruct IH as (sp & Hs & Hb & Hf). exists (u :: sp).
    cbn [app forallb]. rewrite Eu, Hb. now rewrite <- Hs.
  - exists []. cbn [startsFlush]. now rewrite Eu.
Qed.

Lemma afterBracket_split (s r : Text) :
  afterBracket s = Some r ->
  exists tag, s = tag ++ closeBracket :: r /\ noClosing tag = true.
Proof.
  unfold noClosing.
  revert r. induction s as [|u s IH]; intros r H; [discriminate|].
  cbn [afterBracket] in H. destruct (u =? closeBracket)%N eqn:Eu.
  - apply N.eqb_eq in Eu. inversion H; subst. now exists [].
  - destruct (IH r H) as (tag & Hs & Hn). exists (u :: tag).
    cbn [app forallb]. rewrite Eu, Hn. now rewrite <- Hs.
Qed.

Lemma afterBracket_none (s : Text) :
  noClosing s = true -> afterBracket s = None.
Proof.
  unfold noClosing. induction s as [|u s IH]; intros H; [reflexivity|].
  cbn [forallb] in H. apply andb_true_iff in H. destruct H as [Hu H].
  apply negb_true_iff in Hu. cbn [afterBracket]. rewrite Hu. now apply IH.
Qed.

(** The names of the accumulator are the names read here. *)

Lemma isSpace_ascii (c : ascii) : isSpace (N_of_ascii c) = Str.isSpace c.
Proof. destruct c as [[] [] [] [] [] [] [] []]; reflexivity. Qed.

Lemma closeBracket_ascii (c : ascii) :
  (N_of_ascii c =? closeBracket)%N = Ascii.eqb c "]".
Proof. destruct c as [[] [] [] [] [] [] [] []]; reflexivity. Qed.

Lemma openBracket_ascii (c : ascii) :
  (N_of_ascii c =? openBracket)%N = Ascii.eqb c "[".
Proof. destruct c as [[] [] [] [] [] [] [] []]; reflexivity. Qed.

Lemma skipSpaces_ofString (s : string) :
  skipSpaces (ofString s) = ofString (Fight.skipSpaces s).
Proof.
  induction s as [|c s IH]; [reflexivity|].
  change (ofString (String c s)) with (N_of_ascii c :: ofString s).
  cbn [skipSpaces Fight.skipSpaces]. rewrite isSpace_ascii.
  destruct (Str.isSpace c); [exact IH | reflexivity].
Qed.

Lemma afterBracket_ofString (s : string) :
  afterBracket (ofString s) = option_map ofString (Fight.afterBracket s).
Proof.
  induction s as [|c s IH]; [reflexivity|].
  change (ofString (String c s)) with (N_of_ascii c :: ofString s).
  cbn [afterBracket Fight.afterBracket]. rewrite closeBracket_ascii.
  destruct (Ascii.eqb c "]"); [reflexivity | exact IH].
Qed.

Lemma normalizeActor_ofString (s : string) :
  normalizeActor (ofString s) = ofString (Fight.normalizeActor s).
Proof.
  unfold normalizeActor, Fight.normalizeActor.
  rewrite skipSpaces_ofString.
  destruct (Fight.skipSpaces s) as [|c t]; [reflexivity|].
  change (ofString (String c t)) with (N_of_ascii c :: ofString t).
  cbv beta iota.
  rewrite openBracket_ascii. destruct (Ascii.eqb c "["); [|reflexivity].
  rewrite afterBracket_ofString.
  destruct (Fight.afterBracket t) as [r|]; [|reflexivity].
  cbn [option_map]. apply skipSpaces_ofString.
Qed.

(** X21: [normalizeActor] strips exactly one leading tag.  Names are
    read as sequences of code units, and white space is all of the class
    [\s].  A name made of white space, a bracketed tag, white space and
    a rest that starts with neither becomes that rest, whatever the rest
    holds, further tags included; every name that changes has this
    shape; and a name whose first code unit after its leading white
    space is not an opening bracket, or that has no closing bracket
    after it, is returned as it is, leading white space included.  On a
    name of code units below 256 this is the function that the
    accumulator uses. *)
Theorem normalizeActor_strips_one_tag :
  (forall sp1 tag sp2 rest : Text,
      forallb isSpace sp1 = true -> noClosing tag = true ->
      forallb isSpace sp2 = true -> startsFlush rest = true ->
      normalizeActor
        (sp1 ++ openBracket :: tag ++ closeBracket :: sp2 ++ rest)
      = rest)
  /\ (forall name : Text,
         normalizeActor name <> name ->
         exists sp1 tag sp2 : Text,
           name = sp1 ++ openBracket :: tag ++ closeBracket
                                    :: sp2 ++ normalizeActor name
           /\ forallb isSpace sp1 = true /\ noClosing tag = true
           /\ forallb isSpace sp2 = true
           /\ startsFlush (normalizeActor name) = true)
  /\ (forall (name : Text) (u : N) (t : Text),
         skipSpaces name = u :: t ->
         u <> openBracket \/ noClosing t = true ->
         normalizeActor name = name)
  /\ (forall s : string,
         normalizeActor (ofString s) = ofString (Fight.normalizeActor s))
  /\ normalizeActor (emSpace :: ofString "[Clan] [Officer] Rogar")
     = ofString "[Officer] Rogar"
  /\ Fight.normalizeActor "[Clan] [Officer] Rogar" = "[Officer] Rogar"%string.
Proof.
  split; [|split; [|split; [|split; [exact normalizeActor_ofString|]]]].
  - intros sp1 tag sp2 rest H1 Ht H2 Hr. unfold normalizeActor.
    rewrite (skipSpaces_blank _ _ H1).
    assert (Ho : skipSpaces (openBracket :: tag ++ closeBracket :: sp2 ++ rest)
                 = openBracket :: tag ++ closeBracket :: sp2 ++ rest)
      by reflexivity.
    rewrite Ho, N.eqb_refl.
    rewrite (afterBracket_tag _ _ Ht), (skipSpaces_blank _ _ H2).
    now apply skipSpaces_flush.
  - intros name Hne. unfold normalizeActor in *.
    destruct (skipSpaces_split name) as (sp1 & Hn & Hb1 & _).
    destruct (skipSpaces name) as [|u t] eqn:Es; [congruence|].
    destruct (u =? openBracket)%N eqn:Eu; [|congruence].
    apply N.eqb_eq in Eu. subst u.
    destruct (afterBracket t) as [r|] eqn:Ea; [|congruence].
    destruct (afterBracket_split _ _ Ea) as (tag & Ht & Hnc).
    destruct (skipSpaces_split r) as (sp2 & Hr & Hb2 & Hf).
    exists sp1, tag, sp2. rewrite <- Hr, <- Ht.
    repeat split; assumption.
  - intros name u t Hs Hu. unfold normalizeActor. rewrite Hs.
    destruct (u =? openBracket)%N eqn:Eu; [|reflexivity].
    apply N.eqb_eq in Eu. destruct Hu as [Hu|Hu]; [contradiction|].
    now rewrite (afterBracket_none _ Hu).
  - split; reflexivity.
Qed.

End DisplayFacts.

(* ================================================================== *)
(** * Facts about the parser on every record *)
(* ================================================================== *)

Module RawParseFacts.

Import Log.
Import RawParse.

(** ** Well-formed records *)

Lemma instant_ofEntry (e : LogEntry) : instant (ofEntry e) = Some e.
Proof. now destruct e. Qed.

Lemma instants_ofEntry (l : list LogEntry) : instants (map ofEntry l) = Some l.
Proof.
  induction l as [|e l IH]; [reflexivity|].
  cbn [map instants]. now rewrite instant_ofEntry, IH.
Qed.

Lemma instants_map (raw : list RawEntry) : forall records : list LogEntry,
  instants raw = Some records -> raw = map ofEntry records.
Proof.
  induction raw as [|e raw IH]; intros records H; cbn [instants] in H.
  - now inversion H.
  - destruct (instant e) as [x|] eqn:Ex; [|discriminate].
    destruct (instants raw) as [xs|]; [|discriminate].
    inversion H; subst. cbn [map]. rewrite <- (IH xs eq_refl). f_equal.
    destruct e as [[ts|] [message|]|[ts|] payload]; inversion Ex; reflexivity.
Qed.

Lemma ofEntry_injective (a b : LogEntry) : ofEntry a = ofEntry b -> a = b.
Proof. destruct a, b; cbn; intros H; inversion H; reflexivity. Qed.

Lemma map_ofEntry_injective (l1 : list LogEntry) : forall l2 : list LogEntry,
  map ofEntry l1 = map ofEntry l2 -> l1 = l2.
Proof.
  induction l1 as [|a l1 IH]; intros [|b l2] H; try discriminate;
    [reflexivity|].
  cbn [map] in H. inversion H as [[Ha Hl]].
  now rewrite (ofEntry_injective _ _ Ha), (IH _ Hl).
Qed.

Lemma byTime_ofEntry (a b : LogEntry) :
  byTime (ofEntry a) (ofEntry b) = Parse.byTime a b.
Proof. now destruct a, b. Qed.

Lemma insert_ofEntry (x : LogEntry) (l : list LogEntry) :
  JsSort.insert byTime (ofEntry x) (map ofEntry l)
  = map ofEntry (JsSort.insert Parse.byTime x l).
Proof.
  induction l as [|y l IH]; [reflexivity|].
  cbn [map JsSort.insert]. rewrite byTime_ofEntry.
  destruct (Parse.byTime x y); [|reflexivity].
  cbn [map]. now rewrite IH.
Qed.

Lemma sort_ofEntry (l : list LogEntry) :
  JsSort.sort byTime (map ofEntry l) = map ofEntry (JsSort.sort Parse.byTime l).
Proof.
  induction l as [|x l IH]; [reflexivity|].
  cbn [map JsSort.sort fold_right].
  fold (JsSort.sort byTime (map ofEntry l)).
  fold (JsSort.sort Parse.byTime l).
  now rewrite IH, insert_ofEntry.
Qed.

Lemma dedupe_ofEntry (l : list LogEntry) : forall seen,
  dedupe seen (map ofEntry l) = Returned (map ofEntry (Parse.dedupe seen l)).
Proof.
  induction l as [|e l IH]; intros seen; [reflexivity|].
  destruct e as [ts message|ts payload]; cbn [map ofEntry dedupe Parse.dedupe].
  - destruct (Parse.has seen (ts, message)); [apply IH|].
    now rewrite IH.
  - now rewrite IH.
Qed.

Lemma timelineOf_ofEntry (l : list LogEntry) :
  timelineOf (map ofEntry l) = Returned (map ofEntry (Parse.timelineOf l)).
Proof.
  unfold timelineOf, Parse.timelineOf. now rewrite sort_ofEntry, dedupe_ofEntry.
Qed.

Lemma timeLe_ofEntry (l : list LogEntry) :
  StronglySorted Parse.timeLe l -> StronglySorted timeLe (map ofEntry l).
Proof.
  induction 1 as [|e l _ IH Hall]; cbn [map]; constructor; [exact IH|].
  rewrite Forall_map. eapply Forall_impl; [|exact Hall].
  intros x Hx. now destruct e, x.
Qed.

Section Reading.

Variable JSON_parse : string -> option Parse.JsObj.

Lemma readLine_well_formed (line : string) :
  readLine (ofParser JSON_parse) line
  = Returned (map ofEntry (Parse.readLine JSON_parse line)).
Proof.
  unfold readLine, Parse.readLine, ofParser.
  destruct (Str.isBlank line); [reflexivity|].
  destruct (JSON_parse line) as [[ts [payload|]|ts payload|]|]; reflexivity.
Qed.

Lemma readAll_well_formed (lines : list string) :
  readAll (ofParser JSON_parse) lines
  = Returned (map ofEntry (flat_map (Parse.readLine JSON_parse) lines)).
Proof.
  induction lines as [|line lines IH]; [reflexivity|].
  cbn [readAll flat_map]. rewrite readLine_well_formed, IH.
  now rewrite map_app.
Qed.

(** On well-formed records the parser never throws, and returns what
    [Parse.parseLog] returns. *)
Lemma parseLog_well_formed (text : string) :
  parseLog (ofParser JSON_parse) text
  = Returned (map ofEntry (Parse.parseLog JSON_parse text)).
Proof.
  unfold parseLog, readLines, Parse.parseLog, Parse.readLines.
  rewrite readAll_well_formed. apply timelineOf_ofEntry.
Qed.

End Reading.

(** ** Where the parser throws *)

Lemma dedupe_outcome (raw : list RawEntry) : forall seen,
  match dedupe seen raw with
  | Returned out =>
      existsb undatedMessage raw = false
      /\ existsb unprintedMessage raw = false
      /\ (forall e, In e out -> In e raw)
      /\ (List.length out <= List.length raw)%nat
  | Threw RangeError => existsb undatedMessage raw = true
  | Threw TypeError => existsb unprintedMessage raw = true
  end.
Proof.
  induction raw as [|e raw IH]; intros seen.
  - cbn. repeat split; auto.
  - destruct e as [[ts|] [message|]|ts payload];
      cbn [dedupe existsb undatedMessage unprintedMessage orb];
      try reflexivity.
    + destruct (Parse.has seen (ts, message)).
      * specialize (IH seen). destruct (dedupe seen raw) as [out|x].
        -- destruct IH as (H1 & H1' & H2 & H3).
           split; [exact H1|]. split; [exact H1'|]. split.
           ++ intros e He. right. now apply H2.
           ++ cbn [List.length]. lia.
        -- exact IH.
      * specialize (IH ((ts, message) :: seen)).
        destruct (dedupe ((ts, message) :: seen) raw) as [out|x].
        -- destruct IH as (H1 & H1' & H2 & H3).
           split; [exact H1|]. split; [exact H1'|]. split.
           ++ intros e [He|He]; [now left | right; now apply H2].
           ++ cbn [List.length]. lia.
        -- exact IH.
    + specialize (IH seen). destruct (dedupe seen raw) as [out|x].
      * destruct IH as (H1 & H1' & H2 & H3).
        split; [exact H1|]. split; [exact H1'|]. split.
        -- intros e [He|He]; [now left | right; now apply H2].
        -- cbn [List.length]. lia.
      * exact IH.
Qed.

Lemma existsb_perm {X} (f : X -> bool) (l l' : list X) :
  Permutation l l' -> existsb f l = existsb f l'.
Proof.
  induction 1 as [|x l l' _ IH|x y l|l l' l'' _ IH1 _ IH2]; cbn [existsb].
  - reflexivity.
  - now rewrite IH.
  - destruct (f x), (f y); reflexivity.
  - now rewrite IH1.
Qed.

Section Outcomes.

Variable JSON_parse : string -> option JsValue.

Lemma readLine_outcome (line : string) :
  match readLine JSON_parse line with
  | Returned pushed =>
      ~ unreadable JSON_parse line
      /\ (forall e, In e pushed <-> gives JSON_parse line e)
      /\ (List.length pushed <= 1)%nat
  | Threw x => x = TypeError /\ unreadable JSON_parse line
  end.
Proof.
  unfold readLine, unreadable, gives.
  destruct (Str.isBlank line) eqn:Eb.
  - split; [intros [H _]; discriminate H|]. split; [|cbn; lia].
    intros e. split; [intros []|intros [H _]; discriminate H].
  - destruct (JSON_parse line)
      as [[|[ts|] payload|[ts|] payload|]|] eqn:Ej.
    + split; [reflexivity|]. split; [reflexivity|]. now left.
    + split; [intros [_ [H|[[p H]|[p H]]]]; discriminate H|].
      split; [|cbn; lia].
      intros e. split.
      * intros [<-|[]]. split; [reflexivity|]. left. now exists ts, payload.
      * intros [_ [(ts' & payload' & H & ->)|(ts' & payload' & H & _)]];
          inversion H; subst. now left.
    + split; [reflexivity|]. split; [reflexivity|].
      right. left. now exists payload.
    + split; [intros [_ [H|[[p H]|[p H]]]]; discriminate H|].
      split; [|cbn; lia].
      intros e. split.
      * intros [<-|[]]. split; [reflexivity|]. right. now exists ts, payload.
      * intros [_ [(ts' & payload' & H & _)|(ts' & payload' & H & ->)]];
          inversion H; subst. now left.
    + split; [reflexivity|]. split; [reflexivity|].
      right. right. now exists payload.
    + split; [intros [_ [H|[[p H]|[p H]]]]; discriminate H|].
      split; [|cbn; lia].
      intros e. split; [intros []|].
      intros [_ [(ts' & payload' & H & _)|(ts' & payload' & H & _)]];
        discriminate H.
    + split; [intros [_ [H|[[p H]|[p H]]]]; discriminate H|].
      split; [|cbn; lia].
      intros e. split; [intros []|].
      intros [_ [(ts' & payload' & H & _)|(ts' & payload' & H & _)]];
        discriminate H.
Qed.

Lemma readAll_outcome (lines : list string) :
  match readAll JSON_parse lines with
  | Returned raw =>
      (forall line, In line lines -> ~ unreadable JSON_parse line)
      /\ (forall e, In e raw
                    <-> exists line, In line lines /\ gives JSON_parse line e)
      /\ (List.length raw <= List.length lines)%nat
  | Threw x =>
      x = TypeError /\ exists line, In line lines /\ unreadable JSON_parse line
  end.
Proof.
  induction lines as [|line lines IH]; cbn [readAll].
  - split; [intros line []|]. split; [|apply le_n].
    intros e. split; [intros []|intros (line & [] & _)].
  - pose proof (readLine_outcome line) as Hl.
    destruct (readLine JSON_parse line) as [pushed|x].
    + destruct Hl as (Hn & Hg & Hlen).
      destruct (readAll JSON_parse lines) as [more|x].
      * destruct IH as (In1 & Ig & Ilen). split; [|split].
        -- intros l [<-|Hin]; [exact Hn | now apply In1].
        -- intros e. rewrite in_app_iff, Hg, Ig. split.
           ++ intros [H|(l & Hin & H)];
                [exists line; split; [now left | exact H]
                |exists l; split; [now right | exact H]].
           ++ intros (l & [<-|Hin] & H); [now left|].
              right. now exists l.
        -- rewrite length_app. cbn [List.length]. lia.
      * destruct IH as (Hx & l & Hin & Hnull). split; [exact Hx|].
        exists l. split; [now right | exact Hnull].
    + destruct Hl as (Hx & Hnull). split; [exact Hx|].
      exists line. split; [now left | exact Hnull].
Qed.

Lemma given_in_raw (lines : list string) (raw : list RawEntry)
    (f : RawEntry -> bool) :
  (forall e, In e raw
             <-> exists line, In line lines /\ gives JSON_parse line e) ->
  existsb f raw = false ->
  forall line e, In line lines -> gives JSON_parse line e -> f e = false.
Proof.
  intros Hraw Hex line e Hline Hg.
  assert (He : In e raw) by (apply Hraw; now exists line).
  destruct (f e) eqn:Ef; [|reflexivity].
  assert (Hex' : existsb f raw = true)
    by (apply existsb_exists; now exists e).
  congruence.
Qed.

(** X13: [parseLog] makes no entry up, and it fails in three ways only.
    It throws a [TypeError] while it reads the lines exactly when a line
    that is not blank holds the JSON value [null], or a narrative or
    damage record whose timestamp is an object with no primitive value.
    Failing that, it throws while it builds the signatures: a
    [RangeError] only when a narrative record has no valid timestamp, a
    [TypeError] only when a narrative record with a valid timestamp has a
    payload of which no string is made; and it throws one of the two
    when there is such a record.  Otherwise it returns, and every entry
    of the timeline was read from a line that is not blank and that
    [JSON.parse] accepts as a narrative or a damage record, with the
    date and the payload of that record; the timeline has no more
    entries than the text has lines.  Each outcome occurs on the sample
    lines. *)
Theorem parseLog_outcome (text : string) :
  match parseLog JSON_parse text with
  | Threw TypeError =>
      (exists line, In line (Parse.splitLines text)
                    /\ unreadable JSON_parse line)
      \/ ((forall line, In line (Parse.splitLines text) ->
                        ~ unreadable JSON_parse line)
          /\ exists line ts,
               In line (Parse.splitLines text)
               /\ gives JSON_parse line (RawMessage (Some ts) None))
  | Threw RangeError =>
      (forall line, In line (Parse.splitLines text) ->
                    ~ unreadable JSON_parse line)
      /\ exists line message,
           In line (Parse.splitLines text)
           /\ gives JSON_parse line (RawMessage None message)
  | Returned timeline =>
      (forall line, In line (Parse.splitLines text) ->
                    ~ unreadable JSON_parse line)
      /\ (forall line message,
             In line (Parse.splitLines text) ->
             ~ gives JSON_parse line (RawMessage None message))
      /\ (forall line ts,
             In line (Parse.splitLines text) ->
             ~ gives JSON_parse line (RawMessage ts None))
      /\ (forall e, In e timeline ->
            exists line, In line (Parse.splitLines text)
                         /\ gives JSON_parse line e)
      /\ (List.length timeline <= List.length (Parse.splitLines text))%nat
  end
  /\ parseLog sampleParse "null" = Threw TypeError
  /\ parseLog sampleParse undatableLine = Threw TypeError
  /\ parseLog sampleParse (messageLine noDate) = Threw RangeError
  /\ parseLog sampleParse (unprintedLine oneSecond) = Threw TypeError
  /\ parseLog sampleParse (unprintedLine noDate) = Threw RangeError
  /\ parseLog sampleParse (messageLine noDate ++ lineFeed ++ "null")
     = Threw TypeError
  /\ parseLog sampleParse datedText
     = Returned [RawDamage (Some 1000%Z) (Some samplePayload);
                 RawMessage (Some 1000%Z) (Some "You hit."%string)].
Proof.
  split; [|repeat split; reflexivity].
  unfold parseLog, readLines.
  pose proof (readAll_outcome (Parse.splitLines text)) as Hr.
  destruct (readAll JSON_parse (Parse.splitLines text)) as [raw|x].
  - destruct Hr as (Hnull & Hraw & Hlen).
    unfold timelineOf.
    pose proof (dedupe_outcome (JsSort.sort byTime raw) []) as Hd.
    pose proof (JsSortFacts.sort_perm byTime raw) as Hp.
    rewrite <- (existsb_perm undatedMessage _ _ Hp) in Hd.
    rewrite <- (existsb_perm unprintedMessage _ _ Hp) in Hd.
    destruct (dedupe [] (JsSort.sort byTime raw)) as [out|[|]].
    + destruct Hd as (Hun & Hup & Hin & Hl).
      split; [exact Hnull|]. split; [|split; [|split]].
      * intros line message Hline Hg.
        now pose proof (given_in_raw _ _ _ Hraw Hun _ _ Hline Hg).
      * intros line [ts|] Hline Hg.
        -- now pose proof (given_in_raw _ _ _ Hraw Hup _ _ Hline Hg).
        -- now pose proof (given_in_raw _ _ _ Hraw Hun _ _ Hline Hg).
      * intros e He. apply Hraw.
        apply (Permutation_in _ (Permutation_sym Hp)). now apply Hin.
      * rewrite <- (Permutation_length Hp) in Hl. lia.
    + right. split; [exact Hnull|].
      apply existsb_exists in Hd. destruct Hd as (e & He & Hu).
      destruct e as [[ts|] [message|]|ts payload]; try discriminate Hu.
      apply Hraw in He. destruct He as (line & Hline & Hg).
      now exists line, ts.
    + split; [exact Hnull|].
      apply existsb_exists in Hd. destruct Hd as (e & He & Hu).
      destruct e as [[ts|] message|ts payload]; try discriminate Hu.
      apply Hraw in He. destruct He as (line & Hline & Hg).
      now exists line, message.
  - destruct Hr as (-> & line & Hline & Hnull). left. now exists line.
Qed.

End Outcomes.

(** ** Order *)

Lemma undated_never_sorted (undated dated : RawEntry) (l : list RawEntry) :
  getTime undated = None ->
  Permutation l [undated; dated] -> ~ StronglySorted timeLe l.
Proof.
  intros Hu Hp Hs.
  assert (Hlen : List.length l = 2%nat) by (now rewrite (Permutation_length Hp)).
  destruct l as [|a [|b [|c l]]]; try discriminate Hlen.
  inversion Hs as [|? ? _ Hall]; subst.
  inversion Hall as [|? ? Hab _]; subst.
  assert (Ha : In undated [a; b])
    by (apply (Permutation_in _ (Permutation_sym Hp)); now left).
  unfold timeLe in Hab.
  destruct Ha as [<-|[<-|[]]].
  - now rewrite Hu in Hab.
  - rewrite Hu in Hab. now destruct (getTime a).
Qed.

(** With valid timestamps, [instants] is no further restriction on the
    texts of which [parseLog] returns a timeline: when every entry read
    has a date and [parseLog] returns, every entry has its instant. *)
Lemma instants_total (raw : list RawEntry) :
  forallb dated raw = true -> existsb unprintedMessage raw = false ->
  exists records, instants raw = Some records.
Proof.
  induction raw as [|e raw IH]; [now exists []|].
  cbn [forallb existsb]. intros Hd Hu.
  apply andb_true_iff in Hd. destruct Hd as [He Hd].
  apply orb_false_iff in Hu. destruct Hu as [Hue Hu].
  destruct (IH Hd Hu) as (records & Hr).
  destruct e as [[ts|] [message|]|[ts|] payload]; try discriminate.
  - exists (DslMessage ts message :: records). cbn [instants instant].
    now rewrite Hr.
  - exists (Damage ts payload :: records). cbn [instants instant].
    now rewrite Hr.
Qed.

Lemma returned_has_instants (JSON_parse : string -> option JsValue)
    (text : string) (raw timeline : list RawEntry) :
  readLines JSON_parse text = Returned raw ->
  forallb dated raw = true ->
  parseLog JSON_parse text = Returned timeline ->
  exists records, instants raw = Some records.
Proof.
  intros Hread Hd Hp. apply instants_total; [exact Hd|].
  unfold parseLog in Hp. rewrite Hread in Hp. unfold timelineOf in Hp.
  pose proof (dedupe_outcome (JsSort.sort byTime raw) []) as Ho.
  rewrite Hp in Ho. destruct Ho as (_ & Hu & _).
  now rewrite (existsb_perm unprintedMessage _ _
                 (JsSortFacts.sort_perm byTime raw)).
Qed.

(** C9 (as amended): when every record read from the text carries a
    valid timestamp, and every narrative message is a string or has one
    made of it (with a message that has none [parseLog] throws and there
    is no timeline), [parseLog] returns, the timeline it returns is in
    non-decreasing order of timestamp, and entries with the same
    timestamp keep the order the file gave them: the sort leaves the
    records of every instant in file order, and the timeline's entries
    of an instant are the file's records of that instant, in file
    order, less the repeated narrative lines. *)
Theorem C9_timeline_sorted_and_stable
    (JSON_parse : string -> option JsValue) (text : string)
    (raw : list RawEntry) (records : list LogEntry) :
  readLines JSON_parse text = Returned raw ->
  instants raw = Some records ->
  let timeline := Parse.timelineOf records in
  parseLog JSON_parse text = Returned (map ofEntry timeline)
  /\ StronglySorted timeLe (map ofEntry timeline)
  /\ StronglySorted Parse.timeLe timeline
  /\ (forall t : Z,
         filter (Parse.stampedAt t) (JsSort.sort Parse.byTime records)
         = filter (Parse.stampedAt t) records)
  /\ (forall t : Z,
         filter (Parse.stampedAt t) timeline
         = Parse.dedupe [] (filter (Parse.stampedAt t) records))
  /\ (forall t : Z,
         Parse.subseq (filter (Parse.stampedAt t) timeline)
                      (filter (Parse.stampedAt t) records)).
Proof.
  intros Hread Hinst timeline.
  destruct (ParseFacts.timeline_sorted_and_stable records)
    as (Hs & H1 & H2 & H3).
  split; [|split; [now apply timeLe_ofEntry|]; repeat split; assumption].
  unfold parseLog. rewrite Hread, (instants_map _ _ Hinst).
  apply timelineOf_ofEntry.
Qed.

Lemma C9_timeline_sorted_and_stable_witness :
  readLines sampleParse datedText
  = Returned [RawDamage (Some 1000%Z) (Some samplePayload);
              RawMessage (Some 1000%Z) (Some "You hit."%string)]
  /\ parseLog sampleParse datedText
     = Returned [RawDamage (Some 1000%Z) (Some samplePayload);
                 RawMessage (Some 1000%Z) (Some "You hit."%string)]
  /\ StronglySorted timeLe
       [RawDamage (Some 1000%Z) (Some samplePayload);
        RawMessage (Some 1000%Z) (Some "You hit."%string)].
Proof.
  assert (Hread : readLines sampleParse datedText
                  = Returned [RawDamage (Some 1000%Z) (Some samplePayload);
                              RawMessage (Some 1000%Z) (Some "You hit."%string)])
    by reflexivity.
  split; [exact Hread|].
  destruct (C9_timeline_sorted_and_stable sampleParse datedText _
              [Damage 1000 (Some samplePayload); DslMessage 1000 "You hit."]
              Hread eq_refl) as (Hp & Hs & _).
  split; [exact Hp | exact Hs].
Defined.

(** The claim as the design document words it, for every text, fails:
    a damage record without a valid timestamp stays in the timeline,
    and a timeline that holds it and another entry is in no order
    sorted; a narrative record without one makes [parseLog] throw. *)
Lemma C9_counterexample :
  parseLog sampleParse undatedText
  = Returned [RawDamage None (Some samplePayload);
              RawDamage (Some 1000%Z) (Some samplePayload)]
  /\ ~ StronglySorted timeLe
         [RawDamage None (Some samplePayload);
          RawDamage (Some 1000%Z) (Some samplePayload)]
  /\ (forall l : list RawEntry,
         Permutation l [RawDamage None (Some samplePayload);
                        RawDamage (Some 1000%Z) (Some samplePayload)] ->
         ~ StronglySorted timeLe l)
  /\ parseLog sampleParse (messageLine noDate) = Threw RangeError.
Proof.
  split; [reflexivity|]. split; [|split; [|reflexivity]].
  - apply (undated_never_sorted (RawDamage None (Some samplePayload))
             (RawDamage (Some 1000%Z) (Some samplePayload)));
      [reflexivity | apply Permutation_refl].
  - intros l Hp.
    exact (undated_never_sorted (RawDamage None (Some samplePayload))
             (RawDamage (Some 1000%Z) (Some samplePayload)) l eq_refl Hp).
Qed.

(** ** Lists that the pass leaves alone *)

(** X14: on entries that all carry a valid timestamp and, when they are
    narrative, a message that has a string, the sort and deduplication
    pass of [parseLog] returns; it leaves a list as it is exactly when
    the list is in non-decreasing time order and holds no narrative
    entry twice; and what it returns it leaves as it is. *)
Theorem timelineOf_fixed_points (raw : list RawEntry)
    (records : list LogEntry) :
  instants raw = Some records ->
  timelineOf raw = Returned (map ofEntry (Parse.timelineOf records))
  /\ (timelineOf raw = Returned raw
      <-> StronglySorted Parse.timeLe records
          /\ NoDup (Parse.messageKeys records))
  /\ (forall timeline : list RawEntry,
         timelineOf raw = Returned timeline ->
         timelineOf timeline = Returned timeline).
Proof.
  intros Hinst. pose proof (instants_map _ _ Hinst) as ->.
  destruct (TimelineFacts.sorted_timelines_are_fixed records) as [Hiff Hidem].
  split; [apply timelineOf_ofEntry|]. split.
  - rewrite timelineOf_ofEntry, <- Hiff. split.
    + intros H. inversion H as [Hm]. now apply map_ofEntry_injective.
    + intros H. now rewrite H.
  - intros timeline. rewrite timelineOf_ofEntry. intros H.
    inversion H; subst. rewrite timelineOf_ofEntry. now rewrite Hidem.
Qed.

Lemma timelineOf_fixed_points_witness :
  instants [RawMessage (Some 2000%Z) (Some "b"%string);
            RawDamage (Some 1000%Z) None;
            RawMessage (Some 2000%Z) (Some "b"%string)]
  = Some [DslMessage 2000 "b"; Damage 1000 None; DslMessage 2000 "b"]
  /\ timelineOf [RawMessage (Some 2000%Z) (Some "b"%string);
                 RawDamage (Some 1000%Z) None;
                 RawMessage (Some 2000%Z) (Some "b"%string)]
     = Returned [RawDamage (Some 1000%Z) None;
                 RawMessage (Some 2000%Z) (Some "b"%string)].
Proof.
  split; [reflexivity|].
  exact (proj1 (timelineOf_fixed_points
                  [RawMessage (Some 2000%Z) (Some "b"%string);
                   RawDamage (Some 1000%Z) None;
                   RawMessage (Some 2000%Z) (Some "b"%string)]
                  [DslMessage 2000 "b"; Damage 1000 None; DslMessage 2000 "b"]
                  eq_refl)).
Defined.

End RawParseFacts.
